(** * The scratch-map globe: coverage matcher, visited countries, area,
      country identifiers, geocode cache and scratch set

    A shallow embedding of the front-end's own logic:
    - [GlobeCircles]      the globe component that reveals countries touched by
                          a disk around every geocoded place (the two unnamed
                          revisions of the component share this code);
    - [RadiusCalculator]  src/utils/radiusCalculator.js;
    - [GlobeScratch]      src/components/Globe.jsx (click / drag scratch map);
    - [Geocoder]          src/utils/geocoder.js;
    - [CsvParser]         the CSV parser module;
    - [RadiusQueries], [RadiusCache]
                          the point queries and the circle cache of
                          src/utils/radiusCalculator.js;
    - [GeocoderNet]       the requests of src/utils/geocoder.js;
    - [GlobeScratchView], [GlobeCirclesView]
                          colours, labels, markers and the saved set of the
                          two globe components;
    - [DataLoader]        src/components/DataLoader.jsx.

    The geometry library (turf) is an external collaborator.  It is modelled
    as an interface, class [Turf]: every primitive that the program guards
    with a [try]/[catch] may raise, so it returns in the exception monad
    [Exc].

    JavaScript numbers are IEEE doubles.  Every finite double is a rational
    and [<], [<=], [>] on finite doubles agree with the order of the
    rationals, so coordinates, distances and areas are canonical rationals
    [Qc]; rounding of sums and products is not modelled. *)

From Stdlib Require Import QArith Qcanon Qround Ascii String.
From stdpp Require Import base numbers list strings gmap sorting.

Local Open Scope Qc_scope.

(** ** JavaScript exceptions *)

Module Js.

Inductive Exc (A : Type) : Type :=
| Ok (a : A)
| Throw (e : string).
Arguments Ok {A} a.
Arguments Throw {A} e.

Global Instance Exc_ret : MRet Exc := λ A a, Ok a.
Global Instance Exc_bind : MBind Exc := λ A B f m,
  match m with
  | Ok a => f a
  | Throw e => Throw e
  end.

(** [try { body } catch (e) { handler e }] *)
Definition try_catch {A} (body : Exc A) (handler : string → Exc A) : Exc A :=
  match body with
  | Ok a => Ok a
  | Throw e => handler e
  end.

(** Truthiness of a number: [0] is falsy (there is no NaN in [Qc]). *)
Definition truthy (x : Qc) : bool := bool_decide (x ≠ 0).

(** Truthiness of a possibly absent string property: [undefined] and the
    empty string are falsy. *)
Definition truthy_str (v : option string) : bool :=
  match v with
  | Some s => bool_decide (s ≠ EmptyString)
  | None => false
  end.

(** [a || b] on two possibly absent string properties. *)
Definition or_prop (a b : option string) : option string :=
  if truthy_str a then a else b.

(** [a || 'literal']: the chain ends in a string literal, so the result is
    a string. *)
Definition or_str (a : option string) (literal : string) : string :=
  match a with
  | Some s => if bool_decide (s ≠ EmptyString) then s else literal
  | None => literal
  end.

End Js.
Export Js.

(** ** Geometry interface *)

(** A GeoJSON position [[lng, lat]], in degrees. *)
Definition Point : Type := Qc * Qc.

(** The array [[minX, minY, maxX, maxY]] returned by [turf.bbox]. *)
Record BBox : Type := mkBBox { minX : Qc; minY : Qc; maxX : Qc; maxY : Qc }.

Class Turf : Type := {
  (** a GeoJSON geometry, as handed to the primitives *)
  Geom : Type;
  turf_bbox : Geom → Exc BBox;
  turf_centroid : Geom → Exc Point;
  turf_booleanPointInPolygon : Point → Geom → Exc bool;
  turf_booleanIntersects : Geom → Geom → Exc bool;
  (** great-circle distance in kilometres *)
  turf_distance : Point → Point → Exc Qc;
  (** [turf.circle(center, radius, { steps, units: 'kilometers' })] *)
  turf_circle : Point → Qc → nat → Geom;
  (** [turf.union(turf.featureCollection([a, b]))] *)
  turf_union : Geom → Geom → Exc Geom;
  (** area in square metres *)
  turf_area : Geom → Exc Qc;
}.

(** [turf.point(coords)] and [turf.feature(geometry)] only wrap their
    argument. *)
Definition turf_point (coords : Qc * Qc) : Point := coords.
Definition turf_feature `{Turf} (geometry : Geom) : Geom := geometry.

(** ** src/utils/radiusCalculator.js *)

Module RadiusCalculator.

Definition RADIUS_KM : Qc := Qc_of_Z 100.

(** [Math.PI], the double nearest to pi. *)
Definition Math_PI : Qc := Q2Qc (884279719003555 # 281474976710656).

Section WithTurf.
Context `{Turf}.

Definition createCircle (lat lng radiusKm : Qc) (steps : nat) : Geom :=
  let center := turf_point (lng, lat) in
  turf_circle center radiusKm steps.

(** One step of the loop of [mergeCircles]: a failed union is caught and
    [merged] keeps its value. *)
Definition mergeStep (merged feature : Geom) : Geom :=
  match turf_union merged feature with
  | Ok u => u
  | Throw _ => merged
  end.

(** [features] is [circlesCollection.features]; the result is the
    [features] of the returned collection.  Every union is caught inside
    the loop, so the outer [try] of the function has nothing to catch. *)
Definition mergeCircles (features : list Geom) : list Geom :=
  match features with
  | [] => []
  | [only] => [only]
  | first :: rest => [foldl mergeStep first rest]
  end.

(** The loop [totalArea += turf.area(feature) / 1000000]. *)
Fixpoint sumAreas (totalArea : Qc) (features : list Geom) : Exc Qc :=
  match features with
  | [] => Ok totalArea
  | feature :: rest =>
      a ← turf_area feature;
      sumAreas (totalArea + a / Qc_of_Z 1000000) rest
  end.

Definition calculateTotalArea (features : list Geom) : Exc Qc :=
  match features with
  | [] => Ok 0
  | _ =>
      try_catch
        (let merged := mergeCircles features in
         sumAreas 0 merged)
        (λ _, Ok (Qc_of_Z (Z.of_nat (length features))
                  * Math_PI * RADIUS_KM * RADIUS_KM))
  end.

Definition getDefaultRadius : Qc := RADIUS_KM.

End WithTurf.
End RadiusCalculator.

(** ** Country records of the GeoJSON source *)

(** The name-like members of [country.properties]; an absent member is
    [None] (JavaScript [undefined]). *)
Record CountryProps : Type := mkCountryProps {
  prop_name : option string;
  prop_NAME : option string;
  prop_ADMIN : option string;
  prop_NAME_EN : option string;
  prop_NAME_LONG : option string;
}.

(** [properties] is [None] when the feature carries [properties: null]. *)
Record Country `{Turf} : Type := mkCountry {
  geometry : Geom;
  properties : option CountryProps;
}.
Arguments mkCountry {_} geometry properties.

(** ** The globe component driven by geocoded places *)

Module GlobeCircles.

Definition RADIUS_KM : Qc := RadiusCalculator.getDefaultRadius.

(** An element of [geocodedPlaces]. *)
Record Place : Type := mkPlace {
  title : string;
  lat : Qc;
  lng : Qc;
  formattedAddress : string;
  geocoded : bool;
}.

(** [place.geocoded && place.lat && place.lng] *)
Definition usable (place : Place) : bool :=
  geocoded place && truthy (lat place) && truthy (lng place).

(** [circle.properties] as the component sets it. *)
Record CircleProps : Type := mkCircleProps {
  props_title : string;
  props_formattedAddress : string;
  props_lat : Qc;
  props_lng : Qc;
}.

(** JavaScript's default [Array.prototype.sort] orders strings by their
    code units, which is [String.leb] on strings of single-byte
    characters. *)
Definition String_le (s1 s2 : string) : Prop := String.leb s1 s2 = true.

Global Instance String_le_dec : RelDecision String_le.
Proof. intros s1 s2. unfold String_le. apply _. Defined.

Definition Array_sort (l : list string) : list string :=
  merge_sort String_le l.

(** A JavaScript [Set] of strings, in insertion order. *)
Definition Set_add (s : list string) (x : string) : list string :=
  if bool_decide (x ∈ s) then s else s ++ [x].

(** The memoised value [{ count, list }]. *)
Record Visited : Type := mkVisited {
  count : nat;
  list_ : list string;
}.

Section WithTurf.
Context `{Turf}.

(** A circle feature: the polygon built by [createCircle] and the
    [properties] assigned to it. *)
Record Circle : Type := mkCircle {
  circle_geom : Geom;
  circle_properties : CircleProps;
}.

Definition circleOfPlace (place : Place) : Circle :=
  {| circle_geom :=
       RadiusCalculator.createCircle (lat place) (lng place) RADIUS_KM 64;
     circle_properties :=
       {| props_title := title place;
          props_formattedAddress := formattedAddress place;
          props_lat := lat place;
          props_lng := lng place |} |}.

Definition scratchedCircles (geocodedPlaces : list Place) : list Circle :=
  map circleOfPlace (filter (λ place, Is_true (usable place)) geocodedPlaces).

(** The quick bounding-box check; [true] is the [continue] branch.  The
    source's [a > b] is written [b < a]:
    [countryBbox[2] < bbox[0] || countryBbox[0] > bbox[2] ||
     countryBbox[3] < bbox[1] || countryBbox[1] > bbox[3]]. *)
Definition bboxReject (countryBbox bbox : BBox) : bool :=
  bool_decide (maxX countryBbox < minX bbox)
  || bool_decide (maxX bbox < minX countryBbox)
  || bool_decide (maxY countryBbox < minY bbox)
  || bool_decide (maxY bbox < minY countryBbox).

(** One pass of the loop body for one entry of [circleBounds]:
    [Ok true] is [return true], [Ok false] falls through to the next
    entry, [Throw] leaves the loop for the enclosing [catch]. *)
Definition checkCircle (countryFeature : Geom) (countryBbox : BBox)
    (entry : Circle * BBox) : Exc bool :=
  let '(circle, bbox) := entry in
  if bboxReject countryBbox bbox then Ok false
  else
    centroid ← turf_centroid countryFeature;
    inCircle ← turf_booleanPointInPolygon centroid (circle_geom circle);
    if (inCircle : bool) then Ok true
    else
      let circleCenter :=
        turf_point (props_lng (circle_properties circle),
                    props_lat (circle_properties circle)) in
      inCountry ← turf_booleanPointInPolygon circleCenter countryFeature;
      if (inCountry : bool) then Ok true
      else
        try_catch
          (turf_booleanIntersects countryFeature (circle_geom circle))
          (λ _,
             distance ← turf_distance centroid circleCenter;
             Ok (bool_decide (distance ≤ RADIUS_KM * Q2Qc (3 # 2)))).

Fixpoint scanCircles (countryFeature : Geom) (countryBbox : BBox)
    (circleBounds : list (Circle * BBox)) : Exc bool :=
  match circleBounds with
  | [] => Ok false
  | entry :: rest =>
      hit ← checkCircle countryFeature countryBbox entry;
      if (hit : bool) then Ok true
      else scanCircles countryFeature countryBbox rest
  end.

(** The closure [(country) => { try { ... } catch (err) { return false } }]:
    first the block under [try], then the closure. *)
Definition matchBody (circleBounds : list (Circle * BBox))
    (country : Country) : Exc bool :=
  let countryFeature := turf_feature (geometry country) in
  countryBbox ← turf_bbox countryFeature;
  scanCircles countryFeature countryBbox circleBounds.

Definition matchCountry (circleBounds : list (Circle * BBox))
    (country : Country) : Exc bool :=
  try_catch (matchBody circleBounds country) (λ _, Ok false).

Definition circleBounds (scratchedCircles : list Circle)
    : Exc (list (Circle * BBox)) :=
  mapM (λ circle, bbox ← turf_bbox (circle_geom circle); Ok (circle, bbox))
       scratchedCircles.

(** The memoised matcher.  The bounding boxes of the circles are computed
    when the matcher is built, outside the closure's [try]. *)
Definition isCountryScratched (scratchedCircles : list Circle)
    : Exc (Country → Exc bool) :=
  if bool_decide (length scratchedCircles = 0%nat) then Ok (λ _, Ok false)
  else
    bounds ← circleBounds scratchedCircles;
    Ok (matchCountry bounds).

(** *** Visited countries *)

(** An element of [countriesWithBbox]. *)
Record CountryWithBbox : Type := mkCountryWithBbox {
  cwb_country : Country;
  countryFeature : Geom;
  bbox : BBox;
  countryName : string;
}.

(** [country.properties?.X] *)
Definition opt_prop (country : Country)
    (member : CountryProps → option string) : option string :=
  properties country ≫= member.

(** The body of the [map] callback; [None] is the [null] of its [catch]. *)
Definition withBbox (country : Country) : option CountryWithBbox :=
  let countryFeature := turf_feature (geometry country) in
  match turf_bbox countryFeature with
  | Ok b =>
      Some {| cwb_country := country;
              countryFeature := countryFeature;
              bbox := b;
              countryName :=
                or_str
                  (or_prop
                     (or_prop
                        (or_prop
                           (or_prop (opt_prop country prop_NAME)
                                    (opt_prop country prop_NAME_EN))
                           (opt_prop country prop_NAME_LONG))
                        (opt_prop country prop_ADMIN))
                     (opt_prop country prop_name))
                  EmptyString |}
  | Throw _ => None
  end.

(** [.map(...).filter(item => item !== null && item.countryName)] *)
Definition countriesWithBbox (features : list Country)
    : list CountryWithBbox :=
  filter (λ item, countryName item ≠ EmptyString) (omap withBbox features).

(** [lng < bbox[0] || lng > bbox[2] || lat < bbox[1] || lat > bbox[3]] *)
Definition outsideBbox (lng lat : Qc) (b : BBox) : bool :=
  bool_decide (lng < minX b) || bool_decide (maxX b < lng)
  || bool_decide (lat < minY b) || bool_decide (maxY b < lat).

(** The inner loop for one place: the name it adds before [break], if
    any.  A raising point-in-polygon test is caught and the country is
    skipped. *)
Fixpoint findCountry (placePoint : Point) (lng lat : Qc)
    (cs : list CountryWithBbox) : option string :=
  match cs with
  | [] => None
  | c :: rest =>
      if outsideBbox lng lat (bbox c) then findCountry placePoint lng lat rest
      else
        match turf_booleanPointInPolygon placePoint (countryFeature c) with
        | Ok true => Some (countryName c)
        | Ok false => findCountry placePoint lng lat rest
        | Throw _ => findCountry placePoint lng lat rest
        end
  end.

(** One pass of the outer loop. *)
Definition visitPlace (cs : list CountryWithBbox)
    (visitedCountryNames : list string) (place : Place) : list string :=
  if negb (usable place) then visitedCountryNames
  else
    let placePoint := turf_point (lng place, lat place) in
    match findCountry placePoint (lng place) (lat place) cs with
    | Some name => Set_add visitedCountryNames name
    | None => visitedCountryNames
    end.

Definition visitedCountriesData (features : list Country)
    (geocodedPlaces : list Place) : Visited :=
  if bool_decide (length features = 0%nat)
     || bool_decide (length geocodedPlaces = 0%nat)
  then {| count := 0; list_ := [] |}
  else
    let visitedCountryNames :=
      foldl (visitPlace (countriesWithBbox features)) [] geocodedPlaces in
    let countryList := Array_sort visitedCountryNames in
    {| count := length countryList; list_ := countryList |}.

End WithTurf.
End GlobeCircles.

(** ** src/components/Globe.jsx: the click / drag scratch map *)

Module GlobeScratch.

(** The component state that the handlers read and write. *)
Record State : Type := mkState {
  scratchedCountries : gset string;
  isDragging : bool;
}.

Section WithTurf.
Context `{Turf}.

(** [country.properties.name || ... || 'unknown']; reading a member of
    [properties: null] raises a TypeError. *)
Definition getCountryId (country : Country) : Exc string :=
  match properties country with
  | None => Throw "TypeError"
  | Some p =>
      Ok (or_str
            (or_prop (or_prop (or_prop (prop_name p) (prop_NAME p))
                              (prop_ADMIN p))
                     (prop_NAME_EN p))
            "unknown")
  end.

Definition handleMouseDown (st : State) : State :=
  {| scratchedCountries := scratchedCountries st; isDragging := true |}.

Definition handleMouseUp (st : State) : State :=
  {| scratchedCountries := scratchedCountries st; isDragging := false |}.

(** [setScratchedCountries(prev => { newSet = new Set(prev);
    newSet.add(countryId); return newSet })] *)
Definition scratch (countryId : string) (st : State) : State :=
  {| scratchedCountries := {[countryId]} ∪ scratchedCountries st;
     isDragging := isDragging st |}.

(** [polygon] is [None] when the pointer is over no polygon.  When
    [getCountryId] raises, the handler is left before the state update. *)
Definition handlePolygonHover (polygon : option Country) (st : State)
    : State :=
  match polygon with
  | Some country =>
      if isDragging st then
        match getCountryId country with
        | Ok countryId => scratch countryId st
        | Throw _ => st
        end
      else st
  | None => st
  end.

Definition handlePolygonClick (polygon : option Country) (st : State)
    : State :=
  match polygon with
  | Some country =>
      match getCountryId country with
      | Ok countryId => scratch countryId st
      | Throw _ => st
      end
  | None => st
  end.

(** The events wired on the component: [onMouseDown], [onMouseUp],
    [onMouseLeave], [onPolygonHover], [onPolygonClick]. *)
Inductive Event : Type :=
| MouseDown
| MouseUp
| MouseLeave
| PolygonHover (polygon : option Country)
| PolygonClick (polygon : option Country).

Definition step (st : State) (ev : Event) : State :=
  match ev with
  | MouseDown => handleMouseDown st
  | MouseUp => handleMouseUp st
  | MouseLeave => handleMouseUp st
  | PolygonHover polygon => handlePolygonHover polygon st
  | PolygonClick polygon => handlePolygonClick polygon st
  end.

Definition run (st : State) (events : list Event) : State :=
  foldl step st events.

(** [scratchedCountries.has(getCountryId(country))], the test behind
    [getPolygonColor]. *)
Definition isScratched (st : State) (country : Country) : Exc bool :=
  countryId ← getCountryId country;
  Ok (bool_decide (countryId ∈ scratchedCountries st)).

End WithTurf.
End GlobeScratch.

(** ** src/utils/geocoder.js *)

Module Geocoder.

Definition GEOCODE_CACHE_KEY : string := "scratch-map-geocode-cache".

(** A cached geocode result; an object, hence truthy. *)
Record GeocodeResult : Type := mkGeocodeResult {
  lat : Qc;
  lng : Qc;
  formattedAddress : string;
  placeId : option string;
}.

(** The module state: the imported [geocodedDataFile.places] object
    ([None] when the member is missing) and the browser's [localStorage]. *)
Record Env : Type := mkEnv {
  places : option (gmap string GeocodeResult);
  localStorage : gmap string string;
}.

Section WithBuiltins.
(** [String.prototype.toLowerCase] *)
Variable toLowerCase : string → string.
(** [JSON.parse], giving the own enumerable properties of the parsed value;
    it raises on text that is not JSON. *)
Variable JSON_parse : string → Exc (gmap string GeocodeResult).
Variable JSON_stringify : gmap string GeocodeResult → string.

(** The second component tells whether the returned object is the
    [places] object of the imported file itself (no copy was made). *)
Definition getGeocodeCache (env : Env)
    : gmap string GeocodeResult * bool :=
  let fileData := default ∅ (places env) in
  let aliased := bool_decide (is_Some (places env)) in
  match localStorage env !! GEOCODE_CACHE_KEY with
  | Some localData =>
      if bool_decide (localData ≠ EmptyString) then
        match JSON_parse localData with
        | Ok parsed => (parsed ∪ fileData, false)
        | Throw _ => (fileData, aliased)
        end
      else (fileData, aliased)
  | None => (fileData, aliased)
  end.

(** [cache[query.toLowerCase()] = result] writes into the object that
    [getGeocodeCache] returned, which may be the imported [places]. *)
Definition cacheGeocodeResult (query : string) (result : GeocodeResult)
    (env : Env) : Env :=
  let '(cache, aliased) := getGeocodeCache env in
  let cache' := <[toLowerCase query := result]> cache in
  {| places := if aliased then Some cache' else places env;
     localStorage :=
       <[GEOCODE_CACHE_KEY := JSON_stringify cache']> (localStorage env) |}.

(** [cache[query.toLowerCase()] || null]; [None] is [null]. *)
Definition getCachedResult (env : Env) (query : string)
    : option GeocodeResult :=
  let cache := (getGeocodeCache env).1 in
  cache !! toLowerCase query.

(** The overlay held by the durable store: the parsed item, empty when
    the item is missing, empty or not JSON. *)
Definition overlay (env : Env) : gmap string GeocodeResult :=
  match localStorage env !! GEOCODE_CACHE_KEY with
  | Some localData =>
      if bool_decide (localData ≠ EmptyString) then
        match JSON_parse localData with
        | Ok parsed => parsed
        | Throw _ => ∅
        end
      else ∅
  | None => ∅
  end.

(** The bundled static dataset. *)
Definition bundled (env : Env) : gmap string GeocodeResult :=
  default ∅ (places env).

End WithBuiltins.
End Geocoder.

(** ** The CSV parser module (parseCSV, extractPlaces, getSearchQuery) *)

Module CsvParser.

(** *** String built-ins *)

(** [s.split(sep)] for a one-character separator: never empty. *)
Fixpoint split (sep : ascii) (s : string) : list string :=
  match s with
  | EmptyString => [EmptyString]
  | String c rest =>
      if bool_decide (c = sep) then EmptyString :: split sep rest
      else
        match split sep rest with
        | first :: others => String c first :: others
        | [] => [String c EmptyString]
        end
  end.

(** [s.includes(needle)] *)
Fixpoint includes (s needle : string) : bool :=
  String.prefix needle s
  || match s with
     | EmptyString => false
     | String _ rest => includes rest needle
     end.

(** [s] without its prefix [p], when it starts with [p]. *)
Fixpoint stripPrefix (p s : string) : option string :=
  match p, s with
  | EmptyString, _ => Some s
  | String a p', String b s' =>
      if bool_decide (a = b) then stripPrefix p' s' else None
  | String _ _, EmptyString => None
  end.

(** [s.replace(/\+/g, ' ')] *)
Fixpoint replacePlus (s : string) : string :=
  match s with
  | EmptyString => EmptyString
  | String c rest =>
      String (if bool_decide (c = "+"%char) then " "%char else c)
        (replacePlus rest)
  end.

(** *** parseCSVLine *)

(** The loop of [parseCSVLine] from character [i] on, with the values
    pushed so far, the field being read and the quote state. *)
Fixpoint parseCSVLine_from (line : string) (values : list string)
    (current : string) (inQuotes : bool) : list string :=
  match line with
  | EmptyString => values ++ [current]
  | String char rest =>
      if bool_decide (char = "034"%char) then
        parseCSVLine_from rest values current (negb inQuotes)
      else if bool_decide (char = ","%char) && negb inQuotes then
        parseCSVLine_from rest (values ++ [current]) EmptyString inQuotes
      else
        parseCSVLine_from rest values (current ++ String char EmptyString)
          inQuotes
  end.

Definition parseCSVLine (line : string) : list string :=
  parseCSVLine_from line [] EmptyString false.

(** A parsed row is an object from column names to strings, here a
    [gmap string string].  A place as [extractPlaces] builds it: *)
Record Place : Type := mkPlace {
  title : string;
  url : string;
  note : string;
  tags : string;
  comment : string;
}.

Section WithBuiltins.
(** [String.prototype.trim] *)
Variable trim : string → string.
(** [decodeURIComponent], which raises a URIError on a malformed escape. *)
Variable decodeURIComponent : string → Exc string.

(** [row[key] = value] on a plain object: assigning a string to
    ["__proto__"] sets no property. *)
Definition assign (key value : string) (row : gmap string string)
    : gmap string string :=
  if bool_decide (key = "__proto__") then row else <[key := value]> row.

(** [headers.forEach((header, index) =>
      row[header.trim()] = values[index]?.trim() || '')] *)
Definition rowOf (headers values : list string) : gmap string string :=
  foldl (λ (row : gmap string string) entry,
           assign (trim entry.2)
             (or_str (trim <$> values !! entry.1) EmptyString) row)
    ∅ (imap (λ index header, (index, header)) headers).

Definition parseCSV (csvContent : string) : list (gmap string string) :=
  let lines :=
    filter (λ line, trim line ≠ EmptyString) (split "010"%char csvContent) in
  match lines with
  | [] => []
  | headerLine :: dataLines =>
      let headers := parseCSVLine headerLine in
      omap (λ line,
              let values := parseCSVLine line in
              if bool_decide (length values = 0%nat) then None
              else Some (rowOf headers values))
        dataLines
  end.

(** [row.Titre && row.Titre.trim()], as a truth value. *)
Definition hasTitle (row : gmap string string) : bool :=
  match row !! "Titre" with
  | Some t =>
      bool_decide (t ≠ EmptyString) && bool_decide (trim t ≠ EmptyString)
  | None => false
  end.

(** [row.URL && row.URL.includes('google.com/maps')] *)
Definition hasURL (row : gmap string string) : bool :=
  match row !! "URL" with
  | Some u => bool_decide (u ≠ EmptyString) && includes u "google.com/maps"
  | None => false
  end.

Definition placeOfRow (row : gmap string string) : Place :=
  {| title := or_str (trim <$> row !! "Titre") "Unknown Place";
     url := or_str (trim <$> row !! "URL") EmptyString;
     note := or_str (trim <$> row !! "Note") EmptyString;
     tags := or_str (trim <$> row !! "Tags") EmptyString;
     comment := or_str (trim <$> row !! "Commentaire") EmptyString |}.

Definition extractPlaces (csvData : list (gmap string string))
    : list Place :=
  map placeOfRow
    (filter (λ row, Is_true (hasTitle row || hasURL row)) csvData).

(** The capture of [/\/place\/([^\/]+)\//] when the match starts at the
    head of [s]: after ["/place/"], the characters up to the next slash,
    at least one, and the slash must be there. *)
Fixpoint untilSlash (s : string) : option string :=
  match s with
  | EmptyString => None
  | String c rest =>
      if bool_decide (c = "/"%char) then Some EmptyString
      else String c <$> untilSlash rest
  end.

Definition placeMatchHere (s : string) : option string :=
  name ← stripPrefix "/place/" s ≫= untilSlash;
  if bool_decide (name ≠ EmptyString) then Some name else None.

(** [url.match(...)]: the leftmost match. *)
Fixpoint placeMatch (url : string) : option string :=
  match placeMatchHere url with
  | Some name => Some name
  | None =>
      match url with
      | EmptyString => None
      | String _ rest => placeMatch rest
      end
  end.

Definition extractPlaceNameFromURL (url : string) : Exc (option string) :=
  if bool_decide (url = EmptyString) then Ok None
  else
    match placeMatch url with
    | Some name =>
        decoded ← decodeURIComponent (replacePlus name);
        Ok (Some decoded)
    | None => Ok None
    end.

Definition getSearchQuery (place : Place) : Exc (option string) :=
  urlName ← extractPlaceNameFromURL (url place);
  match urlName with
  | Some name =>
      if bool_decide (name ≠ EmptyString) then Ok (Some name)
      else if bool_decide (title place ≠ EmptyString)
              && bool_decide (title place ≠ "Unknown Place")
      then Ok (Some (title place)) else Ok None
  | None =>
      if bool_decide (title place ≠ EmptyString)
         && bool_decide (title place ≠ "Unknown Place")
      then Ok (Some (title place)) else Ok None
  end.

End WithBuiltins.

(** [line] without its double quotes. *)
Fixpoint unquote (line : string) : string :=
  match line with
  | EmptyString => EmptyString
  | String c rest =>
      if bool_decide (c = "034"%char) then unquote rest
      else String c (unquote rest)
  end.

(** The characters of a string. *)
Fixpoint chars (s : string) : list ascii :=
  match s with
  | EmptyString => []
  | String c rest => c :: chars rest
  end.

End CsvParser.
(** ** src/utils/radiusCalculator.js: circles for places, point queries *)

Module RadiusQueries.
Import RadiusCalculator.

(** A number that may be [Infinity]. *)
Inductive Distance : Type :=
| Finite (km : Qc)
| Infinity.

(** [distance < minDistance] *)
Definition below (distance : Qc) (minDistance : Distance) : bool :=
  match minDistance with
  | Finite m => bool_decide (distance < m)
  | Infinity => true
  end.

(** [a <= b] on numbers that may be [Infinity]. *)
Definition atMost (a b : Distance) : Prop :=
  match a, b with
  | Finite x, Finite y => x ≤ y
  | _, Infinity => True
  | Infinity, Finite _ => False
  end.

Global Instance atMost_dec a b : Decision (atMost a b).
Proof. destruct a, b; simpl; apply _. Defined.

(** An element of [centers]. *)
Record Center : Type := mkCenter {
  center_lat : Qc;
  center_lng : Qc;
}.

Section WithTurf.
Context `{Turf}.

(** A feature of the collection that [createCirclesForPlaces] returns:
    the polygon and the [properties] assigned to it. *)
Record Feature : Type := mkFeature {
  feature_geom : Geom;
  feature_title : string;
  feature_formattedAddress : string;
}.

(** [createCircle(place.lat, place.lng)] takes the default radius and
    the default number of steps. *)
Definition createCirclesForPlaces (geocodedPlaces : list GlobeCircles.Place)
    : list Feature :=
  map (λ place,
         {| feature_geom :=
              createCircle (GlobeCircles.lat place) (GlobeCircles.lng place)
                RADIUS_KM 64;
            feature_title := GlobeCircles.title place;
            feature_formattedAddress := GlobeCircles.formattedAddress place |})
    (filter (λ place, Is_true (GlobeCircles.usable place)) geocodedPlaces).

(** The loop of [isPointInCircles]; nothing catches a raising test. *)
Fixpoint anyContains (point : Point) (features : list Geom) : Exc bool :=
  match features with
  | [] => Ok false
  | circle :: rest =>
      inside ← turf_booleanPointInPolygon point circle;
      if (inside : bool) then Ok true else anyContains point rest
  end.

(** [features] is [circlesCollection.features], empty when missing. *)
Definition isPointInCircles (lat lng : Qc) (features : list Geom)
    : Exc bool :=
  if bool_decide (length features = 0%nat) then Ok false
  else
    let point := turf_point (lng, lat) in
    anyContains point features.

(** The distance of the loop bodies of [isPointWithinRadius] and
    [getMinDistanceToCenter]. *)
Definition distanceTo (point : Point) (center : Center) : Exc Qc :=
  let centerPoint := turf_point (center_lng center, center_lat center) in
  turf_distance point centerPoint.

Fixpoint withinAny (point : Point) (centers : list Center) (radiusKm : Qc)
    : Exc bool :=
  match centers with
  | [] => Ok false
  | center :: rest =>
      distance ← distanceTo point center;
      if bool_decide (distance ≤ radiusKm) then Ok true
      else withinAny point rest radiusKm
  end.

Definition isPointWithinRadius (lat lng : Qc) (centers : list Center)
    (radiusKm : Qc) : Exc bool :=
  let point := turf_point (lng, lat) in
  withinAny point centers radiusKm.

Fixpoint minLoop (point : Point) (centers : list Center)
    (minDistance : Distance) : Exc Distance :=
  match centers with
  | [] => Ok minDistance
  | center :: rest =>
      distance ← distanceTo point center;
      if below distance minDistance then minLoop point rest (Finite distance)
      else minLoop point rest minDistance
  end.

(** [centers] is a list; [null] is not modelled. *)
Definition getMinDistanceToCenter (lat lng : Qc) (centers : list Center)
    : Exc Distance :=
  if bool_decide (length centers = 0%nat) then Ok Infinity
  else
    let point := turf_point (lng, lat) in
    minLoop point centers Infinity.

End WithTurf.
End RadiusQueries.

(** ** Browser storage shared by the modules *)

(** The names that every plain object inherits from [Object.prototype].
    Reading such a name finds the inherited member when the object has no
    own property of that name, and writing ["__proto__"] sets no own
    property; a finite map models an object on the other names. *)
Module JsObject.

Definition inheritedNames : list string :=
  ["constructor"; "__defineGetter__"; "__defineSetter__"; "hasOwnProperty";
   "__lookupGetter__"; "__lookupSetter__"; "isPrototypeOf";
   "propertyIsEnumerable"; "toString"; "valueOf"; "__proto__";
   "toLocaleString"].

Definition ownName (key : string) : Prop := key ∉ inheritedNames.

Global Instance ownName_dec key : Decision (ownName key).
Proof. unfold ownName. apply _. Defined.

End JsObject.

(** ** src/utils/radiusCalculator.js: the circle cache *)

Module RadiusCache.

Definition RADIUS_CACHE_KEY : string := "scratch-map-radius-circles".

Section WithJSON.
(** The values that go through JSON here: circle collections. *)
Context {Json : Type}.
(** [JSON.stringify] raises on a value that has no JSON text (a cycle). *)
Variable JSON_stringify : Json → Exc string.
Variable JSON_parse : string → Exc Json.

(** The store is taken to accept the item; a raising [JSON.stringify] is
    caught and nothing is stored. *)
Definition saveCirclesToCache (circlesCollection : Json)
    (localStorage : gmap string string) : gmap string string :=
  match JSON_stringify circlesCollection with
  | Ok text => <[RADIUS_CACHE_KEY := text]> localStorage
  | Throw _ => localStorage
  end.

(** [None] is [null]. *)
Definition loadCirclesFromCache (localStorage : gmap string string)
    : option Json :=
  match localStorage !! RADIUS_CACHE_KEY with
  | Some cached =>
      if bool_decide (cached ≠ EmptyString) then
        match JSON_parse cached with
        | Ok collection => Some collection
        | Throw _ => None
        end
      else None
  | None => None
  end.

Definition clearCirclesCache (localStorage : gmap string string)
    : gmap string string :=
  delete RADIUS_CACHE_KEY localStorage.

End WithJSON.
End RadiusCache.

(** ** src/utils/geocoder.js: requests to the geocoding service *)

Module GeocoderNet.
Import Geocoder.

Definition GEOCODE_API_URL : string :=
  "https://maps.googleapis.com/maps/api/geocode/json".

(** An element of [data.results]: [geometry.location.lat],
    [geometry.location.lng], [formatted_address] and [place_id]. *)
Record ApiResult : Type := mkApiResult {
  location_lat : Qc;
  location_lng : Qc;
  formatted_address : string;
  place_id : option string;
}.

(** What awaiting [fetch(url)] and [response.json()] gives. *)
Inductive Reply : Type :=
(** one of the two promises rejects, or reading the first result of the
    body raises, with an error of this message *)
| Rejected (message : string)
(** [response.ok] is false; [status] is the text of [response.status] *)
| HttpError (status : string)
(** the parsed body: [data.status] and [data.results] (empty when the
    member is missing) *)
| Body (status : string) (results : list ApiResult).

(** What the functions act on: the module state of the geocoder, the URLs
    fetched so far (oldest first), the waits made by [delay(ms)] and the
    calls made to [onProgress]. *)
Record World : Type := mkWorld {
  env : Env;
  requests : list string;
  delays : list Z;
  progress : list (nat * nat);
}.

Definition clearGeocodeCache (e : Env) : Env :=
  {| places := places e;
     localStorage := delete GEOCODE_CACHE_KEY (localStorage e) |}.

(** An element of the array that [geocodePlaces] returns, and of the
    arrays that the data loader builds: the members copied from the place
    by the spread, then [lat], [lng], [formattedAddress], [geocoded],
    [cached] and [error].  A missing [cached] reads as falsy, so it is
    [false] here. *)
Record Geocoded (Place : Type) : Type := mkGeocoded {
  source : Place;
  result_lat : option Qc;
  result_lng : option Qc;
  result_formattedAddress : option string;
  result_geocoded : bool;
  result_cached : bool;
  result_error : option string;
}.
Arguments mkGeocoded {Place}.
Arguments source {Place}.
Arguments result_lat {Place}.
Arguments result_lng {Place}.
Arguments result_formattedAddress {Place}.
Arguments result_geocoded {Place}.
Arguments result_cached {Place}.
Arguments result_error {Place}.

Section WithBuiltins.
Variable toLowerCase : string → string.
Variable JSON_parse : string → Exc (gmap string GeocodeResult).
Variable JSON_stringify : gmap string GeocodeResult → string.
(** [encodeURIComponent]; it raises on a lone surrogate only, and the
    strings here have none. *)
Variable encodeURIComponent : string → string.
(** The answer of the network to a request made in a given world. *)
Variable fetch : World → string → Reply.

(** The cache object after [cache[query.toLowerCase()] = result] in
    [cacheGeocodeResult]. *)
Definition writtenCache (query : string) (result : GeocodeResult) (e : Env)
    : gmap string GeocodeResult :=
  <[toLowerCase query := result]> (getGeocodeCache JSON_parse e).1.

(** The JSON text of [cache] is read back as [cache]. *)
Definition roundTrips (cache : gmap string GeocodeResult) : Prop :=
  JSON_stringify cache ≠ EmptyString
  ∧ JSON_parse (JSON_stringify cache) = Ok cache.

Definition resultOf (first : ApiResult) : GeocodeResult :=
  {| lat := location_lat first;
     lng := location_lng first;
     formattedAddress := formatted_address first;
     placeId := place_id first |}.

Definition request (url : string) (w : World) : World :=
  {| env := env w; requests := requests w ++ [url];
     delays := delays w; progress := progress w |}.

Definition cache (query : string) (result : GeocodeResult) (w : World)
    : World :=
  {| env := cacheGeocodeResult toLowerCase JSON_parse JSON_stringify
              query result (env w);
     requests := requests w; delays := delays w; progress := progress w |}.

Definition delay (ms : Z) (w : World) : World :=
  {| env := env w; requests := requests w;
     delays := delays w ++ [ms]; progress := progress w |}.

Definition onProgress (current total : nat) (w : World) : World :=
  {| env := env w; requests := requests w;
     delays := delays w; progress := progress w ++ [(current, total)] |}.

(** [`${GEOCODE_API_URL}?address=${encodeURIComponent(address)}&key=${apiKey}`] *)
Definition requestUrl (address apiKey : string) : string :=
  GEOCODE_API_URL +:+ "?address=" +:+ encodeURIComponent address
  +:+ "&key=" +:+ apiKey.

(** The outcome is the value the promise resolves to ([None] is [null])
    or the message of the error it rejects with. *)
Definition geocodeAddress (address apiKey : string) (w : World)
    : Exc (option GeocodeResult) * World :=
  if bool_decide (address = EmptyString) || bool_decide (apiKey = EmptyString)
  then (Ok None, w)
  else
    match getCachedResult toLowerCase JSON_parse (env w) address with
    | Some cached => (Ok (Some cached), w)
    | None =>
        let url := requestUrl address apiKey in
        let w' := request url w in
        match fetch w url with
        | Rejected message => (Throw message, w')
        | HttpError status => (Throw ("HTTP error: " +:+ status), w')
        | Body status results =>
            match
              (if bool_decide (status = "OK") then head results else None)
            with
            | Some first =>
                let result := resultOf first in
                (Ok (Some result), cache address result w')
            | None =>
                if bool_decide (status = "ZERO_RESULTS") then (Ok None, w')
                else if bool_decide (status = "REQUEST_DENIED") then
                  (Throw "API_KEY_INVALID", w')
                else if bool_decide (status = "OVER_QUERY_LIMIT") then
                  (Throw "QUOTA_EXCEEDED", w')
                else (Ok None, w')
            end
        end
    end.

Section Places.
Context {Place : Type}.
Variable getSearchQuery : Place → Exc (option string).
Variable apiKey : string.

Definition located (place : Place) (coords : GeocodeResult)
    : Geocoded Place :=
  {| source := place;
     result_lat := Some (lat coords);
     result_lng := Some (lng coords);
     result_formattedAddress := Some (formattedAddress coords);
     result_geocoded := true;
     result_cached := false;
     result_error := None |}.

Definition failed (place : Place) (message : string) : Geocoded Place :=
  {| source := place;
     result_lat := None;
     result_lng := None;
     result_formattedAddress := None;
     result_geocoded := false;
     result_cached := false;
     result_error := Some message |}.

(** [getSearchQuery(place)] is a string that is not empty: the place is
    not skipped. *)
Definition queried (place : Place) : bool :=
  match getSearchQuery place with
  | Ok (Some query) => bool_decide (query ≠ EmptyString)
  | _ => false
  end.

(** The end of a pass that pushed a result: the progress report and the
    wait between requests. *)
Definition endPass (total i : nat) (query : string) (w : World) : World :=
  let w := onProgress (i + 1) total w in
  let cached := getCachedResult toLowerCase JSON_parse (env w) query in
  if negb (bool_decide (is_Some cached)) && bool_decide (i + 1 < total)%nat
  then delay 100 w else w.

(** One pass of the loop of [geocodePlaces], for [places[i]], on the
    results pushed so far.  A raising [getSearchQuery] and the error
    ['API_KEY_INVALID'] leave the loop. *)
Definition geocodePlace (total i : nat) (place : Place)
    (results : list (Geocoded Place)) (w : World)
    : Exc (list (Geocoded Place)) * World :=
  match getSearchQuery place with
  | Throw e => (Throw e, w)
  | Ok None => (Ok results, w)
  | Ok (Some query) =>
      if bool_decide (query = EmptyString) then (Ok results, w)
      else
        match geocodeAddress query apiKey w with
        | (Ok (Some coords), w) =>
            (Ok (results ++ [located place coords]), endPass total i query w)
        | (Ok None, w) =>
            (Ok (results ++ [failed place "No results found"]),
             endPass total i query w)
        | (Throw message, w) =>
            if bool_decide (message = "API_KEY_INVALID") then
              (Throw message, w)
            else
              let w :=
                if bool_decide (message = "QUOTA_EXCEEDED") then delay 2000 w
                else w in
              (Ok (results ++ [failed place message]),
               endPass total i query w)
        end
  end.

Fixpoint geocodeFrom (total i : nat) (places : list Place)
    (results : list (Geocoded Place)) (w : World)
    : Exc (list (Geocoded Place)) * World :=
  match places with
  | [] => (Ok results, w)
  | place :: rest =>
      match geocodePlace total i place results w with
      | (Ok results, w) => geocodeFrom total (S i) rest results w
      | (Throw e, w) => (Throw e, w)
      end
  end.

Definition geocodePlaces (places : list Place) (w : World)
    : Exc (list (Geocoded Place)) * World :=
  geocodeFrom (length places) 0 places [] w.

End Places.
End WithBuiltins.
End GeocoderNet.

(** ** src/components/Globe.jsx: colours, labels and the saved set *)

Module GlobeScratchView.
Import GlobeScratch.

Definition STORAGE_KEY : string := "scratch-map-scratched-countries".

Definition transparent : string := "rgba(0, 0, 0, 0)".
Definition opaque : string := "rgba(0, 0, 0, 1)".

(** A label of [labelsData]. *)
Record Label : Type := mkLabel {
  label_lat : Qc;
  label_lng : Qc;
  text : string;
  countryId : string;
}.

Section WithTurf.
Context `{Turf}.

Definition getPolygonColor (st : State) (country : Country) : Exc string :=
  countryId ← getCountryId country;
  let isScratched := bool_decide (countryId ∈ scratchedCountries st) in
  if isScratched then Ok transparent else Ok opaque.

(** [country.properties.name || ... || 'Unknown'] *)
Definition labelText (country : Country) : Exc string :=
  match properties country with
  | None => Throw "TypeError"
  | Some p =>
      Ok (or_str
            (or_prop (or_prop (or_prop (prop_name p) (prop_NAME p))
                              (prop_ADMIN p))
                     (prop_NAME_EN p))
            "Unknown")
  end.

(** The handler of the [catch] in [labelsData] reads the first position
    of the outer ring from [country.geometry.coordinates]:
    [coords[0][0]] of a Polygon and [coords[0][0][0]] of a MultiPolygon
    when that ring is there and not empty, [None] otherwise.  The
    geometry is the library's, so the reading is a parameter; it raises
    where a member of [undefined] is read. *)
Variable firstPosition : Geom → Exc (option Point).

(** The callback of [.map]: [Ok None] is [null]. *)
Definition labelOf (country : Country) : Exc (option Label) :=
  try_catch
    (let feature := turf_feature (geometry country) in
     centroid ← turf_centroid feature;
     let '(lng, lat) := centroid in
     text ← labelText country;
     id ← getCountryId country;
     Ok (Some {| label_lat := lat; label_lng := lng;
                 text := text; countryId := id |}))
    (λ _,
       position ← firstPosition (geometry country);
       match position with
       | Some (lng, lat) =>
           text ← labelText country;
           id ← getCountryId country;
           Ok (Some {| label_lat := lat; label_lng := lng;
                       text := text; countryId := id |})
       | None => Ok None
       end).

(** [.filter(country => scratchedCountries.has(getCountryId(country)))] *)
Fixpoint scratchedOnly (st : State) (features : list Country)
    : Exc (list Country) :=
  match features with
  | [] => Ok []
  | country :: rest =>
      id ← getCountryId country;
      kept ← scratchedOnly st rest;
      if bool_decide (id ∈ scratchedCountries st) then Ok (country :: kept)
      else Ok kept
  end.

Definition labelsData (st : State) (features : list Country)
    : Exc (list Label) :=
  scratched ← scratchedOnly st features;
  labels ← mapM labelOf scratched;
  Ok (omap id labels).

End WithTurf.

Section WithJSON.
(** [JSON.parse] followed by [new Set(parsed)], which raises when the
    parsed value cannot be iterated; and [JSON.stringify] on an array of
    strings. *)
Variable JSON_parse : string → Exc (list string).
Variable JSON_stringify : list string → string.

(** The effect that runs on mount. *)
Definition loadSaved (localStorage : gmap string string) (st : State)
    : State :=
  match localStorage !! STORAGE_KEY with
  | Some saved =>
      if bool_decide (saved ≠ EmptyString) then
        match JSON_parse saved with
        | Ok parsed =>
            {| scratchedCountries := list_to_set parsed;
               isDragging := isDragging st |}
        | Throw _ => st
        end
      else st
  | None => st
  end.

(** The effect that runs when the set changed; [[...scratchedCountries]]
    lists the members of the set. *)
Definition saveScratched (st : State) (localStorage : gmap string string)
    : gmap string string :=
  <[STORAGE_KEY := JSON_stringify (elements (scratchedCountries st))]>
    localStorage.

End WithJSON.
End GlobeScratchView.

(** ** The globe component driven by geocoded places: markers, colours *)

Module GlobeCirclesView.
Import GlobeCircles.

(** An element of [centerPoints]. *)
Record CenterPoint : Type := mkCenterPoint {
  cp_lat : Qc;
  cp_lng : Qc;
  cp_title : string;
  cp_formattedAddress : string;
}.

(** An element of [pointsData]; [size] is [0.1]. *)
Record Marker : Type := mkMarker {
  marker_lat : Qc;
  marker_lng : Qc;
  marker_size : Qc;
  marker_color : string;
  marker_title : string;
}.

(** [Object.entries(geocodedData.places).map(...)]; [entries] lists the
    members of [places] in the order of [Object.entries], [None] stands
    for a missing [places]. *)
Definition geocodedPlaces
    (entries : option (list (string * Geocoder.GeocodeResult)))
    : list Place :=
  match entries with
  | None => []
  | Some entries =>
      map (λ '(name, coords),
             {| title := name;
                lat := Geocoder.lat coords;
                lng := Geocoder.lng coords;
                formattedAddress := Geocoder.formattedAddress coords;
                geocoded := true |})
        entries
  end.

Definition centerPoints (geocodedPlaces : list Place) : list CenterPoint :=
  map (λ place,
         {| cp_lat := lat place; cp_lng := lng place;
            cp_title := title place;
            cp_formattedAddress := formattedAddress place |})
    (filter (λ place, Is_true (usable place)) geocodedPlaces).

Definition pointsData (centerPoints : list CenterPoint) : list Marker :=
  map (λ point,
         {| marker_lat := cp_lat point; marker_lng := cp_lng point;
            marker_size := Q2Qc (1 # 10); marker_color := "#ff6b6b";
            marker_title := cp_title point |})
    centerPoints.

Definition transparent : string := "rgba(0, 0, 0, 0)".
(** The later revision of the component; the earlier one writes the
    alpha [3]. *)
Definition opaque : string := "rgba(0, 0, 0, 1)".

Section WithTurf.
Context `{Turf}.

(** [isCountryScratched] is the matcher once built. *)
Definition getPolygonColor (isCountryScratched : Country → Exc bool)
    (country : Country) : Exc string :=
  scratched ← isCountryScratched country;
  if (scratched : bool) then Ok transparent else Ok opaque.

End WithTurf.
End GlobeCirclesView.

(** ** src/components/DataLoader.jsx *)

Module DataLoader.
Import GeocoderNet.

(** A place of the component: what [extractPlaces] built, and the
    [sourceFile] added to it. *)
Record LoadedPlace : Type := mkLoadedPlace {
  place : CsvParser.Place;
  sourceFile : string;
}.

Record Stats : Type := mkStats {
  totalPlaces : nat;
  geocodedCount : nat;
  failedCount : nat;
  cachedCount : nat;
  totalArea : Z;
}.

(** The component state that the functions below write. *)
Record State : Type := mkState {
  places : list LoadedPlace;
  geocodedPlaces : list (Geocoded LoadedPlace);
  stats : Stats;
  error : option string;
}.

Definition initialState : State :=
  {| places := []; geocodedPlaces := [];
     stats := {| totalPlaces := 0; geocodedCount := 0; failedCount := 0;
                 cachedCount := 0; totalArea := 0 |};
     error := None |}.

(** [Math.round] *)
Definition Math_round (x : Qc) : Z := Qfloor (x + Q2Qc (1 # 2)).

(** [updateStats], with the value that [places.length] has in the
    closure that runs. *)
Definition updateStats (placesLength : nat)
    (geocoded : list (Geocoded LoadedPlace)) : Stats :=
  let geocodedCount :=
    length (filter (λ p, Is_true (result_geocoded p)) geocoded) in
  let failedCount :=
    length (filter (λ p, ¬ Is_true (result_geocoded p)) geocoded) in
  let cachedCount :=
    length (filter (λ p, Is_true (result_cached p)) geocoded) in
  let circles := filter (λ p, Is_true (result_geocoded p)) geocoded in
  let radius := RadiusCalculator.getDefaultRadius in
  let circleArea := (RadiusCalculator.Math_PI * radius * radius)%Qc in
  let totalArea := (Qc_of_Z (Z.of_nat (length circles)) * circleArea)%Qc in
  {| totalPlaces :=
       if bool_decide (placesLength ≠ 0%nat) then placesLength
       else length geocoded;
     geocodedCount := geocodedCount;
     failedCount := failedCount;
     cachedCount := cachedCount;
     totalArea := Math_round totalArea |}.

Section WithBuiltins.
Variable trim : string → string.
Variable decodeURIComponent : string → Exc string.
Variable toLowerCase : string → string.
Variable JSON_parse : string → Exc (gmap string Geocoder.GeocodeResult).
Variable JSON_stringify : gmap string Geocoder.GeocodeResult → string.
Variable encodeURIComponent : string → string.
Variable fetch : World → string → Reply.

(** [getSearchQuery] reads [url] and [title] of the place. *)
Definition getSearchQuery (p : LoadedPlace) : Exc (option string) :=
  CsvParser.getSearchQuery decodeURIComponent (place p).

(** [path.split('/').pop()] *)
Definition fileName (path : string) : string :=
  default EmptyString (last (CsvParser.split "/" path)).

(** The places of one file. *)
Definition filePlaces (file : string * string) : list LoadedPlace :=
  let '(path, content) := file in
  let csvData := CsvParser.parseCSV trim content in
  map (λ p, {| place := p; sourceFile := fileName path |})
    (CsvParser.extractPlaces trim csvData).

Definition cachedResult (p : LoadedPlace) (cached : Geocoder.GeocodeResult)
    : Geocoded LoadedPlace :=
  {| source := p;
     result_lat := Some (Geocoder.lat cached);
     result_lng := Some (Geocoder.lng cached);
     result_formattedAddress := Some (Geocoder.formattedAddress cached);
     result_geocoded := true;
     result_cached := true;
     result_error := None |}.

(** The loop of [loadCachedGeocodedData]; nothing catches a raising
    [getSearchQuery]. *)
Fixpoint cachedResults (e : Geocoder.Env) (allPlaces : list LoadedPlace)
    : Exc (list (Geocoded LoadedPlace)) :=
  match allPlaces with
  | [] => Ok []
  | p :: rest =>
      query ← getSearchQuery p;
      match query with
      | Some query =>
          if bool_decide (query = EmptyString) then cachedResults e rest
          else
            match
              Geocoder.getCachedResult toLowerCase JSON_parse e query
            with
            | Some cached =>
                others ← cachedResults e rest;
                Ok (cachedResult p cached :: others)
            | None => cachedResults e rest
            end
      | None => cachedResults e rest
      end
  end.

(** [loadCachedGeocodedData] is memoised with an empty dependency list,
    so the [updateStats] it calls is the one of the first render, in
    which [places] is still the initial [[]]: [places.length] is 0
    there. *)
Definition loadCachedGeocodedData (e : Geocoder.Env)
    (allPlaces : list LoadedPlace) (st : State) : Exc State :=
  results ← cachedResults e allPlaces;
  if bool_decide (0 < length results)%nat then
    Ok {| places := places st; geocodedPlaces := results;
          stats := updateStats 0 results; error := error st |}
  else Ok st.

(** [loadCSVFiles], run once on mount; [csvFiles] lists the entries of
    the imported files, path and content.  Parsing does not raise, so
    the [catch] around it has nothing to catch. *)
Definition loadCSVFiles (csvFiles : list (string * string))
    (e : Geocoder.Env) (st : State) : Exc State :=
  let allPlaces := concat (map filePlaces csvFiles) in
  let st :=
    {| places := allPlaces; geocodedPlaces := geocodedPlaces st;
       stats :=
         {| totalPlaces := length allPlaces;
            geocodedCount := geocodedCount (stats st);
            failedCount := failedCount (stats st);
            cachedCount := cachedCount (stats st);
            totalArea := totalArea (stats st) |};
       error := error st |} in
  loadCachedGeocodedData e allPlaces st.

(** [startGeocoding]; [apiKey] is [getApiKey()], [None] for [null].  The
    loading flag and the progress state are left out. *)
Definition startGeocoding (apiKey : option string) (st : State) (w : World)
    : State * World :=
  let apiKey := default EmptyString apiKey in
  if bool_decide (apiKey = EmptyString) then
    ({| places := places st; geocodedPlaces := geocodedPlaces st;
        stats := stats st;
        error := Some "Google Maps API key is required" |}, w)
  else
    let st :=
      {| places := places st; geocodedPlaces := geocodedPlaces st;
         stats := stats st; error := None |} in
    match
      geocodePlaces toLowerCase JSON_parse JSON_stringify
        encodeURIComponent fetch getSearchQuery apiKey (places st) w
    with
    | (Ok results, w) =>
        ({| places := places st; geocodedPlaces := results;
            stats := updateStats (length (places st)) results;
            error := error st |}, w)
    | (Throw message, w) =>
        ({| places := places st; geocodedPlaces := geocodedPlaces st;
            stats := stats st;
            error :=
              Some (if bool_decide (message = "API_KEY_INVALID") then
                      "Invalid API key. Please check your Google Maps API key."
                    else "Geocoding error: " +:+ message) |}, w)
    end.

End WithBuiltins.
End DataLoader.


(** ** The country identifier in the words of the specification *)

Module CountryIdSpec.

(** The fallback chain in the words of the specification: a prioritised
    list of field accessors tried in order, the first non-empty result
    wins, and the sentinel stands in when none is populated. *)
Definition idAccessors : list (CountryProps → option string) :=
  [prop_name; prop_NAME; prop_ADMIN; prop_NAME_EN].

Fixpoint firstNonEmpty (accessors : list (CountryProps → option string))
    (p : CountryProps) : option string :=
  match accessors with
  | [] => None
  | accessor :: rest =>
      match accessor p with
      | Some s =>
          if bool_decide (s ≠ EmptyString) then Some s
          else firstNonEmpty rest p
      | None => firstNonEmpty rest p
      end
  end.

Definition countryId (p : CountryProps) : string :=
  default "unknown" (firstNonEmpty idAccessors p).

End CountryIdSpec.

(** ** The disk-coverage matcher in the words of the specification *)

Module CoverageSpec.
Import GlobeCircles.

(** What the tiered test says of one (country, disk) pair.  [Failed] is
    the case the tiers do not decide: a primitive other than the polygon
    intersection raised. *)
Inductive Verdict : Type := Covered | NotCovered | Failed.

Global Instance Verdict_eq_dec : EqDecision Verdict.
Proof. solve_decision. Defined.

(** A point lies in a box. *)
Definition inBox (p : Point) (b : BBox) : Prop :=
  (minX b ≤ p.1 ∧ p.1 ≤ maxX b) ∧ (minY b ≤ p.2 ∧ p.2 ≤ maxY b).

(** Two boxes overlap on both axes. *)
Definition boxesOverlap (a b : BBox) : Prop :=
  (minX a ≤ maxX b ∧ minX b ≤ maxX a) ∧ (minY a ≤ maxY b ∧ minY b ≤ maxY a).

Global Instance inBox_dec p b : Decision (inBox p b).
Proof. unfold inBox. apply _. Defined.

Global Instance boxesOverlap_dec a b : Decision (boxesOverlap a b).
Proof. unfold boxesOverlap. apply _. Defined.

Section WithTurf.
Context `{Turf}.

(** A coverage disk of the data model: centre, radius in kilometres and
    the polygon approximating the circle. *)
Record CoverageDisk : Type := mkCoverageDisk {
  centerLat : Qc;
  centerLng : Qc;
  radiusKm : Qc;
  vertices : Geom;
}.

(** The disk of a geocoded place: every disk has the default radius. *)
Definition coverageDisk (place : Place) : CoverageDisk :=
  {| centerLat := lat place;
     centerLng := lng place;
     radiusKm := RADIUS_KM;
     vertices :=
       RadiusCalculator.createCircle (lat place) (lng place) RADIUS_KM 64 |}.

Definition coverageDisks (geocodedPlaces : list Place) : list CoverageDisk :=
  map coverageDisk (filter (λ place, Is_true (usable place)) geocodedPlaces).

(** Steps 1 to 4 of the algorithm for one disk. *)
Definition diskVerdict (country : Country) (d : CoverageDisk) : Verdict :=
  match turf_bbox (geometry country), turf_bbox (vertices d) with
  | Ok countryBox, Ok diskBox =>
      if decide (boxesOverlap countryBox diskBox) then
        match turf_centroid (geometry country) with
        | Ok centroid =>
            match turf_booleanPointInPolygon centroid (vertices d) with
            | Ok true => Covered
            | Ok false =>
                let center := (centerLng d, centerLat d) in
                match turf_booleanPointInPolygon center (geometry country) with
                | Ok true => Covered
                | Ok false =>
                    match turf_booleanIntersects (geometry country)
                            (vertices d) with
                    | Ok true => Covered
                    | Ok false => NotCovered
                    | Throw _ =>
                        match turf_distance centroid center with
                        | Ok distance =>
                            if decide (distance ≤ Q2Qc (3 # 2) * radiusKm d)
                            then Covered else NotCovered
                        | Throw _ => Failed
                        end
                    end
                | Throw _ => Failed
                end
            | Throw _ => Failed
            end
        | Throw _ => Failed
        end
      else NotCovered
  | _, _ => Failed
  end.

(** Step 5 and the short circuit: the verdict of the first disk that is
    not [NotCovered], and [NotCovered] when the collection is exhausted. *)
Fixpoint scanVerdict (country : Country) (disks : list CoverageDisk)
    : Verdict :=
  match disks with
  | [] => NotCovered
  | d :: rest =>
      match diskVerdict country d with
      | NotCovered => scanVerdict country rest
      | Covered => Covered
      | Failed => Failed
      end
  end.

(** The answer of one pass of the loop, read as a verdict. *)
Definition verdictOf (r : Exc bool) : Verdict :=
  match r with
  | Ok true => Covered
  | Ok false => NotCovered
  | Throw _ => Failed
  end.

(** The full geometric test of one pair: centroid in disk, centre in
    country, or intersecting polygons. *)
Definition fullTest (country : Country) (place : Place) : Prop :=
  let disk := vertices (coverageDisk place) in
  (∃ centroid, turf_centroid (geometry country) = Ok centroid
     ∧ turf_booleanPointInPolygon centroid disk = Ok true)
  ∨ turf_booleanPointInPolygon (lng place, lat place) (geometry country)
    = Ok true
  ∨ turf_booleanIntersects (geometry country) disk = Ok true.

(** Modelled from the spec: the geometry library is not part of the
    repository, and of its bounding boxes the specification says that they
    are supersets of the true shapes.  For one country and the disk of one
    place, with their boxes [cb] and [db], this is: the country's box
    holds the country's centroid, and the disk's centre when the centre
    is found inside the country; the disk's box holds the point the disk
    was built around, and the centroid when it is found inside the disk;
    and when the two polygons intersect, some point lies in both boxes. *)
Definition boxesEnclose (country : Country) (place : Place)
    (cb db : BBox) : Prop :=
  let disk := vertices (coverageDisk place) in
  let center := (lng place, lat place) in
  (∀ centroid, turf_centroid (geometry country) = Ok centroid →
     inBox centroid cb
     ∧ (turf_booleanPointInPolygon centroid disk = Ok true →
        inBox centroid db))
  ∧ inBox center db
  ∧ (turf_booleanPointInPolygon center (geometry country) = Ok true →
     inBox center cb)
  ∧ (turf_booleanIntersects (geometry country) disk = Ok true →
     ∃ p, inBox p cb ∧ inBox p db).

End WithTurf.
End CoverageSpec.

(** ** Area aggregation: the success path *)

Module AreaSpec.
Section WithTurf.
Context `{Turf}.

(** Every union that [mergeCircles] attempts from [merged] through [rest]
    succeeds. *)
Fixpoint unionsSucceed (merged : Geom) (rest : list Geom) : Prop :=
  match rest with
  | [] => True
  | feature :: rest' =>
      ∃ u, turf_union merged feature = Ok u ∧ unionsSucceed u rest'
  end.

Definition allUnionsSucceed (features : list Geom) : Prop :=
  match features with
  | [] => True
  | first :: rest => unionsSucceed first rest
  end.

(** Square metres to square kilometres, as accumulated from zero. *)
Definition km2 (squareMetres : Qc) : Qc :=
  0 + squareMetres / Qc_of_Z 1000000.

(** Modelled from the spec: the geometry library is not part of the
    repository.  The specification has the union of disks avoid counting
    overlaps twice and not change when a disk lies within another; behind
    [turf.union] and [turf.area] there is then a set of points that each
    feature covers: a union that succeeds covers what either argument
    covers, the area is defined, not negative, and grows with the points
    covered. *)
Record AreaGeometry {Pt : Type} (covers : Geom → Pt → Prop)
    (areaOf : Geom → Qc) : Prop := mkAreaGeometry {
  turf_area_total : ∀ g, turf_area g = Ok (areaOf g);
  areaOf_nonneg : ∀ g, 0 ≤ areaOf g;
  areaOf_mono :
    ∀ a b, (∀ p, covers a p → covers b p) → areaOf a ≤ areaOf b;
  turf_union_covers :
    ∀ a b u, turf_union a b = Ok u →
      ∀ p, covers u p ↔ covers a p ∨ covers b p;
}.

End WithTurf.
End AreaSpec.

(** ** Visited countries: containment of a place *)

Module VisitedSpec.
Import GlobeCircles.
Section WithTurf.
Context `{Turf}.

(** A prepared country contains a place when the place's point passes the
    bounding-box check and lies within the country's polygon. *)
Definition containsPlace (c : CountryWithBbox) (place : Place) : Prop :=
  outsideBbox (lng place) (lat place) (bbox c) = false
  ∧ turf_booleanPointInPolygon (turf_point (lng place, lat place))
      (countryFeature c) = Ok true.

End WithTurf.
End VisitedSpec.

(** ** A small geometry provider

    A flat world tiled by unit cells, one degree wide and 100 km across.
    A shape is a list of cells together with the state of its ring:
    on a [Crossing] ring the intersection test and the union raise, on a
    [Malformed] one the point-in-polygon test raises as well.  It
    instantiates [Turf] for the examples and counterexamples below. *)

Module Toy.

Inductive Ring : Type := Sound | Crossing | Malformed.

Global Instance Ring_eq_dec : EqDecision Ring.
Proof. solve_decision. Defined.

Record Shape : Type := mkShape {
  cells : list (Z * Z);
  ring : Ring;
}.

Definition shape (l : list (Z * Z)) : Shape :=
  {| cells := l; ring := Sound |}.

Definition crossing (l : list (Z * Z)) : Shape :=
  {| cells := l; ring := Crossing |}.

Definition malformed (l : list (Z * Z)) : Shape :=
  {| cells := l; ring := Malformed |}.

Definition sound (s : Shape) : bool := bool_decide (ring s = Sound).

Definition cellOf (p : Point) : Z * Z := (Qfloor (this p.1), Qfloor (this p.2)).

Definition minimum (d : Z) (l : list Z) : Z := foldr Z.min d l.
Definition maximum (d : Z) (l : list Z) : Z := foldr Z.max d l.

Definition bbox (s : Shape) : Exc BBox :=
  match cells s with
  | [] => Throw "no coordinates"
  | (x, y) :: rest =>
      Ok {| minX := Qc_of_Z (minimum x (rest.*1));
            minY := Qc_of_Z (minimum y (rest.*2));
            maxX := Qc_of_Z (maximum x (rest.*1) + 1);
            maxY := Qc_of_Z (maximum y (rest.*2) + 1) |}
  end.

Definition centroid (s : Shape) : Exc Point :=
  b ← bbox s;
  Ok ((minX b + maxX b) / Qc_of_Z 2, (minY b + maxY b) / Qc_of_Z 2).

Definition booleanPointInPolygon (p : Point) (s : Shape) : Exc bool :=
  if bool_decide (ring s = Malformed) then Throw "malformed ring"
  else Ok (bool_decide (cellOf p ∈ cells s)).

Definition booleanIntersects (a b : Shape) : Exc bool :=
  if sound a && sound b
  then Ok (bool_decide (Exists (λ c, c ∈ cells b) (cells a)))
  else Throw "edges cross".

Definition dist1 (a b : Qc) : Qc := if decide (a ≤ b) then b - a else a - b.

Definition distance (p q : Point) : Exc Qc :=
  Ok (Qc_of_Z 100 * (dist1 p.1 q.1 + dist1 p.2 q.2)).

(** The block of cells within [radius / 100] cells of the centre's cell. *)
Definition circle (center : Point) (radius : Qc) (steps : nat) : Shape :=
  let k := Qfloor (this (radius / Qc_of_Z 100)) in
  let '(cx, cy) := cellOf center in
  shape (x ← seqZ (cx - k) (2 * k + 1);
         y ← seqZ (cy - k) (2 * k + 1);
         [(x, y)]).

Definition union (a b : Shape) : Exc Shape :=
  if sound a && sound b
  then Ok {| cells := cells a ++ cells b; ring := Sound |}
  else Throw "unable to complete output ring".

(** Every cell measures 10^10 square metres; a cell listed twice counts
    once. *)
Definition areaOf (s : Shape) : Qc :=
  Qc_of_Z (Z.of_nat (length (remove_dups (cells s))))
  * Qc_of_Z 10000000000.

Definition area (s : Shape) : Exc Qc := Ok (areaOf s).

End Toy.

Definition toy : Turf :=
  {| Geom := Toy.Shape;
     turf_bbox := Toy.bbox;
     turf_centroid := Toy.centroid;
     turf_booleanPointInPolygon := Toy.booleanPointInPolygon;
     turf_booleanIntersects := Toy.booleanIntersects;
     turf_distance := Toy.distance;
     turf_circle := Toy.circle;
     turf_union := Toy.union;
     turf_area := Toy.area |}.

(** ** Stand-ins for the JavaScript built-ins used by the geocoder *)

Module ToyJs.

Definition lowerAscii (c : ascii) : ascii :=
  let n := nat_of_ascii c in
  if bool_decide (65 ≤ n ≤ 90)%nat then ascii_of_nat (n + 32) else c.

Fixpoint toLowerCase (s : string) : string :=
  match s with
  | EmptyString => EmptyString
  | String c rest => String (lowerAscii c) (toLowerCase rest)
  end.

Definition paris : Geocoder.GeocodeResult :=
  Geocoder.mkGeocodeResult (Q2Qc (4886 # 100)) (Q2Qc (235 # 100))
    "Paris, France" None.

Definition parisMoved : Geocoder.GeocodeResult :=
  Geocoder.mkGeocodeResult (Q2Qc (4885 # 100)) (Q2Qc (234 # 100))
    "Paris, Ile-de-France" (Some "ChIJD7fiBh9u5kcR").

Definition rome : Geocoder.GeocodeResult :=
  Geocoder.mkGeocodeResult (Q2Qc (4190 # 100)) (Q2Qc (1249 # 100))
    "Rome, Italy" None.

(** A parser that knows one document. *)
Definition JSON_parse (text : string)
    : Exc (gmap string Geocoder.GeocodeResult) :=
  if bool_decide (text = "{paris}") then Ok {[ "paris" := parisMoved ]}
  else Throw "SyntaxError".

Definition JSON_stringify (m : gmap string Geocoder.GeocodeResult)
    : string := "{paris}".

Definition env : Geocoder.Env :=
  {| Geocoder.places := Some {[ "paris" := paris; "rome" := rome ]};
     Geocoder.localStorage := {[ Geocoder.GEOCODE_CACHE_KEY := "{paris}" ]} |}.

End ToyJs.

(** ** Sample inputs over the small provider *)

Module Samples.
Import GlobeCircles.

Definition placeAt (name : string) (x y : Q) : Place :=
  {| title := name; lat := Q2Qc y; lng := Q2Qc x;
     formattedAddress := name; geocoded := true |}.

(** Two places on the row of cells [y = 0]. *)
Definition west : Place := placeAt "West" (1 # 2) (1 # 2).
Definition east : Place := placeAt "East" (7 # 2) (1 # 2).
Definition far : Place := placeAt "Far" (41 # 2) (1 # 2).
(** A place 1.5 cells east of the centroid of [knot] below. *)
Definition near : Place := placeAt "Near" 4 (5 # 2).

Definition countryOf (s : Toy.Shape) (name : string) : @Country toy :=
  @mkCountry toy s
    (Some (mkCountryProps (Some name) None None None None)).

(** A country of two cells, [(0,0)] and [(5,0)]; its centroid is in the
    cell [(3,0)]. *)
Definition aland : @Country toy :=
  countryOf (Toy.shape [(0, 0); (5, 0)]%Z) "Aland".

(** The same outline with a malformed ring. *)
Definition broken : @Country toy :=
  countryOf (Toy.malformed [(0, 0); (5, 0)]%Z) "Broken".

(** A country whose ring crosses itself: two cells, [(2,1)] and [(2,3)],
    with the centroid in the cell [(2,2)]. *)
Definition knot : @Country toy :=
  countryOf (Toy.crossing [(2, 1); (2, 3)]%Z) "Knot".

Definition box (x0 y0 x1 y1 : Z) : BBox :=
  mkBBox (Qc_of_Z x0) (Qc_of_Z y0) (Qc_of_Z x1) (Qc_of_Z y1).

(** The bounding boxes of the disks around [west], [east] and [near], and
    of the countries [aland] and [knot]. *)
Definition westBox : BBox := box (-1) (-1) 2 2.
Definition eastBox : BBox := box 2 (-1) 5 2.
Definition nearBox : BBox := box 3 1 6 4.
Definition alandBox : BBox := box 0 0 6 1.
Definition knotBox : BBox := box 2 1 3 4.

(** The [circleBounds] of the places [west; east] and [east; west]. *)
Definition westEast : list (@Circle toy * BBox) :=
  [(@circleOfPlace toy west, westBox); (@circleOfPlace toy east, eastBox)].
Definition eastWest : list (@Circle toy * BBox) :=
  [(@circleOfPlace toy east, eastBox); (@circleOfPlace toy west, westBox)].

(** Three features for the area computation: [d0] is sound, [e] has a
    crossing ring and [inner] lies within [e]. *)
Definition d0 : Toy.Shape := Toy.shape [(0, 0); (1, 0)]%Z.
Definition e : Toy.Shape := Toy.crossing [(5, 0); (6, 0)]%Z.
Definition inner : Toy.Shape := Toy.shape [(5, 0)]%Z.

End Samples.

(** ** Stand-ins for the built-ins used by the CSV parser *)

Module ToyCsv.

(** [trim] on the white space below code 256: tab, line feed, vertical
    tab, form feed, carriage return, space and no-break space. *)
Definition isWhiteSpace (c : ascii) : bool :=
  bool_decide (nat_of_ascii c ∈ [9; 10; 11; 12; 13; 32; 160]%nat).

Fixpoint trimStart (s : string) : string :=
  match s with
  | EmptyString => EmptyString
  | String c rest => if isWhiteSpace c then trimStart rest else s
  end.

Fixpoint trimEnd (s : string) : string :=
  match s with
  | EmptyString => EmptyString
  | String c rest =>
      match trimEnd rest with
      | EmptyString =>
          if isWhiteSpace c then EmptyString else String c EmptyString
      | kept => String c kept
      end
  end.

Definition trim (s : string) : string := trimEnd (trimStart s).

(** A decoder that knows no escapes: it raises on a percent sign. *)
Definition decodeURIComponent (s : string) : Exc string :=
  if bool_decide ("%"%char ∈ CsvParser.chars s) then Throw "URIError"
  else Ok s.

(** A saved-places export of three rows. *)
Definition export : string :=
  "Titre,Note,URL
Louvre,museum,https://www.google.com/maps/place/Louvre+Museum/data=x
,,https://www.google.com/maps/search/48.85
 ,quoted,note
".

(** Two places, of which the geocode cache of [ToyJs.env] knows the
    first. *)
Definition trip : string :=
  "Titre,URL
Paris,
Oslo,
".

End ToyCsv.

(** ** A stand-in for the geocoding service *)

Module ToyNet.
Import GeocoderNet.

(** An encoder for strings without reserved characters. *)
Definition encodeURIComponent (s : string) : string := s.

Definition parisApi : ApiResult :=
  mkApiResult (Q2Qc (4885 # 100)) (Q2Qc (234 # 100))
    "Paris, Ile-de-France" (Some "ChIJD7fiBh9u5kcR").

(** A service that knows Paris only. *)
Definition fetch (w : World) (url : string) : Reply :=
  if CsvParser.includes url "address=Paris&" then Body "OK" [parisApi]
  else Body "ZERO_RESULTS" [].

(** No bundled data, an empty store, nothing sent yet. *)
Definition fresh : World :=
  {| env := Geocoder.mkEnv None ∅; requests := []; delays := [];
     progress := [] |}.

(** A place list in which the query of a place is the place itself. *)
Definition getSearchQuery (place : string) : Exc (option string) :=
  Ok (Some place).

End ToyNet.

(** ** Sample inputs for the click / drag scratch map *)

Module ScratchSamples.
Import GlobeScratch.

(** Two countries that carry none of the names. *)
Definition nameless (s : Toy.Shape) : @Country toy :=
  @mkCountry toy s (Some (mkCountryProps None None None None None)).
Definition islet : @Country toy := nameless (Toy.shape [(9, 9)]%Z).
Definition reef : @Country toy := nameless (Toy.shape [(7, 2)]%Z).

Definition idle : State :=
  {| scratchedCountries := ∅; isDragging := false |}.

Definition visitedAland : State :=
  {| scratchedCountries := {[ "Aland" ]}; isDragging := false |}.

(** A serialisation of lists of identifiers without commas. *)
Definition JSON_stringify (l : list string) : string := String.concat "," l.
Definition JSON_parse (text : string) : Exc (list string) :=
  Ok (CsvParser.split "," text).

End ScratchSamples.

(** * Properties *)

(** ** Country identifiers (Globe.jsx) *)

(** C8: [getCountryId] tries [name], [NAME], [ADMIN], [NAME_EN] in that
    order and returns the first non-empty one, else ['unknown']; a record
    whose only populated field is [NAME_EN] gets that field's value. *)
Theorem getCountryId_fallback_chain `{Turf} (g : Geom) (p : CountryProps) :
  GlobeScratch.getCountryId (mkCountry g (Some p))
  = Ok (CountryIdSpec.countryId p)
  ∧ ∀ v long,
      v ≠ EmptyString →
      GlobeScratch.getCountryId
        (mkCountry g (Some (mkCountryProps None None None (Some v) long)))
      = Ok v.
Proof.
  split.
  - unfold GlobeScratch.getCountryId, CountryIdSpec.countryId; simpl. f_equal.
    destruct p as [n1 n2 n3 n4 n5]; simpl.
    destruct n1 as [s1|]; destruct n2 as [s2|]; destruct n3 as [s3|];
      destruct n4 as [s4|]; unfold or_prop, or_str, truthy_str; simpl;
      repeat (case_bool_decide; simpl); congruence.
  - intros v long Hv. unfold GlobeScratch.getCountryId; simpl.
    unfold or_prop, or_str; simpl. by rewrite bool_decide_true.
Qed.

Lemma getCountryId_fallback_chain_witness :
  @GlobeScratch.getCountryId toy
    (@mkCountry toy (Toy.shape [(0, 0)%Z])
       (Some (mkCountryProps None None None (Some "Aland") None)))
  = Ok "Aland".
Proof.
  apply (proj2 (@getCountryId_fallback_chain toy (Toy.shape [(0, 0)%Z])
                  (mkCountryProps None None None (Some "Aland") None))).
  discriminate.
Defined.

(** ** The scratch set (Globe.jsx) *)

Section ScratchSet.
Context `{Turf}.
Import GlobeScratch.

Lemma scratch_grows countryId st :
  scratchedCountries st ⊆ scratchedCountries (scratch countryId st).
Proof. unfold scratch; simpl. set_solver. Qed.

Lemma handlePolygonClick_grows polygon st :
  scratchedCountries st ⊆ scratchedCountries (handlePolygonClick polygon st).
Proof.
  unfold handlePolygonClick.
  destruct polygon as [country|]; [|done].
  destruct (getCountryId country); [apply scratch_grows | done].
Qed.

Lemma handlePolygonHover_grows polygon st :
  scratchedCountries st ⊆ scratchedCountries (handlePolygonHover polygon st).
Proof.
  unfold handlePolygonHover.
  destruct polygon as [country|]; [|done].
  destruct (isDragging st); [|done].
  destruct (getCountryId country); [apply scratch_grows | done].
Qed.

Lemma step_grows st ev :
  scratchedCountries st ⊆ scratchedCountries (step st ev).
Proof.
  destruct ev; simpl; try done;
    auto using handlePolygonClick_grows, handlePolygonHover_grows.
Qed.

Lemma run_grows events : ∀ st,
  scratchedCountries st ⊆ scratchedCountries (run st events).
Proof.
  unfold run. induction events as [|ev events IH]; intros st; simpl.
  - done.
  - transitivity (scratchedCountries (step st ev));
      [apply step_grows | apply IH].
Qed.

Lemma step_adds_derived_id st ev countryId :
  countryId ∈ scratchedCountries (step st ev) →
  countryId ∈ scratchedCountries st
  ∨ ∃ country,
      (ev = PolygonClick (Some country) ∨ ev = PolygonHover (Some country))
      ∧ getCountryId country = Ok countryId.
Proof.
  destruct ev as [| | |polygon|polygon]; simpl; auto.
  - unfold handlePolygonHover.
    destruct polygon as [country|]; auto.
    destruct (isDragging st); auto.
    destruct (getCountryId country) as [cid|] eqn:Hid; auto.
    unfold scratch; simpl. rewrite elem_of_union, elem_of_singleton.
    intros [->|?]; eauto.
  - unfold handlePolygonClick.
    destruct polygon as [country|]; auto.
    destruct (getCountryId country) as [cid|] eqn:Hid; auto.
    unfold scratch; simpl. rewrite elem_of_union, elem_of_singleton.
    intros [->|?]; eauto.
Qed.

(** C10: the scratch set only grows under user interaction.  Across any
    sequence of events every identifier already scratched stays in the set,
    and a single event adds nothing but the identifier derived from the
    polygon that was clicked or hovered. *)
Theorem scratch_set_monotone (st : State) (events : list Event) :
  scratchedCountries st ⊆ scratchedCountries (run st events)
  ∧ ∀ ev countryId,
      countryId ∈ scratchedCountries (step st ev) →
      countryId ∈ scratchedCountries st
      ∨ ∃ country,
          (ev = PolygonClick (Some country)
           ∨ ev = PolygonHover (Some country))
          ∧ getCountryId country = Ok countryId.
Proof.
  split; [apply run_grows | apply step_adds_derived_id].
Qed.

End ScratchSet.

(** ** The geocode cache (geocoder.js) *)

Section GeocodeCache.
Import Geocoder.
Variable toLowerCase : string → string.
Variable JSON_parse : string → Exc (gmap string GeocodeResult).
Variable JSON_stringify : gmap string GeocodeResult → string.

Lemma getGeocodeCache_merge env :
  (getGeocodeCache JSON_parse env).1 = overlay JSON_parse env ∪ bundled env.
Proof.
  unfold getGeocodeCache, overlay, bundled.
  destruct (localStorage env !! GEOCODE_CACHE_KEY) as [localData|]; simpl.
  - case_bool_decide; simpl.
    + destruct (JSON_parse localData); simpl; [done|].
      by rewrite (left_id_L ∅ (∪)).
    + by rewrite (left_id_L ∅ (∪)).
  - by rewrite (left_id_L ∅ (∪)).
Qed.

(** C9: the effective cache is the bundled dataset merged with the
    overlay of the durable store and is read at the lower-cased query.
    For a key of the bundled dataset the lookup returns the overlay's
    value when the overlay has the key too, else the bundled value. *)
Theorem geocode_cache_overlay_precedence (env : Env) (query : string)
    (fromFile : GeocodeResult) :
  bundled env !! toLowerCase query = Some fromFile →
  (getGeocodeCache JSON_parse env).1 = overlay JSON_parse env ∪ bundled env
  ∧ getCachedResult toLowerCase JSON_parse env query
    = Some (default fromFile (overlay JSON_parse env !! toLowerCase query)).
Proof.
  intros Hfile. split; [apply getGeocodeCache_merge|].
  unfold getCachedResult. rewrite getGeocodeCache_merge.
  destruct (overlay JSON_parse env !! toLowerCase query) as [v|] eqn:Hov; simpl.
  - by apply lookup_union_Some_l.
  - rewrite lookup_union_r; done.
Qed.

(** The write path files a result under the lower-cased query. *)
Lemma cacheGeocodeResult_key env query result :
  localStorage (cacheGeocodeResult toLowerCase JSON_parse JSON_stringify
                  query result env) !! GEOCODE_CACHE_KEY
  = Some (JSON_stringify
            (<[toLowerCase query := result]>
               (overlay JSON_parse env ∪ bundled env))).
Proof.
  unfold cacheGeocodeResult.
  rewrite <- getGeocodeCache_merge.
  destruct (getGeocodeCache JSON_parse env) as [cache aliased]; simpl.
  by rewrite lookup_insert_eq.
Qed.

End GeocodeCache.

Lemma geocode_cache_overlay_precedence_witness :
  Geocoder.getCachedResult ToyJs.toLowerCase ToyJs.JSON_parse ToyJs.env "Paris"
  = Some ToyJs.parisMoved
  ∧ Geocoder.getCachedResult ToyJs.toLowerCase ToyJs.JSON_parse ToyJs.env "ROME"
    = Some ToyJs.rome.
Proof.
  split.
  - apply (geocode_cache_overlay_precedence ToyJs.toLowerCase
             ToyJs.JSON_parse ToyJs.env "Paris" ToyJs.paris).
    reflexivity.
  - apply (geocode_cache_overlay_precedence ToyJs.toLowerCase
             ToyJs.JSON_parse ToyJs.env "ROME" ToyJs.rome).
    reflexivity.
Defined.

(** ** Scans that stop at the first hit *)

Section FirstSplit.
Context {A : Type} (Skip Hit Q : A → Prop).

Lemma first_split_nil :
  ¬ ∃ pre x post, [] = pre ++ x :: post ∧ Forall Skip pre ∧ Hit x ∧ Q x.
Proof. intros (pre & x & post & Hl & _). by destruct pre. Qed.

Lemma first_split_skip c l :
  Skip c → ¬ Hit c →
  (∃ pre x post, c :: l = pre ++ x :: post ∧ Forall Skip pre ∧ Hit x ∧ Q x)
  ↔ (∃ pre x post, l = pre ++ x :: post ∧ Forall Skip pre ∧ Hit x ∧ Q x).
Proof.
  intros Hs Hn. split.
  - intros (pre & x & post & Hl & Hpre & Hx & Hq).
    destruct pre as [|c0 pre]; simplify_eq/=; [done|].
    apply Forall_cons in Hpre as [_ Hpre]. eauto 10.
  - intros (pre & x & post & -> & Hpre & Hx & Hq).
    exists (c :: pre), x, post. split_and!; try done. by constructor.
Qed.

Lemma first_split_hit c l :
  Hit c → ¬ Skip c →
  (∃ pre x post, c :: l = pre ++ x :: post ∧ Forall Skip pre ∧ Hit x ∧ Q x)
  ↔ Q c.
Proof.
  intros Hh Hn. split.
  - intros (pre & x & post & Hl & Hpre & Hx & Hq).
    destruct pre as [|c0 pre]; simplify_eq/=; [done|].
    by apply Forall_cons in Hpre as [? _].
  - intros Hq. exists [], c, l. by split_and!.
Qed.

End FirstSplit.

(** ** Visited countries *)

Section StringOrder.
Import GlobeCircles.

Lemma ascii_compare_N a b :
  Ascii.compare a b = N.compare (N_of_ascii a) (N_of_ascii b).
Proof. reflexivity. Qed.

Lemma string_compare_trans_le s1 : ∀ s2 s3,
  String.compare s1 s2 ≠ Gt → String.compare s2 s3 ≠ Gt →
  String.compare s1 s3 ≠ Gt.
Proof.
  induction s1 as [|c1 s1 IH]; intros [|c2 s2] [|c3 s3]; simpl;
    try congruence.
  rewrite !ascii_compare_N.
  destruct (N.compare_spec (N_of_ascii c1) (N_of_ascii c2)) as [E12|L12|G12];
    destruct (N.compare_spec (N_of_ascii c2) (N_of_ascii c3)) as [E23|L23|G23];
    try congruence; intros H12 H23.
  - rewrite E12, E23, N.compare_refl. by apply (IH s2).
  - rewrite E12. by apply N.compare_lt_iff in L23 as ->.
  - rewrite <- E23. by apply N.compare_lt_iff in L12 as ->.
  - assert (N_of_ascii c1 < N_of_ascii c3)%N as L13 by lia.
    by apply N.compare_lt_iff in L13 as ->.
Qed.

Global Instance String_le_trans : Transitive String_le.
Proof.
  intros s1 s2 s3. unfold String_le, String.leb. intros H12 H23.
  pose proof (string_compare_trans_le s1 s2 s3) as Ht.
  destruct (String.compare s1 s2); try discriminate;
    destruct (String.compare s2 s3); try discriminate;
    destruct (String.compare s1 s3); try done; exfalso; by apply Ht.
Qed.

Global Instance String_le_total : Total String_le.
Proof. intros s1 s2. apply String.leb_total. Qed.

Global Instance String_le_antisym : AntiSymm (=) String_le.
Proof. intros s1 s2. apply String.leb_antisym. Qed.

Lemma Array_sort_perm l : Array_sort l ≡ₚ l.
Proof. apply merge_sort_Permutation. Qed.

Lemma Array_sort_sorted l : StronglySorted String_le (Array_sort l).
Proof. apply (StronglySorted_merge_sort String_le). Qed.

Lemma elem_of_Set_add s x y : x ∈ Set_add s y ↔ x ∈ s ∨ x = y.
Proof.
  unfold Set_add. case_bool_decide.
  - split; [auto | intros [?| ->]; done].
  - rewrite elem_of_app, list_elem_of_singleton. done.
Qed.

Lemma NoDup_Set_add s y : NoDup s → NoDup (Set_add s y).
Proof.
  intros Hs. unfold Set_add. case_bool_decide; [done|].
  apply NoDup_app. split_and!; [done| |apply NoDup_singleton].
  intros x Hx ->%list_elem_of_singleton. done.
Qed.

End StringOrder.

Section Visited.
Context `{Turf}.
Import GlobeCircles VisitedSpec.

Lemma NoDup_visitPlace cs names place :
  NoDup names → NoDup (visitPlace cs names place).
Proof.
  intros Hn. unfold visitPlace.
  destruct (negb (usable place)); [done|].
  destruct (findCountry _ _ _ cs); [by apply NoDup_Set_add | done].
Qed.

Lemma NoDup_visited cs places : ∀ names,
  NoDup names → NoDup (foldl (visitPlace cs) names places).
Proof.
  induction places as [|place places IH]; intros names Hn; simpl; [done|].
  by apply IH, NoDup_visitPlace.
Qed.

(** C4: with no geocoded place the result is count 0 and an empty list;
    in general the list has no duplicates, is sorted (in the order of
    JavaScript's default sort, by character code) and [count] is its
    length. *)
Theorem visitedCountriesData_sorted_dedup (features : list Country)
    (geocodedPlaces : list Place) :
  visitedCountriesData features [] = {| count := 0; list_ := [] |}
  ∧ NoDup (list_ (visitedCountriesData features geocodedPlaces))
  ∧ StronglySorted String_le (list_ (visitedCountriesData features geocodedPlaces))
  ∧ count (visitedCountriesData features geocodedPlaces)
    = length (list_ (visitedCountriesData features geocodedPlaces)).
Proof.
  split.
  { unfold visitedCountriesData. simpl.
    by rewrite orb_true_r. }
  unfold visitedCountriesData.
  destruct (bool_decide (length features = 0%nat)
            || bool_decide (length geocodedPlaces = 0%nat)); simpl.
  - split_and!; [apply NoDup_nil_2 | constructor | done].
  - split_and!; [| apply Array_sort_sorted | done].
    rewrite Array_sort_perm. apply NoDup_visited, NoDup_nil_2.
Qed.

Lemma findCountry_first place cs name :
  findCountry (turf_point (lng place, lat place)) (lng place) (lat place) cs
  = Some name
  ↔ ∃ pre c post,
      cs = pre ++ c :: post
      ∧ Forall (λ c', ¬ containsPlace c' place) pre
      ∧ containsPlace c place
      ∧ countryName c = name.
Proof.
  induction cs as [|c cs IH]; simpl.
  - split; [done|]. intros Hex. by apply first_split_nil in Hex.
  - destruct (outsideBbox (lng place) (lat place) (bbox c)) eqn:Hout.
    { rewrite IH. symmetry. apply first_split_skip.
      - intros [Hc _]. congruence.
      - intros [Hc _]. congruence. }
    destruct (turf_booleanPointInPolygon _ (countryFeature c))
      as [[|]|e] eqn:Hpip.
    + rewrite first_split_hit; [|done|by intros Hn; apply Hn].
      split; congruence.
    + rewrite IH. symmetry. apply first_split_skip.
      * intros [_ Hc]. congruence.
      * intros [_ Hc]. congruence.
    + rewrite IH. symmetry. apply first_split_skip.
      * intros [_ Hc]. congruence.
      * intros [_ Hc]. congruence.
Qed.

Lemma elem_of_visited cs name places : ∀ names,
  name ∈ foldl (visitPlace cs) names places
  ↔ name ∈ names
    ∨ ∃ place, place ∈ places ∧ usable place = true
        ∧ findCountry (turf_point (lng place, lat place))
            (lng place) (lat place) cs = Some name.
Proof.
  induction places as [|place places IH]; intros names; simpl.
  - split; [auto|]. intros [?|(place & Hin & _)]; [done|].
    by apply elem_of_nil in Hin.
  - rewrite IH. unfold visitPlace at 1.
    destruct (usable place) eqn:Hu; simpl.
    + destruct (findCountry _ _ _ cs) as [found|] eqn:Hf.
      * rewrite elem_of_Set_add. split.
        -- intros [[?| ->]|(p & Hp & ?)]; auto.
           ++ right. exists place. split_and!; [left|done|done].
           ++ right. exists p. split_and!; [by right|tauto|tauto].
        -- intros [?|(p & Hp & Hup & Hfp)]; auto.
           apply elem_of_cons in Hp as [->|Hp].
           ++ left. right. congruence.
           ++ right. eauto.
      * split.
        -- intros [?|(p & Hp & ?)]; auto.
           right. exists p. split_and!; [by right|tauto|tauto].
        -- intros [?|(p & Hp & Hup & Hfp)]; auto.
           apply elem_of_cons in Hp as [->|Hp]; [congruence|].
           right. eauto.
    + split.
      * intros [?|(p & Hp & ?)]; auto.
        right. exists p. split_and!; [by right|tauto|tauto].
      * intros [?|(p & Hp & Hup & Hfp)]; auto.
        apply elem_of_cons in Hp as [->|Hp]; [congruence|].
        right. eauto.
Qed.

(** Every prepared country is a country of the source with its own
    polygon and bounding box. *)
Lemma countriesWithBbox_origin features c :
  c ∈ countriesWithBbox features →
  cwb_country c ∈ features
  ∧ countryFeature c = geometry (cwb_country c)
  ∧ turf_bbox (geometry (cwb_country c)) = Ok (bbox c)
  ∧ countryName c ≠ EmptyString.
Proof.
  unfold countriesWithBbox.
  rewrite list_elem_of_filter, list_elem_of_omap.
  intros [Hname (country & Hin & Hc)].
  unfold withBbox, turf_feature in Hc.
  destruct (turf_bbox (geometry country)) as [b|] eqn:Hb; [|done].
  by simplify_eq/=.
Qed.

(** C3: a name is in the result exactly when some usable place's own point
    (not its disk) passes the bounding-box check and lies within the
    polygon of a country of that name, that country being the first one in
    the scan to contain the point (the scan stops there); and every
    scanned entry carries the polygon and the bounding box of a country of
    the source. *)
Theorem visitedCountriesData_point_in_polygon (features : list Country)
    (geocodedPlaces : list Place) (name : string) :
  (name ∈ list_ (visitedCountriesData features geocodedPlaces)
   ↔ ∃ place pre c post,
       place ∈ geocodedPlaces ∧ usable place = true
       ∧ countriesWithBbox features = pre ++ c :: post
       ∧ Forall (λ c', ¬ containsPlace c' place) pre
       ∧ containsPlace c place
       ∧ countryName c = name)
  ∧ ∀ c, c ∈ countriesWithBbox features →
      cwb_country c ∈ features
      ∧ countryFeature c = geometry (cwb_country c)
      ∧ turf_bbox (geometry (cwb_country c)) = Ok (bbox c)
      ∧ countryName c ≠ EmptyString.
Proof.
  split; [|apply countriesWithBbox_origin].
  unfold visitedCountriesData.
  destruct (bool_decide (length features = 0%nat)
            || bool_decide (length geocodedPlaces = 0%nat)) eqn:Hempty; simpl.
  - split; [by intros ?%elem_of_nil|].
    intros (place & pre & c & post & Hin & _ & Hcs & _).
    apply orb_true_iff in Hempty as [He|He]; apply bool_decide_eq_true in He.
    + destruct features; [|done]. by destruct pre.
    + destruct geocodedPlaces; [|done]. by apply elem_of_nil in Hin.
  - rewrite Array_sort_perm, elem_of_visited. split.
    + intros [?%elem_of_nil|(place & Hin & Hu & Hf)]; [done|].
      apply findCountry_first in Hf as (pre & c & post & ?).
      exists place, pre, c, post. tauto.
    + intros (place & pre & c & post & Hin & Hu & Hcs & Hrest).
      right. exists place. split_and!; [done..|].
      apply findCountry_first. exists pre, c, post. tauto.
Qed.

End Visited.

(** The fixtures of the specification: one place inside "Aland", and a
    second place in the same country. *)
Example visitedCountriesData_aland :
  @GlobeCircles.visitedCountriesData toy [Samples.aland] [Samples.west]
  = GlobeCircles.mkVisited 1 ["Aland"]
  ∧ @GlobeCircles.visitedCountriesData toy
      [Samples.knot; Samples.aland] [Samples.west; Samples.far; Samples.west]
    = GlobeCircles.mkVisited 1 ["Aland"].
Proof. split; by vm_compute. Qed.

(** The order of the sort is by character code: capitals come before
    small letters. *)
Example Array_sort_by_code :
  GlobeCircles.Array_sort ["eSwatini"; "Zimbabwe"; "Aland"; "Albania"]
  = ["Aland"; "Albania"; "Zimbabwe"; "eSwatini"].
Proof. reflexivity. Qed.

(** ** The disk-coverage matcher *)

Section Matcher.
Context `{Turf}.
Import GlobeCircles CoverageSpec.

Local Ltac exc_simpl :=
  repeat (simpl in *; unfold mbind, mret, Exc_bind, Exc_ret in * ).

Lemma bboxReject_overlap cb db :
  bboxReject cb db = false ↔ boxesOverlap cb db.
Proof.
  unfold bboxReject, boxesOverlap.
  rewrite !orb_false_iff, !bool_decide_eq_false, <- !Qcle_ngt. tauto.
Qed.

Lemma bboxReject_common_point p cb db :
  inBox p cb → inBox p db → bboxReject cb db = false.
Proof.
  intros [[Hx1 Hx2] [Hy1 Hy2]] [[Hx3 Hx4] [Hy3 Hy4]].
  apply bboxReject_overlap. repeat split; by etransitivity.
Qed.

Lemma checkCircle_verdict country place cb db :
  turf_bbox (geometry country) = Ok cb →
  turf_bbox (circle_geom (circleOfPlace place)) = Ok db →
  verdictOf (checkCircle (geometry country) cb (circleOfPlace place, db))
  = diskVerdict country (coverageDisk place).
Proof.
  intros Hcb Hdb. unfold diskVerdict, checkCircle, turf_point; exc_simpl.
  rewrite Hcb, Hdb.
  destruct (bboxReject cb db) eqn:Hrej.
  { rewrite decide_False; [done|].
    rewrite <- bboxReject_overlap. congruence. }
  rewrite decide_True by by apply bboxReject_overlap.
  destruct (turf_centroid (geometry country)) as [centroid|]; [|done].
  destruct (turf_booleanPointInPolygon centroid _) as [[|]|]; [done| |done].
  destruct (turf_booleanPointInPolygon _ (geometry country)) as [[|]|];
    [done| |done].
  destruct (turf_booleanIntersects _ _) as [[|]|]; simpl; [done|done|].
  destruct (turf_distance centroid _) as [distance|]; simpl; [|done].
  rewrite (Qcmult_comm RADIUS_KM).
  by case_bool_decide; [rewrite decide_True | rewrite decide_False].
Qed.

Lemma circleBounds_Ok places : ∀ bounds,
  circleBounds (map circleOfPlace places) = Ok bounds →
  Forall2 (λ place entry,
             entry.1 = circleOfPlace place
             ∧ turf_bbox (circle_geom (circleOfPlace place)) = Ok entry.2)
    places bounds.
Proof.
  unfold circleBounds.
  induction places as [|place places IH]; intros bounds.
  - intros [= <-]. constructor.
  - cbn [map mapM]. unfold mbind at 1 2, Exc_bind.
    destruct (turf_bbox (circle_geom (circleOfPlace place))) as [b|] eqn:Hb;
      [|done].
    unfold mbind at 1, Exc_bind.
    destruct (mapM _ (map circleOfPlace places)) as [rest|] eqn:Hrest;
      [|done].
    intros [= <-]. constructor; [done|]. by apply IH.
Qed.

Lemma circleBounds_nil : circleBounds [] = Ok [].
Proof. reflexivity. Qed.

Lemma circleBounds_cons circle circles b bounds :
  turf_bbox (circle_geom circle) = Ok b →
  circleBounds circles = Ok bounds →
  circleBounds (circle :: circles) = Ok ((circle, b) :: bounds).
Proof.
  unfold circleBounds. intros Hb Hbounds. cbn [mapM].
  rewrite Hbounds. unfold mbind at 1 2, Exc_bind. by rewrite Hb.
Qed.

Lemma scanCircles_verdict country cb places bounds :
  turf_bbox (geometry country) = Ok cb →
  Forall2 (λ place entry,
             entry.1 = circleOfPlace place
             ∧ turf_bbox (circle_geom (circleOfPlace place)) = Ok entry.2)
    places bounds →
  verdictOf (scanCircles (geometry country) cb bounds)
  = scanVerdict country (map coverageDisk places).
Proof.
  intros Hcb. induction 1 as [|place [circle db] places bounds [Hc Hdb] _ IH];
    [done|]. simpl in Hc. subst circle. cbn [map scanVerdict scanCircles].
  rewrite <- (checkCircle_verdict country place cb db) by done.
  unfold mbind, Exc_bind.
  destruct (checkCircle _ _ _) as [[|]|]; simpl; done.
Qed.

(** The matcher built from the places answers as the scan of the
    specification does, a failure counting as not covered. *)
Lemma isCountryScratched_scan geocodedPlaces f country :
  isCountryScratched (scratchedCircles geocodedPlaces) = Ok f →
  f country
  = Ok (bool_decide
          (scanVerdict country (coverageDisks geocodedPlaces) = Covered)).
Proof.
  unfold isCountryScratched, scratchedCircles, coverageDisks.
  set (places := filter _ geocodedPlaces).
  case_bool_decide as Hlen.
  - intros [= <-]. rewrite length_map in Hlen.
    apply nil_length_inv in Hlen as ->. done.
  - destruct (circleBounds _) as [bounds|] eqn:Hbounds; simpl; [|done].
    intros [= <-]. apply circleBounds_Ok in Hbounds.
    unfold matchCountry, matchBody, turf_feature.
    destruct (turf_bbox (geometry country)) as [cb|] eqn:Hcb; simpl.
    + pose proof (scanCircles_verdict country cb places bounds Hcb Hbounds)
        as Hscan.
      destruct (scanCircles _ _ _) as [[|]|]; simpl in *; rewrite <- Hscan;
        done.
    + destruct places as [|place places]; [done|]. simpl.
      unfold diskVerdict. by rewrite Hcb.
Qed.

Lemma scanVerdict_first country v disks :
  v ≠ NotCovered →
  scanVerdict country disks = v
  ↔ ∃ pre d post,
      disks = pre ++ d :: post
      ∧ Forall (λ d', diskVerdict country d' = NotCovered) pre
      ∧ diskVerdict country d = v.
Proof.
  intros Hv.
  transitivity (∃ pre d post,
      disks = pre ++ d :: post
      ∧ Forall (λ d', diskVerdict country d' = NotCovered) pre
      ∧ diskVerdict country d ≠ NotCovered
      ∧ diskVerdict country d = v).
  2:{ split; intros (pre & d & post & Hd & Hpre & Hrest);
        exists pre, d, post; split_and!; try tauto; try congruence. }
  induction disks as [|d disks IH]; simpl.
  - split; [congruence|]. intros Hex. by apply first_split_nil in Hex.
  - destruct (diskVerdict country d) eqn:Hd.
    + rewrite first_split_hit; [|congruence..]. by rewrite Hd.
    + rewrite IH. symmetry. apply first_split_skip; [done|]. by intros [].
    + rewrite first_split_hit; [|congruence..]. by rewrite Hd.
Qed.

Lemma scanVerdict_exhausted country disks :
  scanVerdict country disks = NotCovered
  ↔ Forall (λ d, diskVerdict country d = NotCovered) disks.
Proof.
  induction disks as [|d disks IH]; simpl.
  - split; [constructor|done].
  - rewrite Forall_cons. destruct (diskVerdict country d); [| |].
    + split; [done|]. by intros [? _].
    + rewrite IH. tauto.
    + split; [done|]. by intros [? _].
Qed.

(** C1 (amended): for every disk in order the matcher skips the pair when
    the boxes do not overlap, else reports covered when the centroid lies
    in the disk, else when the disk's centre lies in the country, else
    when the polygons intersect, a raising intersection test being
    replaced by "distance at most 1.5 times the disk radius" (the tiers
    are [diskVerdict]).  It answers [true] exactly when some disk covers
    the country and every disk before it does not, and [false] exactly
    when the whole collection is exhausted without a match or when the
    first disk that is not a plain miss makes another primitive raise. *)
Theorem isCountryScratched_tiered (geocodedPlaces : list Place)
    (f : Country → Exc bool) (country : Country) :
  isCountryScratched (scratchedCircles geocodedPlaces) = Ok f →
  let disks := coverageDisks geocodedPlaces in
  (f country = Ok true
   ↔ ∃ pre d post,
       disks = pre ++ d :: post
       ∧ Forall (λ d', diskVerdict country d' = NotCovered) pre
       ∧ diskVerdict country d = Covered)
  ∧ (f country = Ok false
     ↔ Forall (λ d, diskVerdict country d = NotCovered) disks
       ∨ ∃ pre d post,
           disks = pre ++ d :: post
           ∧ Forall (λ d', diskVerdict country d' = NotCovered) pre
           ∧ diskVerdict country d = Failed).
Proof.
  intros Hf disks. rewrite (isCountryScratched_scan _ _ _ Hf). fold disks.
  rewrite <- scanVerdict_exhausted, <- !scanVerdict_first by done.
  destruct (scanVerdict country disks); split; split;
    try done; try (by intros [= ?%bool_decide_eq_true]);
    try (by intros [?|?]); auto.
Qed.

(** C6: the matcher never raises.  Built from any places, it answers a
    boolean for every country; a pair on which the intersection test
    raises is decided by the distance fallback; and when any other
    primitive raises the country is reported as not covered. *)
Theorem isCountryScratched_never_raises (geocodedPlaces : list Place)
    (f : Country → Exc bool) (country : Country) :
  isCountryScratched (scratchedCircles geocodedPlaces) = Ok f →
  (∃ b, f country = Ok b)
  ∧ (∀ place cb db centroid e distance,
       bboxReject cb db = false →
       turf_centroid (geometry country) = Ok centroid →
       turf_booleanPointInPolygon centroid (circle_geom (circleOfPlace place))
       = Ok false →
       turf_booleanPointInPolygon (turf_point (lng place, lat place))
         (geometry country) = Ok false →
       turf_booleanIntersects (geometry country)
         (circle_geom (circleOfPlace place)) = Throw e →
       turf_distance centroid (turf_point (lng place, lat place))
       = Ok distance →
       checkCircle (geometry country) cb (circleOfPlace place, db)
       = Ok (bool_decide (distance ≤ RADIUS_KM * Q2Qc (3 # 2))))
  ∧ (scanVerdict country (coverageDisks geocodedPlaces) = Failed →
     f country = Ok false)
  ∧ (∀ bounds e, matchBody bounds country = Throw e →
       matchCountry bounds country = Ok false).
Proof.
  intros Hf. rewrite (isCountryScratched_scan _ _ _ Hf). split_and!.
  - eauto.
  - intros place cb db centroid e distance Hrej Hcen Hin1 Hin2 Hint Hdist.
    unfold checkCircle. rewrite Hrej, Hcen. unfold mbind at 1, Exc_bind.
    rewrite Hin1. unfold mbind at 1, Exc_bind. cbn [circle_properties
      circleOfPlace props_lng props_lat]. rewrite Hin2.
    unfold mbind at 1, Exc_bind. rewrite Hint. cbn [try_catch].
    by rewrite Hdist.
  - by intros ->.
  - intros bounds e Hbody. unfold matchCountry. by rewrite Hbody.
Qed.

(** C5: the bounding-box check never rejects a pair that the full
    geometric test (centroid in disk, centre in country, or intersecting
    polygons) accepts: the two boxes then overlap on both axes and the
    pair is not skipped.  The boxes are taken to enclose what they bound,
    [boxesEnclose]. *)
Theorem bbox_prefilter_no_false_negative (country : Country) (place : Place)
    (cb db : BBox) :
  turf_bbox (turf_feature (geometry country)) = Ok cb →
  turf_bbox (circle_geom (circleOfPlace place)) = Ok db →
  boxesEnclose country place cb db →
  fullTest country place →
  bboxReject cb db = false ∧ boxesOverlap cb db.
Proof.
  intros _ _ (Hcentroid & Hcenter & Hcountry & Hint) Hfull.
  cut (bboxReject cb db = false).
  { intros Hrej. split; [done|]. by apply bboxReject_overlap. }
  destruct Hfull as [(centroid & Hc & Hin)|[Hin|Hin]].
  - destruct (Hcentroid centroid Hc) as [Hcb' Hdb'].
    apply (bboxReject_common_point centroid); auto.
  - apply (bboxReject_common_point (lng place, lat place)); auto.
  - destruct (Hint Hin) as (p & ? & ?).
    by apply (bboxReject_common_point p).
Qed.

End Matcher.

(** *** The matcher on the sample inputs *)

Ltac by_compute :=
  vm_compute;
  repeat first [reflexivity | apply Qc_is_canon; reflexivity | f_equal].

Section MatcherExamples.
Import GlobeCircles CoverageSpec Samples.

Lemma matcher_built (places : list Place) (bounds : list (Circle * BBox)) :
  places ≠ [] →
  @circleBounds toy (map circleOfPlace places) = Ok bounds →
  filter (λ place, Is_true (usable place)) places = places →
  @isCountryScratched toy (scratchedCircles places)
  = Ok (matchCountry bounds).
Proof.
  intros Hne Hbounds Husable. unfold isCountryScratched, scratchedCircles.
  rewrite Husable, Hbounds. rewrite bool_decide_false; [done|].
  rewrite length_map. by destruct places.
Qed.

Lemma matcher_westEast :
  @isCountryScratched toy (scratchedCircles [west; east])
  = Ok (matchCountry westEast).
Proof.
  apply matcher_built; [done | | by vm_compute].
  repeat (apply (@circleBounds_cons toy); [by vm_compute|]).
  apply (@circleBounds_nil toy).
Qed.

Lemma matcher_eastWest :
  @isCountryScratched toy (scratchedCircles [east; west])
  = Ok (matchCountry eastWest).
Proof.
  apply matcher_built; [done | | by vm_compute].
  repeat (apply (@circleBounds_cons toy); [by vm_compute|]).
  apply (@circleBounds_nil toy).
Qed.

Lemma isCountryScratched_tiered_witness :
  @isCountryScratched toy (scratchedCircles [west; east])
  = Ok (matchCountry westEast)
  ∧ (matchCountry westEast aland = Ok true
     ↔ ∃ pre d post,
         coverageDisks [west; east] = pre ++ d :: post
         ∧ Forall (λ d', diskVerdict aland d' = NotCovered) pre
         ∧ diskVerdict aland d = Covered).
Proof.
  split; [exact matcher_westEast|].
  exact (proj1 (@isCountryScratched_tiered toy [west; east] _ aland
                  matcher_westEast)).
Defined.

(** C1 as first worded has the matcher report "not covered" only after
    exhausting the collection.  On [broken] the point-in-polygon test
    raises at the first disk and the matcher answers [false] at once,
    although the second disk covers the country by the centroid tier;
    with the disks in the other order it answers [true]. *)
Lemma isCountryScratched_tiered_counterexample :
  @isCountryScratched toy (scratchedCircles [west; east])
  = Ok (matchCountry westEast)
  ∧ matchCountry westEast broken = Ok false
  ∧ diskVerdict broken (coverageDisk east) = Covered
  ∧ ¬ Forall (λ d, diskVerdict broken d = NotCovered)
        (coverageDisks [west; east])
  ∧ @isCountryScratched toy (scratchedCircles [east; west])
    = Ok (matchCountry eastWest)
  ∧ matchCountry eastWest broken = Ok true.
Proof.
  split; [exact matcher_westEast|]. split; [by vm_compute|].
  split; [by vm_compute|]. split.
  - intros Hall. apply Forall_cons in Hall as [Hwest _].
    by vm_compute in Hwest.
  - split; [exact matcher_eastWest | by vm_compute].
Qed.

Lemma isCountryScratched_never_raises_witness :
  (∃ b, matchCountry westEast broken = Ok b)
  ∧ checkCircle (geometry knot) knotBox (circleOfPlace near, nearBox)
    = Ok (bool_decide (Qc_of_Z 150 ≤ RADIUS_KM * Q2Qc (3 # 2))).
Proof.
  pose proof (@isCountryScratched_never_raises toy [west; east] _ broken
                matcher_westEast) as (Hb & _).
  split; [exact Hb|].
  pose proof (@isCountryScratched_never_raises toy [west; east] _ knot
                matcher_westEast) as (_ & Hfallback & _).
  apply (Hfallback near knotBox nearBox (Q2Qc (5 # 2), Q2Qc (5 # 2))
           "edges cross" (Qc_of_Z 150)); by_compute.
Defined.

Lemma bbox_prefilter_no_false_negative_witness :
  bboxReject alandBox eastBox = false ∧ boxesOverlap alandBox eastBox.
Proof.
  apply (@bbox_prefilter_no_false_negative toy aland east).
  - by vm_compute.
  - by vm_compute.
  - split_and!.
    + intros centroid [= <-]. split.
      * apply (bool_decide_unpack _). by vm_compute.
      * intros _. apply (bool_decide_unpack _). by vm_compute.
    + apply (bool_decide_unpack _). by vm_compute.
    + intros Hin. by vm_compute in Hin.
    + intros _. exists (Q2Qc 3, Q2Qc (1 # 2)).
      split; apply (bool_decide_unpack _); by vm_compute.
  - left. eexists. split; [reflexivity|]. by vm_compute.
Defined.

End MatcherExamples.

(** ** Area aggregation (radiusCalculator.js) *)

Section Area.
Context `{Turf}.
Import RadiusCalculator AreaSpec.

Lemma mergeCircles_cons first rest :
  mergeCircles (first :: rest) = [foldl mergeStep first rest].
Proof. by destruct rest. Qed.

Lemma calculateTotalArea_cons first rest :
  calculateTotalArea (first :: rest)
  = try_catch
      (a ← turf_area (foldl mergeStep first rest); Ok (km2 a))
      (λ _, Ok (Qc_of_Z (Z.of_nat (length (first :: rest)))
                * Math_PI * RADIUS_KM * RADIUS_KM)).
Proof.
  unfold calculateTotalArea. rewrite mergeCircles_cons.
  cbn [sumAreas]. unfold mbind, Exc_bind.
  by destruct (turf_area _).
Qed.

(** C2 (what the code does): when the union of the first feature with the
    second raises, [mergeCircles] returns the first feature alone and the
    total is the area of that feature; the second feature contributes
    nothing. *)
Theorem calculateTotalArea_drops_failed_union (first second : Geom)
    (e : string) (a1 a2 : Qc) :
  turf_union first second = Throw e →
  turf_area first = Ok a1 →
  turf_area second = Ok a2 →
  mergeCircles [first; second] = [first]
  ∧ calculateTotalArea [first; second] = Ok (a1 / Qc_of_Z 1000000).
Proof.
  intros Hu Ha1 Ha2. split.
  - unfold mergeCircles; simpl. unfold mergeStep. by rewrite Hu.
  - rewrite calculateTotalArea_cons; simpl. unfold mergeStep.
    rewrite Hu, Ha1; simpl. unfold km2. by rewrite Qcplus_0_l.
Qed.

End Area.

Section AreaLaws.
Context `{Turf}.
Import RadiusCalculator AreaSpec.

Context {Pt : Type} (covers : Geom → Pt → Prop) (areaOf : Geom → Qc).
Context (geometry_laws : AreaGeometry covers areaOf).

Lemma km2_mono a b : a ≤ b → km2 a ≤ km2 b.
Proof.
  intros Hab. unfold km2. rewrite !Qcplus_0_l.
  apply Qcmult_le_compat_r; [done|]. by vm_compute.
Qed.

Lemma km2_nonneg a : 0 ≤ a → 0 ≤ km2 a.
Proof.
  intros Ha. apply (km2_mono 0 a) in Ha. etransitivity; [|exact Ha].
  by vm_compute.
Qed.

Lemma total_cons first rest :
  calculateTotalArea (first :: rest)
  = Ok (km2 (areaOf (foldl mergeStep first rest))).
Proof.
  rewrite calculateTotalArea_cons.
  by rewrite (turf_area_total _ _ geometry_laws).
Qed.

Lemma mergeStep_covers merged feature p :
  covers merged p → covers (mergeStep merged feature) p.
Proof.
  unfold mergeStep.
  destruct (turf_union merged feature) as [u|] eqn:Hu; [|done].
  intros Hp. apply (turf_union_covers _ _ geometry_laws _ _ _ Hu). by left.
Qed.

Lemma mergeStep_area merged feature :
  areaOf merged ≤ areaOf (mergeStep merged feature).
Proof.
  apply (areaOf_mono _ _ geometry_laws). intros p. apply mergeStep_covers.
Qed.

Lemma merged_covers rest : ∀ first,
  unionsSucceed first rest →
  ∀ e, e ∈ first :: rest →
  ∀ p, covers e p → covers (foldl mergeStep first rest) p.
Proof.
  induction rest as [|feature rest IH]; intros first Hok e He p Hp; simpl.
  - apply list_elem_of_singleton in He as ->. done.
  - destruct Hok as (u & Hu & Hok). unfold mergeStep at 2. rewrite Hu.
    apply elem_of_cons in He as [->|He].
    + apply (IH u Hok u); [by left|].
      apply (turf_union_covers _ _ geometry_laws _ _ _ Hu). by left.
    + apply elem_of_cons in He as [->|He].
      * apply (IH u Hok u); [by left|].
        apply (turf_union_covers _ _ geometry_laws _ _ _ Hu). by right.
      * apply (IH u Hok e); [by right|done].
Qed.

Lemma mergeStep_absorbs merged feature :
  (∀ p, covers feature p → covers merged p) →
  areaOf (mergeStep merged feature) = areaOf merged.
Proof.
  intros Hin. apply Qcle_antisym; [|apply mergeStep_area].
  apply (areaOf_mono _ _ geometry_laws). intros p. unfold mergeStep.
  destruct (turf_union merged feature) as [u|] eqn:Hu; [|done].
  intros [?|?]%(turf_union_covers _ _ geometry_laws _ _ _ Hu); auto.
Qed.

(** C7 (amended): appending a disk never decreases the total, and
    appending a disk that lies within a disk of the collection leaves the
    total unchanged when every union over the collection succeeded.  The
    geometry behind the primitives is [AreaGeometry]. *)
Theorem calculateTotalArea_monotone (features : list Geom) (d : Geom) :
  ∃ before after,
    calculateTotalArea features = Ok before
    ∧ calculateTotalArea (features ++ [d]) = Ok after
    ∧ before ≤ after
    ∧ (∀ e, e ∈ features →
         (∀ p, covers d p → covers e p) →
         allUnionsSucceed features →
         after = before).
Proof.
  destruct features as [|first rest].
  - exists 0, (km2 (areaOf d)). split_and!.
    + done.
    + apply (total_cons d []).
    + apply km2_nonneg, (areaOf_nonneg _ _ geometry_laws).
    + by intros e ?%elem_of_nil.
  - exists (km2 (areaOf (foldl mergeStep first rest))),
      (km2 (areaOf (mergeStep (foldl mergeStep first rest) d))).
    split_and!.
    + apply total_cons.
    + change ((first :: rest) ++ [d]) with (first :: (rest ++ [d])).
      by rewrite total_cons, foldl_app.
    + apply km2_mono, mergeStep_area.
    + intros e He Hin Hok. f_equal. apply mergeStep_absorbs.
      intros p Hp. by apply (merged_covers rest first Hok e He), Hin.
Qed.

End AreaLaws.

Section AreaExamples.
Import RadiusCalculator AreaSpec Samples.

(** C7 as first worded leaves the total unchanged by a disk that lies
    within a disk of the collection.  The union of [d0] with [e] raises,
    so [e] is not part of the merged polygon; [inner], which lies within
    [e], is then merged on its own and the total grows from 20000 to
    30000 square kilometres. *)
Lemma calculateTotalArea_monotone_counterexample :
  (∀ p, p ∈ Toy.cells inner → p ∈ Toy.cells e)
  ∧ e ∈ [d0; e]
  ∧ @calculateTotalArea toy [d0; e] = Ok (km2 (Qc_of_Z 20000000000))
  ∧ @calculateTotalArea toy ([d0; e] ++ [inner])
    = Ok (km2 (Qc_of_Z 30000000000))
  ∧ km2 (Qc_of_Z 20000000000) ≠ km2 (Qc_of_Z 30000000000).
Proof.
  split_and!.
  - intros p. unfold inner, e; simpl.
    rewrite !list_elem_of_singleton. intros ->. by left.
  - by right; left.
  - by vm_compute.
  - by vm_compute.
  - by vm_compute.
Qed.

Lemma calculateTotalArea_drops_failed_union_witness :
  @mergeCircles toy [d0; e] = [d0]
  ∧ @calculateTotalArea toy [d0; e]
    = Ok (Qc_of_Z 20000000000 / Qc_of_Z 1000000).
Proof.
  apply (@calculateTotalArea_drops_failed_union toy d0 e
           "unable to complete output ring" (Qc_of_Z 20000000000)
           (Qc_of_Z 20000000000)); by_compute.
Defined.

Lemma calculateTotalArea_monotone_witness :
  ∃ before after,
    @calculateTotalArea toy [d0; inner] = Ok before
    ∧ @calculateTotalArea toy ([d0; inner] ++ [inner]) = Ok after
    ∧ before ≤ after
    ∧ (∀ s, s ∈ [d0; inner] →
         (∀ p, p ∈ Toy.cells inner → p ∈ Toy.cells s) →
         @allUnionsSucceed toy [d0; inner] →
         after = before).
Proof.
  apply (@calculateTotalArea_monotone toy (Z * Z)
           (λ s p, p ∈ Toy.cells s) Toy.areaOf).
  split.
  - reflexivity.
  - intros s. unfold Toy.areaOf.
    rewrite <- Z2Qc_inj_mul, <- Z2Qc_inj_0. apply (proj1 (Z2Qc_inj_le _ _)).
    apply Z.mul_nonneg_nonneg; lia.
  - intros a b Hab. unfold Toy.areaOf.
    rewrite <- !Z2Qc_inj_mul. apply (proj1 (Z2Qc_inj_le _ _)).
    assert (length (remove_dups (Toy.cells a))
            ≤ length (remove_dups (Toy.cells b)))%nat.
    { apply submseteq_length, NoDup_submseteq; [apply NoDup_remove_dups|].
      intros p. rewrite !elem_of_remove_dups. apply Hab. }
    apply Z.mul_le_mono_nonneg_r; lia.
  - intros a b u. simpl. unfold Toy.union.
    destruct (Toy.sound a && Toy.sound b); [|done].
    intros [= <-] p. simpl. apply elem_of_app.
Defined.

End AreaExamples.

(** * Further properties *)

(** ** The CSV parser *)

Section StringFacts.

Lemma string_app_cons c (s t : string) :
  String.append (String c s) t = String c (String.append s t).
Proof. reflexivity. Qed.

Lemma string_app_nil_l (t : string) : String.append EmptyString t = t.
Proof. reflexivity. Qed.

Lemma string_app_nil_r (s : string) : String.append s EmptyString = s.
Proof.
  induction s as [|c s IH]; [done|]. by rewrite string_app_cons, IH.
Qed.

Lemma string_app_assoc (s1 s2 s3 : string) :
  String.append (String.append s1 s2) s3
  = String.append s1 (String.append s2 s3).
Proof.
  induction s1 as [|c s1 IH]; [done|]. by rewrite !string_app_cons, IH.
Qed.

Lemma concat_cons2 sep (v v' : string) (vs : list string) :
  String.concat sep (v :: v' :: vs)
  = String.append v (String.append sep (String.concat sep (v' :: vs))).
Proof. reflexivity. Qed.

Lemma concat_snoc_app sep (vs : list string) x y :
  String.concat sep (vs ++ [String.append x y])
  = String.append (String.concat sep (vs ++ [x])) y.
Proof.
  induction vs as [|v vs IH]; [done|].
  destruct vs as [|v' vs].
  - cbn [app]. rewrite !concat_cons2. cbn [String.concat].
    by rewrite !string_app_assoc.
  - cbn [app] in *. rewrite !(concat_cons2 sep v), IH.
    by rewrite !string_app_assoc.
Qed.

Lemma concat_snoc_empty sep (vs : list string) x :
  String.concat sep ((vs ++ [x]) ++ [EmptyString])
  = String.append (String.concat sep (vs ++ [x])) sep.
Proof.
  induction vs as [|v vs IH].
  - cbn [app]. rewrite concat_cons2. cbn [String.concat].
    by rewrite string_app_nil_r.
  - destruct vs as [|v' vs]; cbn [app] in *.
    + rewrite !(concat_cons2 sep v), IH. by rewrite !string_app_assoc.
    + rewrite !(concat_cons2 sep v), IH. by rewrite !string_app_assoc.
Qed.

End StringFacts.

Section CsvLine.
Import CsvParser.

Lemma parseCSVLine_from_join line : ∀ values current inQuotes,
  String.concat "," (parseCSVLine_from line values current inQuotes)
  = String.append (String.concat "," (values ++ [current])) (unquote line).
Proof.
  induction line as [|c line IH]; intros values current inQuotes; cbn.
  - by rewrite string_app_nil_r.
  - case_bool_decide as Hq; [by rewrite IH|].
    destruct (bool_decide (c = ","%char) && negb inQuotes) eqn:Hcomma.
    + apply andb_true_iff in Hcomma as [->%bool_decide_eq_true _].
      rewrite IH, concat_snoc_empty. by rewrite string_app_assoc.
    + rewrite IH, concat_snoc_app.
      by rewrite string_app_assoc, string_app_cons, string_app_nil_l.
Qed.

(** X1: joining the fields of a line with commas gives the line back
    without its double quotes: the parser drops the quote characters and
    nothing else (a doubled quote inside a quoted field is dropped too,
    not kept as a quote). *)
Theorem parseCSVLine_join (line : string) :
  String.concat "," (parseCSVLine line) = unquote line.
Proof. unfold parseCSVLine. by rewrite parseCSVLine_from_join. Qed.

Lemma split_nonempty sep s : split sep s ≠ [].
Proof.
  destruct s as [|c s]; cbn; [done|].
  case_bool_decide; [done|]. by destruct (split sep s).
Qed.

Lemma parseCSVLine_from_split line : ∀ values current,
  "034"%char ∉ chars line →
  parseCSVLine_from line values current false
  = values ++
    match split "," line with
    | first :: others => String.append current first :: others
    | [] => [current]
    end.
Proof.
  induction line as [|c line IH]; intros values current Hq; cbn.
  - by rewrite string_app_nil_r.
  - cbn in Hq. apply not_elem_of_cons in Hq as [Hc Hq].
    rewrite bool_decide_false by congruence.
    case_bool_decide as Hcomma; cbn.
    + rewrite (IH _ _ Hq), <- app_assoc. cbn.
      rewrite string_app_nil_r.
      pose proof (split_nonempty "," line).
      by destruct (split "," line).
    + rewrite (IH _ _ Hq). f_equal.
      destruct (split "," line); cbn.
      * done.
      * by rewrite string_app_assoc, string_app_cons, string_app_nil_l.
Qed.

(** X2: on a line without double quotes [parseCSVLine] is the plain split
    on commas. *)
Theorem parseCSVLine_split (line : string) :
  "034"%char ∉ chars line →
  parseCSVLine line = split "," line.
Proof.
  intros Hq. unfold parseCSVLine. rewrite parseCSVLine_from_split by done.
  pose proof (split_nonempty "," line).
  destruct (split "," line); [done|]. by rewrite string_app_nil_l.
Qed.

Lemma parseCSVLine_split_witness :
  parseCSVLine "Louvre,https://maps.google.com/?cid=1,5"
  = ["Louvre"; "https://maps.google.com/?cid=1"; "5"].
Proof.
  rewrite parseCSVLine_split; [reflexivity|].
  cbn. rewrite !not_elem_of_cons. repeat split; try discriminate.
  apply not_elem_of_nil.
Defined.

Lemma parseCSVLine_from_cons line : ∀ value values current inQuotes,
  parseCSVLine_from line (value :: values) current inQuotes
  = value :: parseCSVLine_from line values current inQuotes.
Proof.
  induction line as [|c line IH]; intros value values current inQuotes; cbn.
  - done.
  - case_bool_decide; [by rewrite IH|].
    destruct (bool_decide (c = ","%char) && negb inQuotes); by rewrite IH.
Qed.

Lemma parseCSVLine_from_quoted field : ∀ rest values current,
  "034"%char ∉ chars field →
  parseCSVLine_from (String.append field (String "034"%char rest))
    values current true
  = parseCSVLine_from rest values (String.append current field) false.
Proof.
  induction field as [|c field IH]; intros rest values current Hq.
  - rewrite string_app_nil_l, string_app_nil_r. cbn.
    by rewrite bool_decide_true.
  - cbn in Hq. apply not_elem_of_cons in Hq as [Hc Hq].
    rewrite string_app_cons. cbn.
    rewrite bool_decide_false by congruence.
    rewrite andb_false_r, IH by done.
    by rewrite string_app_assoc, string_app_cons, string_app_nil_l.
Qed.

(** X3: a quoted field may hold commas.  A field between double quotes
    that holds no quote itself is returned as one value, without the
    quotes and with its commas, and the parsing of the rest of the line
    is not affected, whether the field is followed by a comma or ends
    the line. *)
Theorem parseCSVLine_quoted_field (field rest : string) :
  "034"%char ∉ chars field →
  parseCSVLine
    (String "034"%char
       (String.append field (String "034"%char (String ","%char rest))))
  = field :: parseCSVLine rest
  ∧ parseCSVLine
      (String "034"%char (String.append field (String "034"%char EmptyString)))
    = [field].
Proof.
  intros Hq. unfold parseCSVLine. cbn.
  rewrite !parseCSVLine_from_quoted by done. cbn.
  rewrite string_app_nil_l. split; [|done].
  apply parseCSVLine_from_cons.
Qed.

Lemma parseCSVLine_quoted_field_witness :
  parseCSVLine
    (String "034"%char
       (String.append "Paris, France"
          (String "034"%char (String ","%char "48.85,2.35"))))
  = ["Paris, France"; "48.85"; "2.35"].
Proof.
  assert (Hq : "034"%char ∉ chars "Paris, France").
  { cbn. rewrite !not_elem_of_cons. repeat split; try discriminate.
    apply not_elem_of_nil. }
  rewrite (proj1 (parseCSVLine_quoted_field "Paris, France" "48.85,2.35" Hq)).
  reflexivity.
Defined.

Lemma parseCSVLine_from_nonempty line : ∀ values current inQuotes,
  (0 < length (parseCSVLine_from line values current inQuotes))%nat.
Proof.
  induction line as [|c line IH]; intros values current inQuotes; cbn.
  - rewrite length_app; cbn. lia.
  - case_bool_decide; [apply IH|].
    destruct (_ && _); apply IH.
Qed.

End CsvLine.

Section CsvRows.
Import CsvParser.
Variable trim : string → string.

Lemma rowOf_fold_dom (values : list string) (entries : list (nat * string)) :
  ∀ row : gmap string string,
  dom (foldl (λ (row : gmap string string) entry,
                assign (trim entry.2)
                  (or_str (trim <$> values !! entry.1) EmptyString) row)
         row entries)
  = dom row
    ∪ list_to_set (filter (λ key, key ≠ "__proto__") (trim <$> entries.*2)).
Proof.
  induction entries as [|entry entries IH]; intros row.
  - cbn. by rewrite (right_id_L ∅ (∪)).
  - cbn [foldl fmap list_fmap]. rewrite IH. unfold assign.
    case_bool_decide as Hkey.
    + by rewrite filter_cons_False by (by intros []).
    + rewrite filter_cons_True by done. cbn [list_to_set].
      rewrite dom_insert_L.
      by rewrite (comm_L (∪) {[trim entry.2]} (dom row)), <- (assoc_L (∪)).
Qed.

Lemma imap_pair_snd {A} (l : list A) : ∀ f : nat → nat,
  (imap (λ index x, (f index, x)) l).*2 = l.
Proof.
  induction l as [|x l IH]; intros f; cbn; [done|].
  f_equal. apply (IH (f ∘ S)).
Qed.

(** X4: [parseCSV] returns one row for every non-blank line after the
    header line (the test for an empty field list never skips a line, as
    [parseCSVLine] always returns at least one field), none when every
    line is blank, and every row has exactly the trimmed column names of
    the header as its keys (but for a column called ["__proto__"]),
    whatever the number of fields on its line. *)
Theorem parseCSV_rows (csvContent : string) :
  let lines :=
    filter (λ line, trim line ≠ EmptyString) (split "010"%char csvContent) in
  length (parseCSV trim csvContent) = pred (length lines)
  ∧ ∀ row, row ∈ parseCSV trim csvContent →
      dom row
      = list_to_set
          (filter (λ key, key ≠ "__proto__")
             (trim <$> parseCSVLine (default EmptyString (head lines)))).
Proof.
  intros lines. unfold parseCSV. fold lines.
  destruct lines as [|headerLine dataLines]; cbn.
  - split; [done|]. by intros row ?%elem_of_nil.
  - split.
    + induction dataLines as [|line dataLines IH]; cbn; [done|].
      rewrite bool_decide_false; cbn; [by rewrite IH|].
      pose proof (parseCSVLine_from_nonempty line [] EmptyString false).
      unfold parseCSVLine. lia.
    + intros row (line & _ & Hrow)%list_elem_of_omap.
      case_bool_decide; [done|]. injection Hrow as <-.
      unfold rowOf. rewrite rowOf_fold_dom, (imap_pair_snd _ id).
      by rewrite dom_empty_L, (left_id_L ∅ (∪)).
Qed.

End CsvRows.

Section CsvPlaces.
Import CsvParser.
Variable trim : string → string.
Variable decodeURIComponent : string → Exc string.

Lemma or_str_nonempty v literal :
  literal ≠ EmptyString → or_str v literal ≠ EmptyString.
Proof.
  intros Hl. unfold or_str. destruct v as [s|]; [|done].
  by case_bool_decide.
Qed.

(** X5: every place taken from the rows has a title, the placeholder
    ['Unknown Place'] when the row had none; a search query is never the
    empty string; and a place is left without a search query only when
    its title is the placeholder. *)
Theorem extractPlaces_query (csvData : list (gmap string string))
    (place : Place) :
  place ∈ extractPlaces trim csvData →
  title place ≠ EmptyString
  ∧ (∀ query, getSearchQuery decodeURIComponent place = Ok (Some query) →
       query ≠ EmptyString)
  ∧ (getSearchQuery decodeURIComponent place = Ok None →
     title place = "Unknown Place").
Proof.
  unfold extractPlaces. intros (row & -> & _)%list_elem_of_fmap.
  assert (title (placeOfRow trim row) ≠ EmptyString) as Htitle
    by (by apply or_str_nonempty).
  split; [done|].
  assert (∀ query,
    (if bool_decide (title (placeOfRow trim row) ≠ EmptyString)
        && bool_decide (title (placeOfRow trim row) ≠ "Unknown Place")
     then Ok (Some (title (placeOfRow trim row))) else @Ok (option string) None)
    = Ok (Some query) → query ≠ EmptyString) as Hsome.
  { intros query. destruct (_ && _); [|done]. by intros [= <-]. }
  assert (
    (if bool_decide (title (placeOfRow trim row) ≠ EmptyString)
        && bool_decide (title (placeOfRow trim row) ≠ "Unknown Place")
     then Ok (Some (title (placeOfRow trim row))) else @Ok (option string) None)
    = Ok None → title (placeOfRow trim row) = "Unknown Place") as Hnone.
  { rewrite bool_decide_true by done. cbn [andb].
    destruct (bool_decide (_ ≠ "Unknown Place")) eqn:Hph; [discriminate|].
    intros _. apply bool_decide_eq_false in Hph. by apply dec_stable. }
  unfold getSearchQuery. unfold mbind, Exc_bind.
  destruct (extractPlaceNameFromURL _ _) as [[name|]|e]; [| |done].
  - destruct (bool_decide (name ≠ EmptyString)) eqn:Hname; [|done].
    apply bool_decide_eq_true in Hname.
    split; [|done]. by intros query [= <-].
  - done.
Qed.

Lemma stripPrefix_Some p : ∀ s r,
  stripPrefix p s = Some r ↔ s = p +:+ r.
Proof.
  induction p as [|a p IH]; intros s r; cbn.
  - rewrite string_app_nil_l. split; congruence.
  - rewrite string_app_cons. destruct s as [|b s]; [done|].
    case_bool_decide as Hab.
    + subst b. rewrite IH. split; congruence.
    + split; [done|]. congruence.
Qed.

Lemma untilSlash_app name : ∀ rest,
  "/"%char ∉ chars name →
  untilSlash (name +:+ "/" +:+ rest) = Some name.
Proof.
  induction name as [|d name IH]; intros rest Hn.
  - rewrite string_app_nil_l, string_app_cons. cbn.
    by rewrite bool_decide_true.
  - cbn in Hn. apply not_elem_of_cons in Hn as [Hd Hn].
    rewrite string_app_cons. cbn.
    rewrite bool_decide_false by congruence. by rewrite IH.
Qed.

Lemma untilSlash_inv s : ∀ name,
  untilSlash s = Some name →
  ("/"%char ∉ chars name) ∧ (∃ rest, s = name +:+ "/" +:+ rest).
Proof.
  induction s as [|c s IH]; intros name; cbn; [done|].
  case_bool_decide as Hc.
  - intros [= <-]. split; [apply not_elem_of_nil|].
    exists s. by rewrite string_app_nil_l, string_app_cons, Hc.
  - destruct (untilSlash s) as [found|]; cbn; [|done].
    intros [= <-]. destruct (IH found eq_refl) as [Hn [rest ->]].
    split; [cbn; apply not_elem_of_cons; split; [congruence|done]|].
    exists rest. by rewrite string_app_cons.
Qed.

Lemma placeMatchHere_Some s name :
  placeMatchHere s = Some name
  ↔ name ≠ EmptyString ∧ ("/"%char ∉ chars name)
    ∧ (∃ rest, s = "/place/" +:+ name +:+ "/" +:+ rest).
Proof.
  unfold placeMatchHere. split.
  - destruct (stripPrefix "/place/" s) as [after|] eqn:Hp; cbn; [|done].
    apply stripPrefix_Some in Hp as ->.
    destruct (untilSlash after) as [found|] eqn:Hu; cbn; [|done].
    apply untilSlash_inv in Hu as [Hf [rest ->]].
    case_bool_decide as Hne; [|done]. intros [= <-]. eauto.
  - intros (Hne & Hn & rest & ->).
    assert (stripPrefix "/place/" ("/place/" +:+ name +:+ "/" +:+ rest)
            = Some (name +:+ "/" +:+ rest)) as ->
      by (by apply stripPrefix_Some).
    cbn. rewrite untilSlash_app by done. cbn.
    by rewrite bool_decide_true.
Qed.

Lemma placeMatch_Some url : ∀ name,
  placeMatch url = Some name →
  ∃ pre rest,
    url = pre +:+ "/place/" +:+ name +:+ "/" +:+ rest
    ∧ name ≠ EmptyString ∧ ("/"%char ∉ chars name).
Proof.
  induction url as [|c url IH]; intros name.
  - cbn. done.
  - cbn [placeMatch].
    destruct (placeMatchHere (String c url)) as [found|] eqn:Hhere.
    + intros [= <-]. apply placeMatchHere_Some in Hhere
        as (Hne & Hn & rest & Heq).
      exists EmptyString, rest. by rewrite string_app_nil_l.
    + intros (pre & rest & -> & ? & ?)%IH.
      exists (String c pre), rest. by rewrite string_app_cons.
Qed.

Lemma placeMatch_complete pre : ∀ seg rest,
  seg ≠ EmptyString → "/"%char ∉ chars seg →
  is_Some (placeMatch (pre +:+ "/place/" +:+ seg +:+ "/" +:+ rest)).
Proof.
  induction pre as [|c pre IH]; intros seg rest Hne Hn.
  - rewrite string_app_nil_l.
    assert (placeMatchHere ("/place/" +:+ seg +:+ "/" +:+ rest) = Some seg)
      as Hhere by (apply placeMatchHere_Some; eauto).
    rewrite string_app_cons. cbn [placeMatch].
    rewrite <- string_app_cons. by rewrite Hhere.
  - rewrite string_app_cons. cbn [placeMatch].
    destruct (placeMatchHere _); [done|]. by apply IH.
Qed.

(** X6: [extractPlaceNameFromURL] finds a name exactly when the URL has a
    non-empty path segment after ["/place/"] that is closed by a slash;
    the name it returns is such a segment with every plus sign turned
    into a space and then URI-decoded, and a decoding error is raised,
    not turned into "no name". *)
Theorem extractPlaceNameFromURL_segment (url : string) :
  (extractPlaceNameFromURL decodeURIComponent url = Ok None
   ↔ ¬ ∃ pre seg rest,
         url = pre +:+ "/place/" +:+ seg +:+ "/" +:+ rest
         ∧ seg ≠ EmptyString ∧ ("/"%char ∉ chars seg))
  ∧ (∀ outcome,
       extractPlaceNameFromURL decodeURIComponent url = outcome →
       outcome ≠ Ok None →
       ∃ pre seg rest,
         url = pre +:+ "/place/" +:+ seg +:+ "/" +:+ rest
         ∧ seg ≠ EmptyString ∧ ("/"%char ∉ chars seg)
         ∧ outcome
           = (decoded ← decodeURIComponent (replacePlus seg);
              Ok (Some decoded))).
Proof.
  unfold extractPlaceNameFromURL. case_bool_decide as Hurl.
  - subst url. split.
    + split; [|done]. intros _ (pre & seg & rest & Heq & _).
      destruct pre; rewrite ?string_app_cons, ?string_app_nil_l in Heq;
        discriminate.
    + by intros outcome <-.
  - destruct (placeMatch url) as [name|] eqn:Hm.
    + pose proof (placeMatch_Some _ _ Hm) as (pre & rest & Heq & Hne & Hn).
      split.
      * split.
        -- unfold mbind, Exc_bind. by destruct (decodeURIComponent _).
        -- intros Hno. destruct Hno. eauto 10.
      * intros outcome <- _. eauto 10.
    + split.
      * split; [|done]. intros _ (pre & seg & rest & -> & Hne & Hn).
        pose proof (placeMatch_complete pre seg rest Hne Hn) as [? Hs].
        congruence.
      * by intros outcome <-.
Qed.

End CsvPlaces.

Lemma extractPlaces_query_witness :
  map (CsvParser.getSearchQuery ToyCsv.decodeURIComponent)
    (CsvParser.extractPlaces ToyCsv.trim
       (CsvParser.parseCSV ToyCsv.trim ToyCsv.export))
  = [Ok (Some "Louvre Museum"); Ok None]
  ∧ Forall (λ place, CsvParser.title place ≠ EmptyString)
      (CsvParser.extractPlaces ToyCsv.trim
         (CsvParser.parseCSV ToyCsv.trim ToyCsv.export)).
Proof.
  split; [by vm_compute|].
  apply Forall_forall. intros place Hin.
  exact (proj1 (extractPlaces_query ToyCsv.trim ToyCsv.decodeURIComponent
                  (CsvParser.parseCSV ToyCsv.trim ToyCsv.export) place Hin)).
Defined.

Lemma extractPlaceNameFromURL_segment_witness :
  ∃ pre seg rest,
    "https://www.google.com/maps/place/Louvre+Museum/data=x"
    = pre +:+ "/place/" +:+ seg +:+ "/" +:+ rest
    ∧ seg ≠ EmptyString
    ∧ ("/"%char ∉ CsvParser.chars seg)
    ∧ Ok (Some "Louvre Museum")
      = (decoded ← ToyCsv.decodeURIComponent (CsvParser.replacePlus seg);
         Ok (Some decoded)).
Proof.
  apply (proj2 (extractPlaceNameFromURL_segment ToyCsv.decodeURIComponent
                  "https://www.google.com/maps/place/Louvre+Museum/data=x")).
  - by vm_compute.
  - done.
Defined.

(** ** Point queries of the radius module *)

Section PointQueries.
Context `{Turf}.
Import RadiusQueries.

Lemma anyContains_false point features :
  anyContains point features = Ok false
  ↔ ∀ circle, circle ∈ features →
      turf_booleanPointInPolygon point circle = Ok false.
Proof.
  induction features as [|c rest IH]; simpl.
  - split; [|done]. intros _ c Hc. by apply elem_of_nil in Hc.
  - unfold mbind, Exc_bind.
    destruct (turf_booleanPointInPolygon point c) as [[]|e] eqn:Hc.
    + split; [done|]. intros Hall.
      specialize (Hall c (list_elem_of_here _ _)). congruence.
    + rewrite IH. split.
      * intros Hall c' [->|Hin]%elem_of_cons; auto.
      * intros Hall c' Hin. apply Hall. by right.
    + split; [done|]. intros Hall.
      specialize (Hall c (list_elem_of_here _ _)). congruence.
Qed.

Lemma anyContains_true point features :
  anyContains point features = Ok true
  ↔ ∃ before circle after,
      features = before ++ circle :: after
      ∧ (∀ c, c ∈ before → turf_booleanPointInPolygon point c = Ok false)
      ∧ turf_booleanPointInPolygon point circle = Ok true.
Proof.
  induction features as [|c rest IH]; simpl.
  - split; [done|]. intros (before & circle & after & Heq & _).
    by destruct before.
  - unfold mbind, Exc_bind.
    destruct (turf_booleanPointInPolygon point c) as [[]|e] eqn:Hc.
    + split; [|done]. intros _. exists [], c, rest. split_and!; [done| |done].
      intros c' Hc'. by apply elem_of_nil in Hc'.
    + rewrite IH. split.
      * intros (before & circle & after & -> & Hbefore & Hhit).
        exists (c :: before), circle, after. split_and!; [done| |done].
        intros c' [->|Hin]%elem_of_cons; auto.
      * intros (before & circle & after & Heq & Hbefore & Hhit).
        destruct before as [|b before]; simplify_eq/=; [congruence|].
        exists before, circle, after. split_and!; [done| |done].
        intros c' Hin. apply Hbefore. by right.
    + split; [done|].
      intros (before & circle & after & Heq & Hbefore & Hhit).
      destruct before as [|b before]; simplify_eq/=; [congruence|].
      specialize (Hbefore b (list_elem_of_here _ _)). congruence.
Qed.

(** X7: [isPointInCircles] answers [false] exactly when the
    point-in-polygon test says no for every circle of the collection, and
    [true] exactly when the test says yes for some circle and no for all
    the circles before it; in every other case the exception of the first
    raising test leaves the function. *)
Theorem isPointInCircles_outcome (lat lng : Qc) (features : list Geom) :
  (isPointInCircles lat lng features = Ok false
   ↔ ∀ circle, circle ∈ features →
       turf_booleanPointInPolygon (turf_point (lng, lat)) circle = Ok false)
  ∧ (isPointInCircles lat lng features = Ok true
     ↔ ∃ before circle after,
         features = before ++ circle :: after
         ∧ (∀ c, c ∈ before →
              turf_booleanPointInPolygon (turf_point (lng, lat)) c = Ok false)
         ∧ turf_booleanPointInPolygon (turf_point (lng, lat)) circle
           = Ok true)
  ∧ (∀ e, isPointInCircles lat lng features = Throw e →
       ∃ circle, circle ∈ features
         ∧ turf_booleanPointInPolygon (turf_point (lng, lat)) circle
           = Throw e).
Proof.
  unfold isPointInCircles. case_bool_decide as Hlen.
  - destruct features; [|done]. split_and!.
    + split; [|done]. intros _ c Hc. by apply elem_of_nil in Hc.
    + split; [done|]. intros (before & circle & after & Heq & _).
      by destruct before.
    + done.
  - split_and!; [apply anyContains_false | apply anyContains_true |].
    clear Hlen. intros e. induction features as [|c rest IH]; [done|].
    simpl. unfold mbind, Exc_bind.
    destruct (turf_booleanPointInPolygon (turf_point (lng, lat)) c)
      as [[]|e'] eqn:Hc; [done| |].
    + intros (circle & Hin & Hraise)%IH. exists circle. split; [by right|done].
    + intros [= ->]. exists c. split; [left|done].
Qed.

(** The least of a bound and the distances to the centers. *)
Lemma minLoop_least point centers : ∀ minDistance,
  (∀ center, center ∈ centers → ∃ d, distanceTo point center = Ok d) →
  ∃ m, minLoop point centers minDistance = Ok m
    ∧ atMost m minDistance
    ∧ (∀ center d, center ∈ centers → distanceTo point center = Ok d →
         atMost m (Finite d))
    ∧ (m = minDistance
       ∨ ∃ center km, center ∈ centers
           ∧ distanceTo point center = Ok km ∧ m = Finite km).
Proof.
  induction centers as [|c rest IH]; intros acc Hdef; simpl.
  - exists acc. split_and!; [done| | |by left].
    + destruct acc; simpl; done.
    + intros c d Hc. by apply elem_of_nil in Hc.
  - destruct (Hdef c (list_elem_of_here _ _)) as [d Hd].
    rewrite Hd. unfold mbind, Exc_bind.
    assert (Hrest : ∀ center, center ∈ rest →
              ∃ d, distanceTo point center = Ok d).
    { intros c' Hc'. apply Hdef. by right. }
    destruct (below d acc) eqn:Hbelow.
    + destruct (IH (Finite d) Hrest) as (m & -> & Hle & Hall & Hatt).
      exists m. split_and!; [done| | |].
      * destruct acc as [a|], m as [km|]; simpl in *; try done.
        apply bool_decide_eq_true in Hbelow.
        apply Qcle_trans with d; [done|]. by apply Qclt_le_weak.
      * intros c' d' [->|Hin]%elem_of_cons Hd'; [|by eapply Hall].
        rewrite Hd in Hd'. by simplify_eq.
      * right. destruct Hatt as [->|(c' & km & Hin & Hkm & ->)].
        -- exists c, d. split_and!; [left|done|done].
        -- exists c', km. split_and!; [by right|done|done].
    + destruct (IH acc Hrest) as (m & -> & Hle & Hall & Hatt).
      exists m. split_and!; [done|done| |].
      * intros c' d' [->|Hin]%elem_of_cons Hd'; [|by eapply Hall].
        rewrite Hd in Hd'. simplify_eq.
        destruct acc as [a|]; [|done]. simpl in Hbelow.
        apply bool_decide_eq_false in Hbelow. apply Qcnot_lt_le in Hbelow.
        destruct m as [km|]; simpl in *; [|done].
        by apply Qcle_trans with a.
      * destruct Hatt as [->|(c' & km & Hin & Hkm & ->)]; [by left|].
        right. exists c', km. split_and!; [by right|done|done].
Qed.

(** X8: when the distance to every center is defined,
    [getMinDistanceToCenter] returns the least of these distances: a
    lower bound of them all that one of the centers attains, and
    [Infinity] exactly when there is no center. *)
Theorem getMinDistanceToCenter_least (lat lng : Qc) (centers : list Center) :
  (∀ center, center ∈ centers →
     ∃ d, distanceTo (turf_point (lng, lat)) center = Ok d) →
  ∃ m, getMinDistanceToCenter lat lng centers = Ok m
    ∧ (m = Infinity ↔ centers = [])
    ∧ (∀ center d, center ∈ centers →
         distanceTo (turf_point (lng, lat)) center = Ok d →
         atMost m (Finite d))
    ∧ (∀ km, m = Finite km →
         ∃ center, center ∈ centers
           ∧ distanceTo (turf_point (lng, lat)) center = Ok km).
Proof.
  intros Hdef. unfold getMinDistanceToCenter. case_bool_decide as Hlen.
  - destruct centers; [|done]. exists Infinity. split_and!; try done.
    intros c d Hc. by apply elem_of_nil in Hc.
  - destruct (minLoop_least (turf_point (lng, lat)) centers Infinity Hdef)
      as (m & Hm & _ & Hall & Hatt).
    exists m. split_and!; [done| |done|].
    + split; [|by intros ->]. intros ->.
      destruct centers as [|c rest]; [done|].
      destruct (Hdef c (list_elem_of_here _ _)) as [d Hd].
      by specialize (Hall c d (list_elem_of_here _ _) Hd).
    + intros km ->. destruct Hatt as [?|(c & km' & Hin & Hkm & ?)]; [done|].
      simplify_eq. by exists c.
Qed.

Lemma withinAny_some point centers radiusKm :
  (∀ center, center ∈ centers → ∃ d, distanceTo point center = Ok d) →
  ∃ b : bool, withinAny point centers radiusKm = Ok b
    ∧ (b ↔ ∃ center d, center ∈ centers
             ∧ distanceTo point center = Ok d ∧ d ≤ radiusKm).
Proof.
  induction centers as [|c rest IH]; intros Hdef; simpl.
  - exists false. split; [done|]. split; [done|].
    intros (c & d & Hc & _). by apply elem_of_nil in Hc.
  - destruct (Hdef c (list_elem_of_here _ _)) as [d Hd].
    rewrite Hd. unfold mbind, Exc_bind. case_bool_decide as Hle.
    + exists true. split; [done|]. split; [|done]. intros _.
      exists c, d. split_and!; [left|done|done].
    + destruct IH as (b & -> & Hb).
      { intros c' Hc'. apply Hdef. by right. }
      exists b. split; [done|]. rewrite Hb. split.
      * intros (c' & d' & Hin & Hd' & Hle'). exists c', d'.
        split_and!; [by right|done|done].
      * intros (c' & d' & [->|Hin]%elem_of_cons & Hd' & Hle').
        -- rewrite Hd in Hd'. by simplify_eq.
        -- by exists c', d'.
Qed.

(** X9: when the distance to every center is defined,
    [isPointWithinRadius] holds exactly when the minimum returned by
    [getMinDistanceToCenter] is at most the radius. *)
Theorem isPointWithinRadius_min (lat lng : Qc) (centers : list Center)
    (radiusKm : Qc) :
  (∀ center, center ∈ centers →
     ∃ d, distanceTo (turf_point (lng, lat)) center = Ok d) →
  ∃ m, getMinDistanceToCenter lat lng centers = Ok m
    ∧ isPointWithinRadius lat lng centers radiusKm
      = Ok (bool_decide (atMost m (Finite radiusKm))).
Proof.
  intros Hdef.
  destruct (withinAny_some (turf_point (lng, lat)) centers radiusKm Hdef)
    as (b & Hb & Hiff).
  unfold getMinDistanceToCenter, isPointWithinRadius. rewrite Hb.
  case_bool_decide as Hlen.
  - destruct centers; [|done]. exists Infinity. split; [done|].
    simpl in Hb. by simplify_eq.
  - destruct (minLoop_least (turf_point (lng, lat)) centers Infinity Hdef)
      as (m & Hm & _ & Hall & Hatt).
    exists m. split; [done|]. f_equal.
    destruct b.
    + symmetry. apply bool_decide_eq_true.
      destruct (proj1 Hiff I) as (c & d & Hin & Hd & Hle).
      specialize (Hall c d Hin Hd).
      destruct m as [km|]; simpl in *; [|done].
      by apply Qcle_trans with d.
    + symmetry. apply bool_decide_eq_false. intros Hle.
      destruct Hatt as [->|(c & km & Hin & Hkm & ->)]; [done|].
      simpl in Hle. apply (proj2 Hiff). by exists c, km.
Qed.

End PointQueries.

(** The distances from the origin of the small provider to the centers
    of the cells [(3, 0)] and [(1, 1)] are 300 km and 200 km. *)
Lemma getMinDistanceToCenter_least_witness :
  ∃ m, @RadiusQueries.getMinDistanceToCenter toy 0 0
         [RadiusQueries.mkCenter 0 (Qc_of_Z 3);
          RadiusQueries.mkCenter (Qc_of_Z 1) (Qc_of_Z 1)] = Ok m
    ∧ m = RadiusQueries.Finite (Qc_of_Z 200).
Proof.
  destruct (@getMinDistanceToCenter_least toy 0 0
              [RadiusQueries.mkCenter 0 (Qc_of_Z 3);
               RadiusQueries.mkCenter (Qc_of_Z 1) (Qc_of_Z 1)])
    as (m & Hm & _).
  - intros center _. eexists. reflexivity.
  - exists m. split; [exact Hm|].
    revert Hm. vm_compute. intros [= <-]. f_equal. apply Qc_is_canon.
    reflexivity.
Defined.

Lemma isPointWithinRadius_min_witness :
  @RadiusQueries.isPointWithinRadius toy 0 0
     [RadiusQueries.mkCenter 0 (Qc_of_Z 3);
      RadiusQueries.mkCenter (Qc_of_Z 1) (Qc_of_Z 1)] (Qc_of_Z 250)
  = Ok true.
Proof.
  destruct (@isPointWithinRadius_min toy 0 0
              [RadiusQueries.mkCenter 0 (Qc_of_Z 3);
               RadiusQueries.mkCenter (Qc_of_Z 1) (Qc_of_Z 1)]
              (Qc_of_Z 250))
    as (m & Hm & Hwithin).
  - intros center _. eexists. reflexivity.
  - rewrite Hwithin. revert Hm. vm_compute. intros [= <-]. reflexivity.
Defined.

(** ** The total area never fails *)

Section AreaTotal.
Context `{Turf}.
Import RadiusCalculator AreaSpec.

Lemma fallback_nonneg (n : nat) :
  0 ≤ Qc_of_Z (Z.of_nat n) * Math_PI * RADIUS_KM * RADIUS_KM.
Proof.
  repeat apply Qcmult_nonneg_nonneg; try by vm_compute.
  rewrite <- Z2Qc_inj_0. apply (proj1 (Z2Qc_inj_le _ _)). lia.
Qed.

(** X10: [calculateTotalArea] never raises: when the area primitive
    raises on the merged polygon the function falls back to the number of
    features times the area of a full disk.  The total is not negative as
    long as the areas that the primitive returns are not. *)
Theorem calculateTotalArea_nonneg (features : list Geom) :
  (∀ g a, turf_area g = Ok a → 0 ≤ a) →
  ∃ total, calculateTotalArea features = Ok total
    ∧ 0 ≤ total
    ∧ (∀ first rest e,
         features = first :: rest →
         turf_area (foldl mergeStep first rest) = Throw e →
         total = Qc_of_Z (Z.of_nat (length features))
                 * Math_PI * RADIUS_KM * RADIUS_KM).
Proof.
  intros Hpos. destruct features as [|first rest].
  - exists 0. by split_and!.
  - rewrite calculateTotalArea_cons.
    destruct (turf_area (foldl mergeStep first rest)) as [a|e] eqn:Ha; simpl.
    + exists (km2 a). split_and!; [done| |].
      * apply km2_nonneg. by eapply Hpos.
      * intros first' rest' e' [= <- <-]. by rewrite Ha.
    + eexists. split_and!; [done|apply fallback_nonneg|done].
Qed.

End AreaTotal.

Lemma calculateTotalArea_nonneg_witness :
  ∃ total,
    @RadiusCalculator.calculateTotalArea toy [Samples.d0; Samples.e]
    = Ok total
    ∧ 0 ≤ total.
Proof.
  destruct (@calculateTotalArea_nonneg toy [Samples.d0; Samples.e])
    as (total & Htotal & Hpos & _).
  - intros g a [= <-]. unfold Toy.areaOf.
    rewrite <- Z2Qc_inj_mul, <- Z2Qc_inj_0. apply (proj1 (Z2Qc_inj_le _ _)).
    apply Z.mul_nonneg_nonneg; lia.
  - by exists total.
Defined.

(** ** The stores of the browser *)

Section CircleCache.
Import RadiusCache.
Context {Json : Type}.
Variable JSON_stringify : Json → Exc string.
Variable JSON_parse : string → Exc Json.

(** X11: a collection saved by [saveCirclesToCache] is what
    [loadCirclesFromCache] returns next, provided its JSON text parses
    back to it; after [clearCirclesCache] nothing is loaded; and a
    collection that cannot be serialised leaves the stored one in place. *)
Theorem circle_cache_round_trip (collection : Json) (text : string)
    (localStorage : gmap string string) :
  JSON_stringify collection = Ok text →
  text ≠ EmptyString →
  JSON_parse text = Ok collection →
  loadCirclesFromCache JSON_parse
    (saveCirclesToCache JSON_stringify collection localStorage)
  = Some collection
  ∧ loadCirclesFromCache JSON_parse
      (clearCirclesCache
         (saveCirclesToCache JSON_stringify collection localStorage))
    = None
  ∧ ∀ other e,
      JSON_stringify other = Throw e →
      loadCirclesFromCache JSON_parse
        (saveCirclesToCache JSON_stringify other
           (saveCirclesToCache JSON_stringify collection localStorage))
      = Some collection.
Proof.
  intros Htext Hne Hparse.
  assert (Hload : loadCirclesFromCache JSON_parse
            (saveCirclesToCache JSON_stringify collection localStorage)
          = Some collection).
  { unfold loadCirclesFromCache, saveCirclesToCache.
    rewrite Htext, lookup_insert_eq, bool_decide_true by done.
    by rewrite Hparse. }
  split_and!; [done| |].
  - unfold loadCirclesFromCache, clearCirclesCache.
    by rewrite lookup_delete_eq.
  - intros other e Hother. unfold saveCirclesToCache at 1.
    by rewrite Hother.
Qed.

End CircleCache.

Lemma circle_cache_round_trip_witness :
  RadiusCache.loadCirclesFromCache
    (λ text, if bool_decide (text = "[]") then Ok ([] : list nat)
             else Throw "SyntaxError")
    (RadiusCache.saveCirclesToCache
       (λ collection : list nat, Ok "[]") [] ∅)
  = Some [].
Proof.
  exact (proj1 (circle_cache_round_trip
                  (λ collection : list nat, Ok "[]")
                  (λ text, if bool_decide (text = "[]") then Ok []
                           else Throw "SyntaxError")
                  [] "[]" ∅ eq_refl ltac:(done) eq_refl)).
Defined.

Section StorageKeys.
Import Geocoder GeocoderNet RadiusCache GlobeScratchView.
Context {Json : Type}.
Variable toLowerCase : string → string.
Variable parseCache : string → Exc (gmap string GeocodeResult).
Variable stringifyCache : gmap string GeocodeResult → string.
Variable stringifyCircles : Json → Exc string.
Variable parseCircles : string → Exc Json.
Variable parseSet : string → Exc (list string).
Variable stringifySet : list string → string.

(** What the three modules read from the store. *)
Lemma getGeocodeCache_item e e' :
  places e' = places e →
  localStorage e' !! GEOCODE_CACHE_KEY = localStorage e !! GEOCODE_CACHE_KEY →
  getGeocodeCache parseCache e' = getGeocodeCache parseCache e.
Proof. intros Hp Hl. unfold getGeocodeCache. by rewrite Hp, Hl. Qed.

Lemma loadCirclesFromCache_item ls ls' :
  ls' !! RADIUS_CACHE_KEY = ls !! RADIUS_CACHE_KEY →
  loadCirclesFromCache parseCircles ls' = loadCirclesFromCache parseCircles ls.
Proof. intros Hl. unfold loadCirclesFromCache. by rewrite Hl. Qed.

Lemma loadSaved_item ls ls' st :
  ls' !! STORAGE_KEY = ls !! STORAGE_KEY →
  loadSaved parseSet ls' st = loadSaved parseSet ls st.
Proof. intros Hl. unfold loadSaved. by rewrite Hl. Qed.

Lemma cacheGeocodeResult_other e query result key :
  key ≠ GEOCODE_CACHE_KEY →
  localStorage (cacheGeocodeResult toLowerCase parseCache stringifyCache
                  query result e) !! key
  = localStorage e !! key.
Proof.
  intros Hkey. unfold cacheGeocodeResult.
  destruct (getGeocodeCache parseCache e) as [cache aliased]; simpl.
  by rewrite lookup_insert_ne.
Qed.

(** X12: the three stores do not touch each other.  Writing to or
    clearing the geocode cache changes neither the cached circles nor the
    saved scratch set; saving or clearing the circles changes neither the
    geocode cache nor the saved scratch set; and saving the scratch set
    changes neither the geocode cache nor the cached circles. *)
Theorem storage_keys_independent (e : Env) (query : string)
    (result : GeocodeResult) (collection : Json)
    (st st' : GlobeScratch.State) :
  let written :=
    cacheGeocodeResult toLowerCase parseCache stringifyCache query result e in
  let store := localStorage e in
  (loadCirclesFromCache parseCircles (localStorage written)
   = loadCirclesFromCache parseCircles store
   ∧ loadSaved parseSet (localStorage written) st
     = loadSaved parseSet store st)
  ∧ (loadCirclesFromCache parseCircles (localStorage (clearGeocodeCache e))
     = loadCirclesFromCache parseCircles store
     ∧ loadSaved parseSet (localStorage (clearGeocodeCache e)) st
       = loadSaved parseSet store st)
  ∧ (getGeocodeCache parseCache
       {| places := places e;
          localStorage := saveCirclesToCache stringifyCircles collection store |}
     = getGeocodeCache parseCache e
     ∧ loadSaved parseSet
         (saveCirclesToCache stringifyCircles collection store) st
       = loadSaved parseSet store st)
  ∧ (getGeocodeCache parseCache
       {| places := places e; localStorage := clearCirclesCache store |}
     = getGeocodeCache parseCache e
     ∧ loadSaved parseSet (clearCirclesCache store) st
       = loadSaved parseSet store st)
  ∧ (getGeocodeCache parseCache
       {| places := places e;
          localStorage := saveScratched stringifySet st' store |}
     = getGeocodeCache parseCache e
     ∧ loadCirclesFromCache parseCircles
         (saveScratched stringifySet st' store)
       = loadCirclesFromCache parseCircles store).
Proof.
  intros written store. subst written store.
  split_and!.
  - apply loadCirclesFromCache_item. by apply cacheGeocodeResult_other.
  - apply loadSaved_item. by apply cacheGeocodeResult_other.
  - apply loadCirclesFromCache_item. simpl. by rewrite lookup_delete_ne.
  - apply loadSaved_item. simpl. by rewrite lookup_delete_ne.
  - apply getGeocodeCache_item; [done|]. simpl. unfold saveCirclesToCache.
    destruct (stringifyCircles collection); [|done].
    by rewrite lookup_insert_ne.
  - apply loadSaved_item. unfold saveCirclesToCache.
    destruct (stringifyCircles collection); [|done].
    by rewrite lookup_insert_ne.
  - apply getGeocodeCache_item; [done|]. simpl. unfold clearCirclesCache.
    by rewrite lookup_delete_ne.
  - apply loadSaved_item. unfold clearCirclesCache.
    by rewrite lookup_delete_ne.
  - apply getGeocodeCache_item; [done|]. simpl. unfold saveScratched.
    by rewrite lookup_insert_ne.
  - apply loadCirclesFromCache_item. unfold saveScratched.
    by rewrite lookup_insert_ne.
Qed.

End StorageKeys.

(** ** The geocoder: cache writes and requests *)

Section GeocodeWrites.
Import Geocoder GeocoderNet JsObject.
Variable toLowerCase : string → string.
Variable JSON_parse : string → Exc (gmap string GeocodeResult).
Variable JSON_stringify : gmap string GeocodeResult → string.

Lemma places_cacheGeocodeResult e query result :
  places (cacheGeocodeResult toLowerCase JSON_parse JSON_stringify
            query result e)
  = if (getGeocodeCache JSON_parse e).2
    then Some (writtenCache toLowerCase JSON_parse query result e)
    else places e.
Proof.
  unfold cacheGeocodeResult, writtenCache.
  by destruct (getGeocodeCache JSON_parse e) as [cache aliased].
Qed.

Lemma localStorage_cacheGeocodeResult e query result :
  localStorage (cacheGeocodeResult toLowerCase JSON_parse JSON_stringify
                  query result e)
  = <[GEOCODE_CACHE_KEY :=
        JSON_stringify (writtenCache toLowerCase JSON_parse query result e)]>
      (localStorage e).
Proof.
  unfold cacheGeocodeResult, writtenCache.
  by destruct (getGeocodeCache JSON_parse e) as [cache aliased].
Qed.

(** When no overlay was read, the cache is the bundled object. *)
Lemma getGeocodeCache_aliased e :
  (getGeocodeCache JSON_parse e).2 = true →
  (getGeocodeCache JSON_parse e).1 = bundled e ∧ is_Some (places e).
Proof.
  unfold getGeocodeCache, bundled.
  destruct (localStorage e !! GEOCODE_CACHE_KEY) as [localData|]; simpl.
  - case_bool_decide; simpl.
    + destruct (JSON_parse localData); simpl; [done|].
      intros ?%bool_decide_eq_true. done.
    + intros ?%bool_decide_eq_true. done.
  - intros ?%bool_decide_eq_true. done.
Qed.

(** The cache that is read after a write whose text parses back. *)
Lemma getGeocodeCache_written e query result :
  roundTrips JSON_parse JSON_stringify
    (writtenCache toLowerCase JSON_parse query result e) →
  (getGeocodeCache JSON_parse
     (cacheGeocodeResult toLowerCase JSON_parse JSON_stringify
        query result e)).1
  = writtenCache toLowerCase JSON_parse query result e.
Proof.
  intros [Hne Hparse]. unfold getGeocodeCache at 1.
  rewrite localStorage_cacheGeocodeResult, lookup_insert_eq.
  rewrite bool_decide_true, Hparse by done. simpl.
  rewrite places_cacheGeocodeResult.
  destruct ((getGeocodeCache JSON_parse e).2) eqn:Halias; simpl.
  - by rewrite (idemp_L (∪)).
  - apply map_eq. intros key.
    destruct (writtenCache toLowerCase JSON_parse query result e !! key)
      as [v|] eqn:Hkey.
    + by apply lookup_union_Some_l.
    + rewrite lookup_union_r by done.
      unfold writtenCache in Hkey.
      apply lookup_insert_None in Hkey as [Hkey _].
      rewrite getGeocodeCache_merge in Hkey.
      by apply lookup_union_None in Hkey as [_ Hkey].
Qed.

(** X13: a result cached by [cacheGeocodeResult] is what
    [getCachedResult] returns for every query with the same lower-case
    form, and the answers to all other queries are as before, provided
    the JSON text written to the store parses back to the cache (the
    queries being names that a plain object does not inherit). *)
Theorem cacheGeocodeResult_round_trip (e : Env) (query query' : string)
    (result : GeocodeResult) :
  ownName (toLowerCase query) →
  ownName (toLowerCase query') →
  roundTrips JSON_parse JSON_stringify
    (writtenCache toLowerCase JSON_parse query result e) →
  getCachedResult toLowerCase JSON_parse
    (cacheGeocodeResult toLowerCase JSON_parse JSON_stringify query result e)
    query'
  = if bool_decide (toLowerCase query' = toLowerCase query) then Some result
    else getCachedResult toLowerCase JSON_parse e query'.
Proof.
  intros _ _ Hrt. unfold getCachedResult.
  rewrite getGeocodeCache_written by done. unfold writtenCache.
  case_bool_decide as Hkey.
  - by rewrite Hkey, lookup_insert_eq.
  - by rewrite lookup_insert_ne.
Qed.

(** X14: [clearGeocodeCache] removes the overlay only.  A result that was
    cached while the store held no overlay was written into the imported
    [places] object itself, so it is still returned after the cache was
    cleared; a result cached over an overlay that parses is gone, and
    the lookup is answered from the bundled data. *)
Theorem clearGeocodeCache_after_write (e : Env) (query : string)
    (result : GeocodeResult) :
  let cleared :=
    clearGeocodeCache
      (cacheGeocodeResult toLowerCase JSON_parse JSON_stringify
         query result e) in
  (∀ file,
     places e = Some file →
     localStorage e !! GEOCODE_CACHE_KEY = None →
     places cleared = Some (<[toLowerCase query := result]> file)
     ∧ getCachedResult toLowerCase JSON_parse cleared query = Some result)
  ∧ (∀ text parsed,
       localStorage e !! GEOCODE_CACHE_KEY = Some text →
       text ≠ EmptyString →
       JSON_parse text = Ok parsed →
       places cleared = places e
       ∧ getCachedResult toLowerCase JSON_parse cleared query
         = bundled e !! toLowerCase query).
Proof.
  intros cleared. subst cleared.
  assert (Hread : ∀ e', getCachedResult toLowerCase JSON_parse
                          (clearGeocodeCache e') query
                        = bundled e' !! toLowerCase query).
  { intros e'. unfold getCachedResult, getGeocodeCache, clearGeocodeCache.
    simpl. by rewrite lookup_delete_eq. }
  split.
  - intros file Hfile Hnone. rewrite Hread. unfold bundled. simpl.
    assert (Hplaces :
      places (cacheGeocodeResult toLowerCase JSON_parse JSON_stringify
                query result e)
      = Some (<[toLowerCase query := result]> file)).
    { rewrite places_cacheGeocodeResult.
      unfold writtenCache, getGeocodeCache.
      by rewrite Hnone, Hfile. }
    rewrite Hplaces. simpl. split; [done|]. by rewrite lookup_insert_eq.
  - intros text parsed Htext Hne Hparse. rewrite Hread. unfold bundled.
    simpl.
    assert (Hplaces :
      places (cacheGeocodeResult toLowerCase JSON_parse JSON_stringify
                query result e)
      = places e).
    { rewrite places_cacheGeocodeResult. unfold getGeocodeCache.
      by rewrite Htext, bool_decide_true, Hparse. }
    by rewrite Hplaces.
Qed.

End GeocodeWrites.

(** A result cached over the bundled data alone outlives the clearing
    of the cache. *)
Lemma clearGeocodeCache_after_write_witness :
  Geocoder.getCachedResult ToyJs.toLowerCase ToyJs.JSON_parse
    (GeocoderNet.clearGeocodeCache
       (Geocoder.cacheGeocodeResult ToyJs.toLowerCase ToyJs.JSON_parse
          ToyJs.JSON_stringify "Rome" ToyJs.rome
          (Geocoder.mkEnv (Some {[ "paris" := ToyJs.paris ]}) ∅)))
    "Rome"
  = Some ToyJs.rome.
Proof.
  pose proof (clearGeocodeCache_after_write ToyJs.toLowerCase
                ToyJs.JSON_parse ToyJs.JSON_stringify
                (Geocoder.mkEnv (Some {[ "paris" := ToyJs.paris ]}) ∅)
                "Rome" ToyJs.rome) as [Hkept _].
  exact (proj2 (Hkept _ eq_refl eq_refl)).
Defined.

Lemma cacheGeocodeResult_round_trip_witness :
  Geocoder.getCachedResult ToyJs.toLowerCase ToyJs.JSON_parse
    (Geocoder.cacheGeocodeResult ToyJs.toLowerCase ToyJs.JSON_parse
       ToyJs.JSON_stringify "Paris" ToyJs.parisMoved
       (Geocoder.mkEnv None ∅))
    "PARIS"
  = Some ToyJs.parisMoved.
Proof.
  apply (cacheGeocodeResult_round_trip ToyJs.toLowerCase ToyJs.JSON_parse
           ToyJs.JSON_stringify (Geocoder.mkEnv None ∅) "Paris" "PARIS"
           ToyJs.parisMoved).
  - apply (bool_decide_unpack _). by vm_compute.
  - apply (bool_decide_unpack _). by vm_compute.
  - split; [done|]. reflexivity.
Defined.

Section GeocodeRequests.
Import Geocoder GeocoderNet JsObject.
Variable toLowerCase : string → string.
Variable JSON_parse : string → Exc (gmap string GeocodeResult).
Variable JSON_stringify : gmap string GeocodeResult → string.
Variable encodeURIComponent : string → string.
Variable fetch : World → string → Reply.

Local Abbreviation geocode :=
  (geocodeAddress toLowerCase JSON_parse JSON_stringify encodeURIComponent
     fetch).
Local Abbreviation cached := (getCachedResult toLowerCase JSON_parse).

(** What a call of [geocodeAddress] can have done. *)
Lemma geocodeAddress_inv address apiKey w outcome w' :
  geocode address apiKey w = (outcome, w') →
  (w' = w
   ∧ ((address = EmptyString ∨ apiKey = EmptyString) ∧ outcome = Ok None
      ∨ address ≠ EmptyString ∧ apiKey ≠ EmptyString
        ∧ ∃ hit, cached (env w) address = Some hit
            ∧ outcome = Ok (Some hit)))
  ∨ (address ≠ EmptyString ∧ apiKey ≠ EmptyString
     ∧ cached (env w) address = None
     ∧ ∃ url,
         url = requestUrl encodeURIComponent address apiKey
         ∧ ((w' = request url w
             ∧ (outcome = Ok None
                ∨ (∃ message, fetch w url = Rejected message
                     ∧ outcome = Throw message)
                ∨ (∃ status, outcome = Throw ("HTTP error: " +:+ status))
                ∨ (∃ results, fetch w url = Body "REQUEST_DENIED" results
                     ∧ outcome = Throw "API_KEY_INVALID")
                ∨ outcome = Throw "QUOTA_EXCEEDED"))
            ∨ (∃ result,
                 outcome = Ok (Some result)
                 ∧ w' = cache toLowerCase JSON_parse JSON_stringify
                          address result (request url w)))).
Proof.
  unfold geocodeAddress.
  destruct (bool_decide (address = EmptyString)) eqn:Haddress; simpl.
  { apply bool_decide_eq_true in Haddress. intros [= <- <-].
    left. split; [done|]. left. auto. }
  apply bool_decide_eq_false in Haddress.
  destruct (bool_decide (apiKey = EmptyString)) eqn:Hkey; simpl.
  { apply bool_decide_eq_true in Hkey. intros [= <- <-].
    left. split; [done|]. left. auto. }
  apply bool_decide_eq_false in Hkey.
  destruct (cached (env w) address) as [hit|] eqn:Hhit.
  { intros [= <- <-]. left. split; [done|]. right. eauto. }
  intros Hcall. right. split_and!; [done|done|done|].
  eexists. split; [reflexivity|]. revert Hcall.
  destruct (fetch w _) as [message|status|status results] eqn:Hreply.
  - intros [= <- <-]. left. split; [done|]. right; left. eauto.
  - intros [= <- <-]. left. split; [done|]. right; right; left. eauto.
  - destruct (if bool_decide (status = "OK") then head results else None)
      as [first|].
    { intros [= <- <-]. right. eauto. }
    repeat case_bool_decide; intros [= <- <-]; left; (split; [done|]).
    + by left.
    + subst status. right; right; right; left. eauto.
    + by right; right; right; right.
    + by left.
Qed.

Lemma geocodeAddress_delays address apiKey w outcome w' :
  geocode address apiKey w = (outcome, w') →
  delays w' = delays w ∧ progress w' = progress w.
Proof.
  intros [[-> _]|(_ & _ & _ & url & _ & [[-> _]|(result & _ & ->)])]%geocodeAddress_inv;
    done.
Qed.

(** After a call that gave a result, the cache holds it. *)
Lemma geocodeAddress_hit_after address address' apiKey w w' result :
  geocode address apiKey w = (Ok (Some result), w') →
  toLowerCase address' = toLowerCase address →
  roundTrips JSON_parse JSON_stringify
    (writtenCache toLowerCase JSON_parse address result (env w)) →
  cached (env w') address' = Some result
  ∧ apiKey ≠ EmptyString
  ∧ (requests w' = requests w ∨ ∃ url, requests w' = requests w ++ [url]).
Proof.
  intros Hcall Hlower Hrt.
  apply geocodeAddress_inv in Hcall
    as [[-> [[_ ?]|(_ & Hkey & hit & Hhit & [= <-])]]
       |(_ & Hkey & _ & url & _ & [[_ Hout]|(result' & [= <-] & ->)])];
    [done| | |].
  - split_and!; [|done|by left].
    unfold getCachedResult in *. by rewrite Hlower.
  - destruct Hout as [?|[(? & _ & ?)|[(? & ?)|[(? & _ & ?)|?]]]]; done.
  - split_and!; [|done|right; by exists url]. simpl.
    unfold getCachedResult. rewrite getGeocodeCache_written by done.
    unfold writtenCache. by rewrite Hlower, lookup_insert_eq.
Qed.

(** X15: [geocodeAddress] memoises.  Once an address was geocoded, from
    the network or from the cache, a later call for any address with the
    same lower-case form returns the same result from the cache: it sends
    no request and changes nothing.  The first call itself sends one
    request at most.  (For a written cache whose JSON text parses back,
    and an address that is not a name that plain objects inherit.) *)
Theorem geocodeAddress_memoised (address address' apiKey : string)
    (w w' : World) (result : GeocodeResult) :
  geocode address apiKey w = (Ok (Some result), w') →
  toLowerCase address' = toLowerCase address →
  address' ≠ EmptyString →
  ownName (toLowerCase address) →
  roundTrips JSON_parse JSON_stringify
    (writtenCache toLowerCase JSON_parse address result (env w)) →
  geocode address' apiKey w' = (Ok (Some result), w')
  ∧ (requests w' = requests w ∨ ∃ url, requests w' = requests w ++ [url]).
Proof.
  intros Hcall Hlower Haddress' _ Hrt.
  destruct (geocodeAddress_hit_after _ _ _ _ _ _ Hcall Hlower Hrt)
    as (Hhit & Hkey & Hrequests).
  split; [|done].
  unfold geocodeAddress.
  rewrite !bool_decide_false by done. simpl. by rewrite Hhit.
Qed.

Section Waits.
Context {Place : Type}.
Variable getSearchQuery : Place → Exc (option string).
Variable apiKey : string.

(** X16: the pause between requests is taken after failed lookups only.
    In a pass of [geocodePlaces] whose lookup gave a result, from the
    cache or from the network, the loop does not wait, since the result
    is in the cache when the loop tests for it; in a pass whose lookup
    found nothing it waits 100 ms unless the place is the last one. *)
Theorem geocodePlace_waits (total i : nat) (place : Place)
    (results : list (Geocoded Place)) (w : World) (query : string) :
  getSearchQuery place = Ok (Some query) →
  query ≠ EmptyString →
  apiKey ≠ EmptyString →
  ownName (toLowerCase query) →
  (∀ coords w1,
     geocode query apiKey w = (Ok (Some coords), w1) →
     roundTrips JSON_parse JSON_stringify
       (writtenCache toLowerCase JSON_parse query coords (env w)) →
     ∃ results' w',
       GeocoderNet.geocodePlace toLowerCase JSON_parse JSON_stringify
         encodeURIComponent fetch getSearchQuery apiKey total i place
         results w
       = (Ok results', w')
       ∧ delays w' = delays w)
  ∧ (∀ w1,
       geocode query apiKey w = (Ok None, w1) →
       ∃ results' w',
         GeocoderNet.geocodePlace toLowerCase JSON_parse JSON_stringify
           encodeURIComponent fetch getSearchQuery apiKey total i place
           results w
         = (Ok results', w')
         ∧ delays w'
           = delays w
             ++ (if bool_decide (i + 1 < total)%nat then [100%Z] else [])).
Proof.
  intros Hquery Hne Hkey _. split.
  - intros coords w1 Hcall Hrt.
    unfold GeocoderNet.geocodePlace.
    rewrite Hquery, bool_decide_false, Hcall by done.
    eexists _, _. split; [done|].
    destruct (geocodeAddress_hit_after _ _ _ _ _ _ Hcall eq_refl Hrt)
      as (Hhit & _ & _).
    unfold endPass. simpl. rewrite Hhit.
    rewrite bool_decide_true by done. simpl.
    by apply geocodeAddress_delays in Hcall as [-> _].
  - intros w1 Hcall.
    unfold GeocoderNet.geocodePlace.
    rewrite Hquery, bool_decide_false, Hcall by done.
    eexists _, _. split; [done|].
    assert (Hmiss : cached (env w1) query = None).
    { apply geocodeAddress_inv in Hcall
        as [[-> [[[?|?] _]|(_ & _ & hit & _ & ?)]]
           |(_ & _ & Hmiss & url & _ & [[-> _]|(? & ? & _)])]; done. }
    unfold endPass. simpl. rewrite Hmiss.
    rewrite bool_decide_false by (by intros [? ?]). simpl.
    apply geocodeAddress_delays in Hcall as [Hdelays _].
    case_bool_decide; simpl; rewrite Hdelays; [done|].
    by rewrite (right_id_L [] (++)).
Qed.

End Waits.

Section Places.
Context {Place : Type}.
Variable getSearchQuery : Place → Exc (option string).
Variable apiKey : string.

Local Abbreviation geocodePlace :=
  (geocodePlace toLowerCase JSON_parse JSON_stringify encodeURIComponent
     fetch getSearchQuery apiKey).
Local Abbreviation geocodeFrom :=
  (geocodeFrom toLowerCase JSON_parse JSON_stringify encodeURIComponent
     fetch getSearchQuery apiKey).

(** A pass that goes on to the next place has pushed one result for a
    place that has a query, and none for another place. *)
Lemma geocodePlace_pushed total i place results w out w' :
  geocodePlace total i place results w = (Ok out, w') →
  ∃ pushed,
    out = results ++ pushed
    ∧ source <$> pushed
      = (if queried getSearchQuery place then [place] else [])
    ∧ Forall (λ r, result_cached r = false) pushed.
Proof.
  unfold GeocoderNet.geocodePlace, queried.
  destruct (getSearchQuery place) as [[query|]|e]; [| |done].
  - case_bool_decide as Hempty.
    { intros [= <- <-]. exists []. rewrite (right_id_L [] (++)).
      by rewrite bool_decide_false by (by intros ?). }
    rewrite bool_decide_true by done.
    destruct (geocode query apiKey w) as [[[coords|]|message] w1].
    + intros [= <- <-]. eexists [_]. split_and!; [done|done|].
      by repeat constructor.
    + intros [= <- <-]. eexists [_]. split_and!; [done|done|].
      by repeat constructor.
    + case_bool_decide; [done|].
      intros [= <- <-]. eexists [_]. split_and!; [done|done|].
      by repeat constructor.
  - intros [= <- <-]. exists []. by rewrite (right_id_L [] (++)).
Qed.

Lemma geocodeFrom_pushed total places : ∀ i results w out w',
  geocodeFrom total i places results w = (Ok out, w') →
  ∃ pushed,
    out = results ++ pushed
    ∧ source <$> pushed
      = filter (λ place, Is_true (queried getSearchQuery place)) places
    ∧ Forall (λ r, result_cached r = false) pushed.
Proof.
  induction places as [|place rest IH]; intros i results w out w'; simpl.
  - intros [= <- <-]. exists []. by rewrite (right_id_L [] (++)).
  - destruct (geocodePlace total i place results w) as [[mid|e] w1] eqn:Hpass;
      [|done].
    apply geocodePlace_pushed in Hpass as (pushed & -> & Hsources & Hcached).
    intros (pushed' & -> & Hsources' & Hcached')%IH.
    exists (pushed ++ pushed'). split_and!.
    + by rewrite (assoc_L (++)).
    + rewrite fmap_app, Hsources, Hsources'.
      destruct (queried getSearchQuery place) eqn:Hq.
      * by rewrite filter_cons_True by (simpl; by rewrite Hq).
      * by rewrite filter_cons_False by (simpl; rewrite Hq; by intros []).
    + by apply Forall_app.
Qed.

Section Undenied.
(** The replies never deny the key. *)
Hypothesis not_rejected : ∀ w url, fetch w url ≠ Rejected "API_KEY_INVALID".
Hypothesis not_denied :
  ∀ w url results, fetch w url ≠ Body "REQUEST_DENIED" results.

Lemma geocodeAddress_not_invalid address w w' :
  geocode address apiKey w ≠ (Throw "API_KEY_INVALID", w').
Proof.
  intros [[_ [[_ ?]|(_ & _ & ? & _ & ?)]]
         |(_ & _ & _ & url & _ & [[_ Hout]|(? & ? & _)])]%geocodeAddress_inv;
    try done.
  destruct Hout as [?|[(m & Hm & Heq)|[(s & Hs)|[(r & Hr & _)|?]]]];
    try done.
  - injection Heq as <-. by eapply not_rejected.
  - by eapply not_denied.
Qed.

Lemma geocodePlace_returns total i place results w query :
  getSearchQuery place = Ok query →
  ∃ out w', geocodePlace total i place results w = (Ok out, w').
Proof.
  intros Hquery. unfold GeocoderNet.geocodePlace. rewrite Hquery.
  destruct query as [query|]; [|by eauto].
  case_bool_decide; [by eauto|].
  destruct (geocode query apiKey w) as [[[coords|]|message] w1] eqn:Hcall;
    [by eauto|by eauto|].
  case_bool_decide as Hinvalid; [|by eauto].
  subst message. by apply geocodeAddress_not_invalid in Hcall.
Qed.

Lemma geocodeFrom_returns total places : ∀ i results w,
  (∀ place, place ∈ places → ∃ query, getSearchQuery place = Ok query) →
  ∃ out w', geocodeFrom total i places results w = (Ok out, w').
Proof.
  induction places as [|place rest IH]; intros i results w Hquery; simpl.
  - by eauto.
  - destruct (Hquery place (list_elem_of_here _ _)) as [query Hplace].
    destruct (geocodePlace_returns total i place results w query Hplace)
      as (mid & w1 & ->).
    apply IH. intros p Hp. apply Hquery. by right.
Qed.

(** X17: a batch is not stopped by a failed lookup.  When
    [getSearchQuery] raises for no place and no reply denies the API
    key, [geocodePlaces] returns, whatever else the network answers
    (no results, an HTTP error, a rejected request, an exceeded quota),
    one result for every place that has a search query, in the order of
    the places, and none for the other places; no result carries the
    [cached] flag. *)
Theorem geocodePlaces_results (places : list Place) (w : World) :
  (∀ place, place ∈ places → ∃ query, getSearchQuery place = Ok query) →
  ∃ results w',
    geocodePlaces toLowerCase JSON_parse JSON_stringify encodeURIComponent
      fetch getSearchQuery apiKey places w
    = (Ok results, w')
    ∧ source <$> results
      = filter (λ place, Is_true (queried getSearchQuery place)) places
    ∧ Forall (λ r, result_cached r = false) results.
Proof.
  intros Hquery. unfold geocodePlaces.
  destruct (geocodeFrom_returns (length places) places 0%nat [] w Hquery)
    as (results & w' & Hrun).
  exists results, w'. split; [done|].
  apply geocodeFrom_pushed in Hrun as (pushed & -> & Hsources & Hcached).
  done.
Qed.

End Undenied.
Lemma endPass_footprint total i query w :
  requests (endPass toLowerCase JSON_parse total i query w) = requests w
  ∧ env (endPass toLowerCase JSON_parse total i query w) = env w
  ∧ ∃ waits,
      delays (endPass toLowerCase JSON_parse total i query w)
      = delays w ++ waits
      ∧ Forall (λ ms, ms = 100%Z ∨ ms = 2000%Z) waits.
Proof.
  unfold endPass. simpl.
  destruct (negb _ && _); simpl; (split_and!; [done|done|]).
  - exists [100%Z]. split; [done|]. constructor; [by left|constructor].
  - exists []. split; [by rewrite (right_id_L [] (++))|constructor].
Qed.

Lemma geocodePlace_footprint total i place results w out w' :
  geocodePlace total i place results w = (out, w') →
  ∃ sent waits,
    requests w' = requests w ++ sent
    ∧ (length sent ≤ if queried getSearchQuery place then 1 else 0)%nat
    ∧ Forall (λ url, ∃ query,
                getSearchQuery place = Ok (Some query)
                ∧ url = requestUrl encodeURIComponent query apiKey) sent
    ∧ delays w' = delays w ++ waits
    ∧ Forall (λ ms, ms = 100%Z ∨ ms = 2000%Z) waits.
Proof.
  assert (Hnone : ∃ sent waits,
    requests w = requests w ++ sent
    ∧ (length sent ≤ if queried getSearchQuery place then 1 else 0)%nat
    ∧ Forall (λ url, ∃ query,
                getSearchQuery place = Ok (Some query)
                ∧ url = requestUrl encodeURIComponent query apiKey) sent
    ∧ delays w = delays w ++ waits
    ∧ Forall (λ ms, ms = 100%Z ∨ ms = 2000%Z) waits).
  { exists [], []. rewrite !(right_id_L [] (++)).
    split_and!; [done|simpl; lia|constructor|done|constructor]. }
  unfold GeocoderNet.geocodePlace.
  destruct (getSearchQuery place) as [[query|]|e] eqn:Hquery;
    [|by intros [= <- <-]..].
  case_bool_decide as Hempty; [by intros [= <- <-]|].
  clear Hnone.
  assert (Hq : queried getSearchQuery place = true).
  { unfold queried. by rewrite Hquery, bool_decide_true. }
  rewrite Hq.
  destruct (geocode query apiKey w) as [outcome w1] eqn:Hcall.
  assert (Hsent : ∃ sent,
    requests w1 = requests w ++ sent ∧ (length sent ≤ 1)%nat
    ∧ Forall (λ url, ∃ query',
                Ok (Some query) = Ok (Some query')
                ∧ url = requestUrl encodeURIComponent query' apiKey) sent
    ∧ delays w1 = delays w).
  { pose proof (geocodeAddress_delays _ _ _ _ _ Hcall) as [Hdelays _].
    apply geocodeAddress_inv in Hcall
      as [[-> _]|(_ & _ & _ & url & -> & [[-> _]|(r & _ & ->)])].
    - exists []. rewrite (right_id_L [] (++)).
      split_and!; [done|simpl; lia|constructor|done].
    - eexists [_]. split_and!; [done|simpl; lia| |done].
      repeat constructor. by eexists.
    - eexists [_]. split_and!; [done|simpl; lia| |done].
      repeat constructor. by eexists. }
  destruct Hsent as (sent & Hrequests & Hlen & Hurls & Hdelays).
  destruct outcome as [[coords|]|message].
  - intros [= <- <-].
    destruct (endPass_footprint total i query w1)
      as (Hr & _ & waits & Hd & Hwaits).
    exists sent, waits. rewrite Hr, Hd, Hrequests, Hdelays. by split_and!.
  - intros [= <- <-].
    destruct (endPass_footprint total i query w1)
      as (Hr & _ & waits & Hd & Hwaits).
    exists sent, waits. rewrite Hr, Hd, Hrequests, Hdelays. by split_and!.
  - case_bool_decide.
    { intros [= <- <-]. exists sent, [].
      rewrite (right_id_L [] (++)). split_and!; [done..|constructor]. }
    intros [= <- <-]. case_bool_decide.
    + destruct (endPass_footprint total i query (delay 2000 w1))
        as (Hr & _ & waits & Hd & Hwaits).
      exists sent, (2000%Z :: waits). rewrite Hr, Hd. simpl.
      rewrite Hrequests, Hdelays, <- (assoc_L (++)).
      split_and!; [done..|]. constructor; [by right|done].
    + destruct (endPass_footprint total i query w1)
        as (Hr & _ & waits & Hd & Hwaits).
      exists sent, waits. rewrite Hr, Hd, Hrequests, Hdelays. by split_and!.
Qed.

(** X18: what a batch costs.  However [geocodePlaces] ends, it has sent
    at most one request for every place that has a search query and none
    for the other places; every request asks for the query of a place of
    the list with the given key; and every wait it made is one of 100 ms
    or 2000 ms. *)
Theorem geocodePlaces_footprint (places : list Place) (w w' : World)
    (out : Exc (list (Geocoded Place))) :
  geocodePlaces toLowerCase JSON_parse JSON_stringify encodeURIComponent
    fetch getSearchQuery apiKey places w
  = (out, w') →
  ∃ sent waits,
    requests w' = requests w ++ sent
    ∧ (length sent
       ≤ length (filter (λ place, Is_true (queried getSearchQuery place))
                   places))%nat
    ∧ Forall (λ url, ∃ place query,
                place ∈ places
                ∧ getSearchQuery place = Ok (Some query)
                ∧ url = requestUrl encodeURIComponent query apiKey) sent
    ∧ delays w' = delays w ++ waits
    ∧ Forall (λ ms, ms = 100%Z ∨ ms = 2000%Z) waits.
Proof.
  unfold geocodePlaces. generalize (length places) at 1. intros total.
  generalize 0%nat. generalize (@nil (Geocoded Place)).
  revert w. induction places as [|place rest IH]; intros w results i; simpl.
  - intros [= <- <-]. exists [], []. rewrite !(right_id_L [] (++)).
    split_and!; [done|done|constructor|done|constructor].
  - destruct (geocodePlace total i place results w) as [mid w1] eqn:Hpass.
    apply geocodePlace_footprint in Hpass
      as (sent & waits & Hr & Hlen & Hurls & Hd & Hwaits).
    assert (Hhere : (length sent
        ≤ length (filter (λ p, Is_true (queried getSearchQuery p))
                    (place :: rest)))%nat
      ∧ Forall (λ url, ∃ p query,
                  p ∈ place :: rest
                  ∧ getSearchQuery p = Ok (Some query)
                  ∧ url = requestUrl encodeURIComponent query apiKey) sent).
    { split.
      - destruct (queried getSearchQuery place) eqn:Hq.
        + rewrite filter_cons_True by (simpl; by rewrite Hq). simpl. lia.
        + destruct sent; [simpl; lia|simpl in Hlen; lia].
      - eapply Forall_impl; [exact Hurls|]. intros url (query & ? & ?).
        exists place, query. split_and!; [left|done|done]. }
    destruct Hhere as [Hlen' Hurls'].
    destruct mid as [mid|e].
    + intros (sent' & waits' & Hr' & Hlen2 & Hurls2 & Hd' & Hwaits')%IH.
      exists (sent ++ sent'), (waits ++ waits').
      rewrite Hr', Hd', Hr, Hd, !(assoc_L (++)).
      split_and!; [done| | |done|by apply Forall_app].
      * rewrite length_app.
        destruct (queried getSearchQuery place) eqn:Hq.
        -- rewrite filter_cons_True by (simpl; by rewrite Hq). simpl. lia.
        -- rewrite filter_cons_False by (simpl; rewrite Hq; by intros []).
           destruct sent; [simpl; lia|simpl in Hlen; lia].
      * apply Forall_app. split; [done|].
        eapply Forall_impl; [exact Hurls2|].
        intros url (p & query & ? & ? & ?). exists p, query.
        split_and!; [by right|done|done].
    + intros [= <- <-]. exists sent, waits. by split_and!.
Qed.

Section Denied.
(** The service denies every request: the key is not valid. *)
Hypothesis denied : ∀ w url, ∃ results, fetch w url = Body "REQUEST_DENIED" results.

Lemma geocodeAddress_denied address w outcome w' :
  geocode address apiKey w = (outcome, w') →
  (w' = w ∧ ∃ result, outcome = Ok result)
  ∨ (outcome = Throw "API_KEY_INVALID"
     ∧ w' = request (requestUrl encodeURIComponent address apiKey) w).
Proof.
  unfold geocodeAddress.
  destruct (_ || _); [intros [= <- <-]; left; eauto|].
  destruct (cached (env w) address); [intros [= <- <-]; left; eauto|].
  destruct (denied w (requestUrl encodeURIComponent address apiKey))
    as [results ->].
  simpl. intros [= <- <-]. by right.
Qed.

(** With a key that is denied the loop sends one request at most and
    writes nothing to the cache. *)
Lemma geocodeFrom_denied total places : ∀ i results w out w',
  geocodeFrom total i places results w = (out, w') →
  env w' = env w
  ∧ (requests w' = requests w
     ∨ out = Throw "API_KEY_INVALID"
       ∧ ∃ url, requests w' = requests w ++ [url]).
Proof.
  induction places as [|place rest IH]; intros i results w out w'; simpl.
  - intros [= <- <-]. split; [done|by left].
  - unfold GeocoderNet.geocodePlace.
    destruct (getSearchQuery place) as [[query|]|e];
      [|by apply IH|intros [= <- <-]; split; [done|by left]].
    case_bool_decide; [by apply IH|].
    destruct (geocode query apiKey w) as [outcome w1] eqn:Hcall.
    apply geocodeAddress_denied in Hcall
      as [[-> [result ->]]|[-> ->]].
    + destruct (endPass_footprint total i query w) as (Hr & He & _).
      destruct result as [coords|];
        intros [Henv Hout]%IH; rewrite Hr in Hout; rewrite He in Henv; done.
    + simpl. intros [= <- <-]. split; [done|]. right. split; [done|].
      by eexists.
Qed.

End Denied.
End Places.
End GeocodeRequests.

Section GeocodeExamples.
Import Geocoder GeocoderNet.

Local Abbreviation geocode :=
  (geocodeAddress ToyJs.toLowerCase ToyJs.JSON_parse ToyJs.JSON_stringify
     ToyNet.encodeURIComponent ToyNet.fetch).

Lemma toy_geocode_paris :
  geocode "Paris" "key" ToyNet.fresh
  = (Ok (Some ToyJs.parisMoved), (geocode "Paris" "key" ToyNet.fresh).2).
Proof. by vm_compute. Qed.

Lemma toy_fetch_not_rejected w url :
  ToyNet.fetch w url ≠ Rejected "API_KEY_INVALID".
Proof. unfold ToyNet.fetch. by destruct (CsvParser.includes _ _). Qed.

Lemma toy_fetch_not_denied w url results :
  ToyNet.fetch w url ≠ Body "REQUEST_DENIED" results.
Proof. unfold ToyNet.fetch. by destruct (CsvParser.includes _ _). Qed.

Lemma geocodeAddress_memoised_witness :
  geocode "PARIS" "key" (geocode "Paris" "key" ToyNet.fresh).2
  = (Ok (Some ToyJs.parisMoved), (geocode "Paris" "key" ToyNet.fresh).2).
Proof.
  refine (proj1 (geocodeAddress_memoised ToyJs.toLowerCase ToyJs.JSON_parse
                   ToyJs.JSON_stringify ToyNet.encodeURIComponent
                   ToyNet.fetch "Paris" "PARIS" "key" ToyNet.fresh _
                   ToyJs.parisMoved toy_geocode_paris eq_refl _ _ _)).
  - done.
  - apply (bool_decide_unpack _). by vm_compute.
  - split; [done|]. reflexivity.
Defined.

Lemma geocodePlaces_results_witness :
  ∃ results w',
    geocodePlaces ToyJs.toLowerCase ToyJs.JSON_parse ToyJs.JSON_stringify
      ToyNet.encodeURIComponent ToyNet.fetch ToyNet.getSearchQuery "key"
      ["Paris"; ""; "Oslo"] ToyNet.fresh
    = (Ok results, w')
    ∧ source <$> results = ["Paris"; "Oslo"].
Proof.
  destruct (geocodePlaces_results ToyJs.toLowerCase ToyJs.JSON_parse
              ToyJs.JSON_stringify ToyNet.encodeURIComponent ToyNet.fetch
              ToyNet.getSearchQuery "key" toy_fetch_not_rejected
              toy_fetch_not_denied ["Paris"; ""; "Oslo"] ToyNet.fresh)
    as (results & w' & Hrun & Hsources & _).
  - intros place _. by eexists.
  - exists results, w'. split; [exact Hrun|]. rewrite Hsources. reflexivity.
Defined.

Lemma geocodePlace_waits_witness :
  ∃ results' w',
    geocodePlace ToyJs.toLowerCase ToyJs.JSON_parse ToyJs.JSON_stringify
      ToyNet.encodeURIComponent ToyNet.fetch ToyNet.getSearchQuery "key"
      2 0 "Paris" [] ToyNet.fresh
    = (Ok results', w')
    ∧ delays w' = delays ToyNet.fresh.
Proof.
  refine (proj1 (geocodePlace_waits ToyJs.toLowerCase ToyJs.JSON_parse
                   ToyJs.JSON_stringify ToyNet.encodeURIComponent
                   ToyNet.fetch ToyNet.getSearchQuery "key" 2 0 "Paris" []
                   ToyNet.fresh "Paris" eq_refl _ _ _)
            ToyJs.parisMoved _ toy_geocode_paris _).
  - done.
  - done.
  - apply (bool_decide_unpack _). by vm_compute.
  - split; [done|]. reflexivity.
Defined.

Lemma geocodePlaces_footprint_witness :
  ∃ sent waits,
    requests
      (geocodePlaces ToyJs.toLowerCase ToyJs.JSON_parse ToyJs.JSON_stringify
         ToyNet.encodeURIComponent ToyNet.fetch ToyNet.getSearchQuery "key"
         ["Paris"; ""; "Oslo"] ToyNet.fresh).2
    = requests ToyNet.fresh ++ sent
    ∧ (length sent ≤ 2)%nat
    ∧ delays
        (geocodePlaces ToyJs.toLowerCase ToyJs.JSON_parse
           ToyJs.JSON_stringify ToyNet.encodeURIComponent ToyNet.fetch
           ToyNet.getSearchQuery "key" ["Paris"; ""; "Oslo"] ToyNet.fresh).2
      = delays ToyNet.fresh ++ waits.
Proof.
  destruct (geocodePlaces_footprint ToyJs.toLowerCase ToyJs.JSON_parse
              ToyJs.JSON_stringify ToyNet.encodeURIComponent ToyNet.fetch
              ToyNet.getSearchQuery "key" ["Paris"; ""; "Oslo"] ToyNet.fresh
              _ _ (surjective_pairing _))
    as (sent & waits & Hsent & Hlen & _ & Hwaits & _).
  by exists sent, waits.
Defined.

End GeocodeExamples.

(** ** The data loader *)

Section Loader.
Import GeocoderNet DataLoader.
Variable trim : string → string.
Variable decodeURIComponent : string → Exc string.
Variable toLowerCase : string → string.
Variable JSON_parse : string → Exc (gmap string Geocoder.GeocodeResult).
Variable JSON_stringify : gmap string Geocoder.GeocodeResult → string.
Variable encodeURIComponent : string → string.
Variable fetch : World → string → Reply.

Lemma length_filter_split {A} (P : A → Prop) `{∀ x, Decision (P x)}
    (l : list A) :
  (length (filter P l) + length (filter (λ x, ¬ P x) l) = length l)%nat.
Proof.
  induction l as [|x l IH]; [done|].
  destruct (decide (P x)).
  - rewrite filter_cons_True, (filter_cons_False (λ x, ¬ P x)) by auto.
    simpl. lia.
  - rewrite filter_cons_False, (filter_cons_True (λ x, ¬ P x)) by done.
    simpl. lia.
Qed.

Lemma filter_all {A} (P : A → Prop) `{∀ x, Decision (P x)} (l : list A) :
  Forall P l → filter P l = l.
Proof.
  induction 1 as [|x l Hx Hl IH]; [done|].
  by rewrite filter_cons_True, IH.
Qed.

Lemma filter_none {A} (P : A → Prop) `{∀ x, Decision (P x)} (l : list A) :
  Forall (λ x, ¬ P x) l → filter P l = [].
Proof.
  induction 1 as [|x l Hx Hl IH]; [done|].
  by rewrite filter_cons_False, IH.
Qed.

(** The results read from the cache are geocoded, flagged as cached, and
    belong to places of the list, in the order of the list. *)
Lemma cachedResults_origin e allPlaces : ∀ results,
  cachedResults decodeURIComponent toLowerCase JSON_parse e allPlaces
  = Ok results →
  Forall (λ r, result_geocoded r = true ∧ result_cached r = true) results
  ∧ sublist (source <$> results) allPlaces.
Proof.
  induction allPlaces as [|p rest IH]; intros results; simpl.
  - intros [= <-]. split; [done|]. constructor.
  - unfold mbind, Exc_bind.
    destruct (getSearchQuery decodeURIComponent p) as [[query|]|err];
      [| |done].
    + case_bool_decide.
      { intros [Hall Hsub]%IH. split; [done|]. by constructor. }
      destruct (Geocoder.getCachedResult toLowerCase JSON_parse e query)
        as [hit|].
      * destruct (cachedResults _ _ _ e rest) as [others|] eqn:Hrest;
          [|done].
        intros [= <-]. destruct (IH others eq_refl) as [Hall Hsub].
        split; [by constructor|]. simpl. by constructor.
      * intros [Hall Hsub]%IH. split; [done|]. by constructor.
    + intros [Hall Hsub]%IH. split; [done|]. by constructor.
Qed.

(** X19: what the panel shows after the files were loaded on mount.
    The places are those of all files.  When no place is found in the
    geocode cache the total is the number of places; but as soon as one
    place is found there, [updateStats] of the first render runs, in
    which [places] is still empty, and the total shown is the number of
    places found in the cache, not the number of places loaded.  All
    results then count as geocoded and as cached, none as failed. *)
Theorem loadCSVFiles_stats (csvFiles : list (string * string))
    (e : Geocoder.Env) (st : State) :
  loadCSVFiles trim decodeURIComponent toLowerCase JSON_parse csvFiles e
    initialState
  = Ok st →
  places st = concat (map (filePlaces trim) csvFiles)
  ∧ sublist (source <$> geocodedPlaces st) (places st)
  ∧ (geocodedPlaces st = [] → totalPlaces (stats st) = length (places st))
  ∧ (geocodedPlaces st ≠ [] →
       totalPlaces (stats st) = length (geocodedPlaces st)
       ∧ geocodedCount (stats st) = length (geocodedPlaces st)
       ∧ cachedCount (stats st) = length (geocodedPlaces st)
       ∧ failedCount (stats st) = 0%nat).
Proof.
  unfold loadCSVFiles, loadCachedGeocodedData. unfold mbind, Exc_bind.
  destruct (cachedResults _ _ _ e _) as [results|] eqn:Hresults; [|done].
  apply cachedResults_origin in Hresults as [Hall Hsub].
  case_bool_decide as Hlen.
  - intros [= <-]. simpl. split_and!; [done|done| |].
    + intros ->. simpl in Hlen. lia.
    + intros _. unfold updateStats. simpl. split_and!; [done| | |].
      * rewrite filter_all; [done|].
        eapply Forall_impl; [exact Hall|]. by intros r [-> _].
      * rewrite filter_all; [done|].
        eapply Forall_impl; [exact Hall|]. by intros r [_ ->].
      * rewrite filter_none; [done|].
        eapply Forall_impl; [exact Hall|]. intros r [-> _] Hr. by apply Hr.
  - intros [= <-]. simpl. split_and!; [done|apply sublist_nil_l|done|done].
Qed.

(** X20: what the panel shows after a geocoding run that ended without
    an error message.  The total is the number of places; every place
    that has a search query has one result, counted either as geocoded
    or as failed; and the count of cached results is zero, also when
    every result came from the cache. *)
Theorem startGeocoding_stats (apiKey : option string) (st st' : State)
    (w w' : World) :
  startGeocoding decodeURIComponent toLowerCase JSON_parse JSON_stringify
    encodeURIComponent fetch apiKey st w
  = (st', w') →
  error st' = None →
  places st' = places st
  ∧ source <$> geocodedPlaces st'
    = filter (λ p, Is_true (queried (getSearchQuery decodeURIComponent) p))
        (places st)
  ∧ totalPlaces (stats st') = length (places st)
  ∧ (geocodedCount (stats st') + failedCount (stats st')
     = length (geocodedPlaces st'))%nat
  ∧ cachedCount (stats st') = 0%nat.
Proof.
  unfold startGeocoding. case_bool_decide as Hkey.
  { by intros [= <- <-]. }
  simpl. unfold geocodePlaces.
  destruct (geocodeFrom _ _ _ _ _ _ _ _ _ _ _ _) as [[results|err] w1]
    eqn:Hrun; [|by intros [= <- <-]].
  intros [= <- <-] _. simpl.
  apply geocodeFrom_pushed in Hrun as (pushed & -> & Hsources & Hcached).
  simpl. split_and!; [done|done| | |].
  - case_bool_decide as Hlen; [done|].
    assert (Hnil : places st = []).
    { destruct (places st); [done|]. simpl in Hlen. lia. }
    rewrite Hnil in Hsources |- *. by destruct pushed.
  - apply length_filter_split.
  - rewrite filter_none; [done|].
    eapply Forall_impl; [exact Hcached|]. intros r -> [].
Qed.

(** X21: a run with a key that the service denies.  When every request
    is answered with [REQUEST_DENIED], [startGeocoding] sends one request
    at most: the run stops at the first place whose query is not in the
    cache, the panel shows the invalid-key message, the results gathered
    from the cache before that place are dropped (the list of geocoded
    places and the statistics stay as they were), and the cache is left
    untouched. *)
Theorem startGeocoding_denied_key (apiKey : option string) (st st' : State)
    (w w' : World) :
  (∀ w url, ∃ results, fetch w url = Body "REQUEST_DENIED" results) →
  startGeocoding decodeURIComponent toLowerCase JSON_parse JSON_stringify
    encodeURIComponent fetch apiKey st w
  = (st', w') →
  env w' = env w
  ∧ (requests w' = requests w
     ∨ (∃ url, requests w' = requests w ++ [url])
       ∧ error st'
         = Some "Invalid API key. Please check your Google Maps API key."
       ∧ geocodedPlaces st' = geocodedPlaces st
       ∧ stats st' = stats st).
Proof.
  intros Hdenied. unfold startGeocoding. case_bool_decide as Hkey.
  { intros [= <- <-]. split; [done|by left]. }
  simpl. unfold geocodePlaces.
  destruct (geocodeFrom _ _ _ _ _ _ _ _ _ _ _ _) as [out w1] eqn:Hrun.
  apply geocodeFrom_denied in Hrun as [Henv Hout]; [|done].
  destruct Hout as [Hsame|[-> Hone]].
  - destruct out; intros [= <- <-]; (split; [done|by left]).
  - intros [= <- <-]. split; [done|]. right. by split_and!.
Qed.

End Loader.

Lemma loadCSVFiles_stats_witness :
  ∃ st,
    DataLoader.loadCSVFiles ToyCsv.trim ToyCsv.decodeURIComponent
      ToyJs.toLowerCase ToyJs.JSON_parse [("data/trip.csv", ToyCsv.trip)]
      ToyJs.env DataLoader.initialState
    = Ok st
    ∧ length (DataLoader.places st) = 2%nat
    ∧ DataLoader.totalPlaces (DataLoader.stats st) = 1%nat.
Proof.
  destruct (DataLoader.loadCSVFiles ToyCsv.trim ToyCsv.decodeURIComponent
              ToyJs.toLowerCase ToyJs.JSON_parse
              [("data/trip.csv", ToyCsv.trip)] ToyJs.env
              DataLoader.initialState) as [st|err] eqn:Hload;
    [|by vm_compute in Hload].
  exists st. split; [done|].
  destruct (loadCSVFiles_stats ToyCsv.trim ToyCsv.decodeURIComponent
              ToyJs.toLowerCase ToyJs.JSON_parse
              [("data/trip.csv", ToyCsv.trip)] ToyJs.env st Hload)
    as (Hplaces & _ & _ & Hsome).
  assert (Hfound : length (DataLoader.geocodedPlaces st) = 1%nat).
  { vm_compute in Hload. by injection Hload as <-. }
  split.
  - rewrite Hplaces. reflexivity.
  - destruct Hsome as (-> & _); [|done].
    by destruct (DataLoader.geocodedPlaces st).
Defined.

(** The two places of [ToyCsv.trip], geocoded over a fresh store by a
    service that knows the first. *)
Lemma startGeocoding_stats_witness :
  ∃ st' w',
    DataLoader.startGeocoding ToyCsv.decodeURIComponent ToyJs.toLowerCase
      ToyJs.JSON_parse ToyJs.JSON_stringify ToyNet.encodeURIComponent
      ToyNet.fetch (Some "key")
      (DataLoader.mkState
         (DataLoader.filePlaces ToyCsv.trim ("data/trip.csv", ToyCsv.trip))
         [] (DataLoader.stats DataLoader.initialState) None)
      ToyNet.fresh
    = (st', w')
    ∧ DataLoader.totalPlaces (DataLoader.stats st') = 2%nat
    ∧ DataLoader.cachedCount (DataLoader.stats st') = 0%nat.
Proof.
  destruct (DataLoader.startGeocoding ToyCsv.decodeURIComponent
              ToyJs.toLowerCase ToyJs.JSON_parse ToyJs.JSON_stringify
              ToyNet.encodeURIComponent ToyNet.fetch (Some "key")
              (DataLoader.mkState
                 (DataLoader.filePlaces ToyCsv.trim
                    ("data/trip.csv", ToyCsv.trip))
                 [] (DataLoader.stats DataLoader.initialState) None)
              ToyNet.fresh) as [st' w'] eqn:Hrun.
  exists st', w'. split; [done|].
  destruct (startGeocoding_stats ToyCsv.decodeURIComponent ToyJs.toLowerCase
              ToyJs.JSON_parse ToyJs.JSON_stringify ToyNet.encodeURIComponent
              ToyNet.fetch _ _ _ _ _ Hrun)
    as (_ & _ & Htotal & _ & Hcached).
  - vm_compute in Hrun. by injection Hrun as <- _.
  - split; [|done]. rewrite Htotal. reflexivity.
Defined.

(** The two places of [ToyCsv.trip] over the cache of [ToyJs.env], which
    knows the first, and a service that denies the key: one request. *)
Lemma startGeocoding_denied_key_witness :
  ∃ st' w',
    DataLoader.startGeocoding ToyCsv.decodeURIComponent ToyJs.toLowerCase
      ToyJs.JSON_parse ToyJs.JSON_stringify ToyNet.encodeURIComponent
      (λ _ _, GeocoderNet.Body "REQUEST_DENIED" []) (Some "key")
      (DataLoader.mkState
         (DataLoader.filePlaces ToyCsv.trim ("data/trip.csv", ToyCsv.trip))
         [] (DataLoader.stats DataLoader.initialState) None)
      (GeocoderNet.mkWorld ToyJs.env [] [] [])
    = (st', w')
    ∧ GeocoderNet.env w' = ToyJs.env
    ∧ length (GeocoderNet.requests w') = 1%nat.
Proof.
  destruct (DataLoader.startGeocoding ToyCsv.decodeURIComponent
              ToyJs.toLowerCase ToyJs.JSON_parse ToyJs.JSON_stringify
              ToyNet.encodeURIComponent
              (λ _ _, GeocoderNet.Body "REQUEST_DENIED" []) (Some "key")
              (DataLoader.mkState
                 (DataLoader.filePlaces ToyCsv.trim
                    ("data/trip.csv", ToyCsv.trip))
                 [] (DataLoader.stats DataLoader.initialState) None)
              (GeocoderNet.mkWorld ToyJs.env [] [] [])) as [st' w'] eqn:Hrun.
  exists st', w'. split; [done|].
  destruct (startGeocoding_denied_key ToyCsv.decodeURIComponent
              ToyJs.toLowerCase ToyJs.JSON_parse ToyJs.JSON_stringify
              ToyNet.encodeURIComponent
              (λ _ _, GeocoderNet.Body "REQUEST_DENIED" []) _ _ _ _ _
              (λ _ _, ex_intro _ [] eq_refl) Hrun)
    as (Henv & Hrequests).
  split; [exact Henv|].
  vm_compute in Hrun. by injection Hrun as _ <-.
Defined.

(** ** The click / drag scratch map: colours, labels, the saved set *)

Section ScratchView.
Context `{Turf}.
Import GlobeScratch GlobeScratchView.

Lemma getPolygonColor_transparent st country id :
  getCountryId country = Ok id →
  getPolygonColor st country = Ok transparent ↔ id ∈ scratchedCountries st.
Proof.
  intros Hid. unfold getPolygonColor. rewrite Hid. simpl.
  case_bool_decide; split; done.
Qed.

Lemma getPolygonColor_same_set st st' country :
  scratchedCountries st' = scratchedCountries st →
  getPolygonColor st' country = getPolygonColor st country.
Proof. intros Heq. unfold getPolygonColor. by rewrite Heq. Qed.

(** X22: a click on a country reveals it for good, together with every
    country that has the same identifier (so all countries without any
    of the four names, whose identifier is ['unknown'], are revealed by
    a click on one of them): whatever happens before and after the
    click, such a country is drawn transparent. *)
Theorem clicked_country_stays_transparent (st : State)
    (before after : list Event) (country other : Country) (id : string) :
  getCountryId country = Ok id →
  getCountryId other = Ok id →
  getPolygonColor
    (run st (before ++ PolygonClick (Some country) :: after)) other
  = Ok transparent.
Proof.
  intros Hcountry Hother.
  apply (getPolygonColor_transparent _ _ id Hother).
  unfold run. rewrite foldl_app. simpl.
  apply (run_grows after). unfold handlePolygonClick. rewrite Hcountry.
  unfold scratch. simpl. set_solver.
Qed.

Lemma step_idle st ev :
  isDragging st = false →
  ev ≠ MouseDown →
  (∀ polygon, ev ≠ PolygonClick polygon) →
  scratchedCountries (step st ev) = scratchedCountries st
  ∧ isDragging (step st ev) = false.
Proof.
  intros Hidle Hdown Hclick.
  destruct ev as [| | |polygon|polygon]; simpl; try done.
  - unfold handlePolygonHover. destruct polygon; [|done]. by rewrite Hidle.
  - by destruct (Hclick polygon).
Qed.

(** X23: moving the pointer over the globe reveals nothing while no
    button is held.  From a state that is not dragging, a sequence of
    events without a mouse-down and without a click leaves the scratch
    set as it was, so every country keeps its colour. *)
Theorem hover_without_drag_reveals_nothing (st : State)
    (events : list Event) :
  isDragging st = false →
  Forall (λ ev, ev ≠ MouseDown ∧ ∀ polygon, ev ≠ PolygonClick polygon)
    events →
  scratchedCountries (run st events) = scratchedCountries st
  ∧ ∀ country,
      getPolygonColor (run st events) country = getPolygonColor st country.
Proof.
  intros Hidle Hevents.
  assert (Hrun : scratchedCountries (run st events) = scratchedCountries st).
  { revert st Hidle. unfold run.
    induction Hevents as [|ev events [Hdown Hclick] _ IH]; intros st Hidle;
      [done|].
    simpl. destruct (step_idle st ev Hidle Hdown Hclick) as [Hset Hidle'].
    by rewrite IH. }
  split; [done|]. intros country. by apply getPolygonColor_same_set.
Qed.

Lemma step_dragging st ev :
  isDragging st = true →
  ev ≠ MouseUp →
  ev ≠ MouseLeave →
  isDragging (step st ev) = true.
Proof.
  intros Hdrag Hup Hleave.
  destruct ev as [| | |polygon|polygon]; simpl; try done.
  - unfold handlePolygonHover. destruct polygon as [c|]; [|done].
    rewrite Hdrag. by destruct (getCountryId c).
  - unfold handlePolygonClick. destruct polygon as [c|]; [|done].
    by destruct (getCountryId c).
Qed.

(** X24: dragging reveals.  After a mouse-down, and as long as the
    button was not released and the pointer did not leave the globe, a
    country under the pointer is revealed for good, together with every
    country that has the same identifier. *)
Theorem dragged_country_stays_transparent (st : State)
    (before held after : list Event) (country other : Country)
    (id : string) :
  Forall (λ ev, ev ≠ MouseUp ∧ ev ≠ MouseLeave) held →
  getCountryId country = Ok id →
  getCountryId other = Ok id →
  getPolygonColor
    (run st (before ++ MouseDown :: held
             ++ PolygonHover (Some country) :: after)) other
  = Ok transparent.
Proof.
  intros Hheld Hcountry Hother.
  apply (getPolygonColor_transparent _ _ id Hother).
  unfold run. rewrite foldl_app. simpl. rewrite foldl_app. simpl.
  apply (run_grows after).
  set (pressed := handleMouseDown (foldl step st before)).
  assert (Hdrag : isDragging (foldl step pressed held) = true).
  { assert (Hpressed : isDragging pressed = true) by done.
    clearbody pressed. revert pressed Hpressed.
    induction Hheld as [|ev held [Hup Hleave] _ IH]; intros pressed Hpressed;
      [done|].
    simpl. apply IH. by apply step_dragging. }
  unfold handlePolygonHover. rewrite Hdrag, Hcountry.
  unfold scratch. simpl. set_solver.
Qed.

Section Labels.
Variable firstPosition : Geom → Exc (option Point).

Lemma scratchedOnly_origin st features : ∀ kept,
  scratchedOnly st features = Ok kept →
  ∀ country, country ∈ kept →
    country ∈ features
    ∧ ∃ id, getCountryId country = Ok id ∧ id ∈ scratchedCountries st.
Proof.
  induction features as [|c rest IH]; intros kept; simpl.
  - intros [= <-] country Hin. by apply elem_of_nil in Hin.
  - unfold mbind, Exc_bind.
    destruct (getCountryId c) as [id|] eqn:Hid; [|done].
    destruct (scratchedOnly st rest) as [others|]; [|done].
    case_bool_decide as Hscratched.
    + intros [= <-] country [->|Hin]%elem_of_cons.
      * split; [left|]. eauto.
      * destruct (IH others eq_refl country Hin) as [? ?]. split; [by right|done].
    + intros [= <-] country Hin.
      destruct (IH others eq_refl country Hin) as [? ?]. split; [by right|done].
Qed.

Lemma labelOf_names country id label :
  getCountryId country = Ok id →
  labelOf firstPosition country = Ok (Some label) →
  countryId label = id
  ∧ (text label = id ∨ id = "unknown" ∧ text label = "Unknown").
Proof.
  unfold getCountryId, labelOf, labelText, try_catch.
  destruct (properties country) as [p|] eqn:Hp; [|done].
  intros [= <-].
  assert (Htext :
    let chain := or_prop (or_prop (or_prop (prop_name p) (prop_NAME p))
                            (prop_ADMIN p)) (prop_NAME_EN p) in
    or_str chain "Unknown" = or_str chain "unknown"
    ∨ or_str chain "unknown" = "unknown" ∧ or_str chain "Unknown" = "Unknown").
  { intros chain. unfold or_str. destruct chain as [s|]; [|by right].
    case_bool_decide; [by left|by right]. }
  simpl in Htext.
  unfold getCountryId. rewrite Hp. unfold mbind, Exc_bind.
  destruct (turf_centroid _) as [[lng lat]|].
  - by intros [= <-].
  - destruct (firstPosition _) as [[[lng lat]|]|]; [|done|done].
    by intros [= <-].
Qed.

Lemma mapM_labelOf kept : ∀ labels,
  mapM (labelOf firstPosition) kept = Ok labels →
  Forall2 (λ country label, labelOf firstPosition country = Ok label)
    kept labels.
Proof.
  induction kept as [|c kept IH]; intros labels.
  - intros [= <-]. constructor.
  - cbn [mapM]. unfold mbind at 1, Exc_bind.
    destruct (labelOf firstPosition c) as [l|] eqn:Hl; [|done].
    unfold mbind at 1, Exc_bind.
    destruct (mapM _ kept) as [rest|]; [|done].
    intros [= <-]. constructor; [done|]. by apply IH.
Qed.

(** X25: labels are made for scratched countries only.  Every label that
    [labelsData] returns belongs to a country of the list whose
    identifier is in the scratch set; its text is that identifier,
    except that a country without a name is labelled ['Unknown'] while
    its identifier is ['unknown'].  The labels are computed whenever
    every country has a [properties] object and the reading of the first
    position does not raise. *)
Theorem labelsData_scratched (st : State) (features : list Country) :
  (∀ labels label,
     labelsData firstPosition st features = Ok labels →
     label ∈ labels →
     countryId label ∈ scratchedCountries st
     ∧ (∃ country, country ∈ features
          ∧ getCountryId country = Ok (countryId label))
     ∧ (text label = countryId label
        ∨ countryId label = "unknown" ∧ text label = "Unknown"))
  ∧ ((∀ country, country ∈ features →
        is_Some (properties country)
        ∧ ∃ position, firstPosition (geometry country) = Ok position) →
     ∃ labels, labelsData firstPosition st features = Ok labels).
Proof.
  split.
  - intros labels label. unfold labelsData. unfold mbind at 1, Exc_bind.
    destruct (scratchedOnly st features) as [kept|] eqn:Hkept; [|done].
    unfold mbind at 1, Exc_bind.
    destruct (mapM _ kept) as [made|] eqn:Hmade; [|done].
    intros [= <-] Hin. apply list_elem_of_omap in Hin as (l & Hl & Hsome).
    simpl in Hsome. subst l.
    apply mapM_labelOf in Hmade.
    destruct (list_elem_of_lookup_1 _ _ Hl) as [i Hi].
    destruct (Forall2_lookup_r _ _ _ i _ Hmade Hi) as (country & Hc & Hlabel).
    apply list_elem_of_lookup_2 in Hc.
    destruct (scratchedOnly_origin _ _ _ Hkept country Hc)
      as (Hfeature & id & Hid & Hset).
    destruct (labelOf_names country id label Hid Hlabel) as [Hcid Htext].
    rewrite Hcid. split_and!; [done|by exists country|done].
  - intros Hwell. unfold labelsData.
    assert (Hkept : ∃ kept, scratchedOnly st features = Ok kept
                      ∧ ∀ c, c ∈ kept → c ∈ features).
    { clear -Hwell. induction features as [|c rest IH]; simpl.
      - exists []. split; [done|]. intros c Hc. by apply elem_of_nil in Hc.
      - destruct (Hwell c (list_elem_of_here _ _)) as [[p Hp] _].
        unfold getCountryId at 1. rewrite Hp. unfold mbind, Exc_bind.
        destruct IH as (kept & -> & Hsub).
        { intros c' Hc'. apply Hwell. by right. }
        case_bool_decide; eexists; (split; [done|]).
        + intros c' [->|?]%elem_of_cons; [left|right; auto].
        + intros c' ?. right. auto. }
    destruct Hkept as (kept & -> & Hsub).
    change (∃ labels,
              mapM (labelOf firstPosition) kept
              ≫= (λ made, Ok (omap id made)) = Ok labels).
    assert (Hmade : ∃ made, mapM (labelOf firstPosition) kept = Ok made).
    { clear -Hwell Hsub. induction kept as [|c kept IH].
      - by exists [].
      - destruct IH as [made Hmade].
        { intros c' Hc'. apply Hsub. by right. }
        cbn [mapM]. rewrite Hmade.
        destruct (Hwell c (Hsub c (list_elem_of_here _ _)))
          as [[p Hp] [position Hposition]].
        unfold labelOf, labelText, getCountryId, try_catch.
        rewrite Hp, Hposition. unfold mbind, Exc_bind.
        destruct (turf_centroid _) as [[lng lat]|]; [by eexists|].
        destruct position as [[lng lat]|]; by eexists. }
    destruct Hmade as [made ->]. by eexists.
Qed.

End Labels.

Section SavedSet.
Variable JSON_parse : string → Exc (list string).
Variable JSON_stringify : list string → string.

(** X26: the scratch set survives a reload.  What the save effect wrote
    for a state is what the mount effect loads, provided the JSON text
    of the list of identifiers is not empty and parses back to the list:
    the loaded set is the saved one and every country has the colour it
    had. *)
Theorem saved_set_round_trip (st st0 : State)
    (localStorage : gmap string string) :
  JSON_stringify (elements (scratchedCountries st)) ≠ EmptyString →
  JSON_parse (JSON_stringify (elements (scratchedCountries st)))
  = Ok (elements (scratchedCountries st)) →
  scratchedCountries
    (loadSaved JSON_parse (saveScratched JSON_stringify st localStorage) st0)
  = scratchedCountries st
  ∧ ∀ country,
      getPolygonColor
        (loadSaved JSON_parse (saveScratched JSON_stringify st localStorage)
           st0) country
      = getPolygonColor st country.
Proof.
  intros Hne Hparse.
  assert (Hset : scratchedCountries
            (loadSaved JSON_parse
               (saveScratched JSON_stringify st localStorage) st0)
          = scratchedCountries st).
  { unfold loadSaved, saveScratched.
    rewrite lookup_insert_eq, bool_decide_true, Hparse by done. simpl.
    apply list_to_set_elements_L. }
  split; [done|]. intros country. by apply getPolygonColor_same_set.
Qed.

End SavedSet.
End ScratchView.

Section ScratchViewExamples.
Import GlobeScratch GlobeScratchView ScratchSamples.

Lemma clicked_country_stays_transparent_witness :
  @getPolygonColor toy
    (run idle ([MouseDown] ++ PolygonClick (Some islet) :: [MouseUp])) reef
  = Ok transparent.
Proof.
  apply (@clicked_country_stays_transparent toy idle [MouseDown] [MouseUp]
           islet reef "unknown"); reflexivity.
Defined.

Lemma dragged_country_stays_transparent_witness :
  @getPolygonColor toy
    (run idle ([] ++ MouseDown :: [PolygonHover None]
               ++ PolygonHover (Some islet) :: [MouseUp])) reef
  = Ok transparent.
Proof.
  apply (@dragged_country_stays_transparent toy idle [] [PolygonHover None]
           [MouseUp] islet reef "unknown").
  - repeat constructor; done.
  - reflexivity.
  - reflexivity.
Defined.

Lemma labelsData_scratched_witness :
  ∃ labels,
    @labelsData toy (λ _, Ok None) visitedAland [Samples.aland; islet]
    = Ok labels
    ∧ ∀ label, label ∈ labels →
        countryId label ∈ scratchedCountries visitedAland.
Proof.
  destruct (proj2 (@labelsData_scratched toy (λ _, Ok None) visitedAland
                     [Samples.aland; islet])) as [labels Hlabels].
  - intros country Hin. split; [|by eexists].
    apply elem_of_cons in Hin as [->|Hin]; [by eexists|].
    apply list_elem_of_singleton in Hin as ->. by eexists.
  - exists labels. split; [done|]. intros label Hin.
    exact (proj1 (proj1 (@labelsData_scratched toy (λ _, Ok None)
                           visitedAland [Samples.aland; islet])
                    labels label Hlabels Hin)).
Defined.

Lemma hover_without_drag_reveals_nothing_witness :
  scratchedCountries
    (@run toy idle [PolygonHover (Some Samples.aland); MouseUp; MouseLeave])
  = ∅.
Proof.
  apply (@hover_without_drag_reveals_nothing toy idle
           [PolygonHover (Some Samples.aland); MouseUp; MouseLeave]).
  - reflexivity.
  - repeat constructor; done.
Defined.

Lemma saved_set_round_trip_witness :
  scratchedCountries
    (loadSaved JSON_parse (saveScratched JSON_stringify visitedAland ∅) idle)
  = {[ "Aland" ]}.
Proof.
  apply (@saved_set_round_trip toy JSON_parse JSON_stringify visitedAland
           idle ∅).
  - unfold visitedAland. simpl. by rewrite elements_singleton.
  - unfold visitedAland. simpl. by rewrite elements_singleton.
Defined.

End ScratchViewExamples.

(** ** The globe driven by geocoded places: circles, markers, colours *)

Section CirclesView.
Context `{Turf}.
Import GlobeCircles GlobeCirclesView CoverageSpec.

Lemma usable_false place :
  geocoded place = false ∨ lat place = 0 ∨ lng place = 0 →
  usable place = false.
Proof.
  unfold usable, truthy. intros [Hg | [Hl | Hl]]; rewrite ?Hg, ?Hl; [done| |].
  - rewrite (bool_decide_false (0 ≠ 0)) by (by intros ?).
    by rewrite andb_false_r.
  - rewrite (bool_decide_false (0 ≠ 0)) by (by intros ?).
    by rewrite andb_false_r.
Qed.

Lemma filter_usable_skip before place after :
  usable place = false →
  filter (λ p, Is_true (usable p)) (before ++ place :: after)
  = filter (λ p, Is_true (usable p)) (before ++ after).
Proof.
  intros Hplace. rewrite !filter_app. f_equal.
  by rewrite filter_cons_False by (simpl; rewrite Hplace; by intros []).
Qed.

(** X27: a place that is not geocoded, or whose latitude or longitude is
    0 (a place on the equator or on the Greenwich meridian), is ignored
    everywhere: with or without it in the list the circles, the markers,
    the circles of the radius module and the visited countries are the
    same. *)
Theorem unusable_place_ignored (features : list Country)
    (before after : list Place) (place : Place) :
  geocoded place = false ∨ lat place = 0 ∨ lng place = 0 →
  scratchedCircles (before ++ place :: after)
  = scratchedCircles (before ++ after)
  ∧ centerPoints (before ++ place :: after) = centerPoints (before ++ after)
  ∧ RadiusQueries.createCirclesForPlaces (before ++ place :: after)
    = RadiusQueries.createCirclesForPlaces (before ++ after)
  ∧ visitedCountriesData features (before ++ place :: after)
    = visitedCountriesData features (before ++ after).
Proof.
  intros Hplace%usable_false. split_and!.
  - unfold scratchedCircles. by rewrite filter_usable_skip.
  - unfold centerPoints. by rewrite filter_usable_skip.
  - unfold RadiusQueries.createCirclesForPlaces.
    by rewrite filter_usable_skip.
  - unfold visitedCountriesData.
    destruct (bool_decide (length features = 0%nat)); [done|]. simpl.
    assert (Hfold : ∀ cs,
      foldl (visitPlace cs) [] (before ++ place :: after)
      = foldl (visitPlace cs) [] (before ++ after)).
    { intros cs. rewrite !foldl_app. simpl. unfold visitPlace at 2.
      by rewrite Hplace. }
    rewrite Hfold.
    rewrite (bool_decide_false (length (before ++ place :: after) = 0%nat))
      by (rewrite length_app; simpl; lia).
    case_bool_decide as Hlen; [|done].
    apply nil_length_inv in Hlen as ->. done.
Qed.

Lemma usable_geocodedPlaces entries :
  filter (λ p, Is_true (usable p)) (geocodedPlaces (Some entries))
  = geocodedPlaces
      (Some (filter (λ entry, Geocoder.lat entry.2 ≠ 0
                              ∧ Geocoder.lng entry.2 ≠ 0) entries)).
Proof.
  unfold geocodedPlaces.
  induction entries as [|[name coords] entries IH]; [done|].
  cbn [map].
  destruct (decide (Geocoder.lat coords ≠ 0 ∧ Geocoder.lng coords ≠ 0))
    as [[Hlat Hlng]|Hzero].
  - rewrite filter_cons_True, (filter_cons_True _ (name, coords)) by
      (try done; unfold usable, truthy; simpl;
       by rewrite !bool_decide_true).
    cbn [map]. by rewrite IH.
  - rewrite filter_cons_False, (filter_cons_False _ (name, coords)); [done..|].
    unfold usable, truthy. simpl. intros Husable.
    apply Hzero. split; intros Heq; rewrite Heq in Husable;
      rewrite (bool_decide_false (0 ≠ 0)) in Husable by (by intros ?);
      by rewrite ?andb_false_r in Husable.
Qed.

(** X28: from the bundled places to the globe.  There is one circle and
    one marker, in the order of the entries, for every entry of the
    bundled [places] whose latitude and longitude are not 0, and none
    for the others; circle and marker carry the name of the entry as
    title and its coordinates as centre; the circles are the polygons
    that [createCirclesForPlaces] of the radius module builds for the
    same places.  Without a [places] member there is nothing to show. *)
Theorem markers_of_bundled_places
    (entries : list (string * Geocoder.GeocodeResult)) :
  let places := geocodedPlaces (Some entries) in
  let shown :=
    filter (λ entry, Geocoder.lat entry.2 ≠ 0 ∧ Geocoder.lng entry.2 ≠ 0)
      entries in
  (λ m, (marker_title m, marker_lat m, marker_lng m))
    <$> pointsData (centerPoints places)
  = (λ entry, (entry.1, Geocoder.lat entry.2, Geocoder.lng entry.2))
      <$> shown
  ∧ (λ c, (props_title (circle_properties c),
           props_lat (circle_properties c),
           props_lng (circle_properties c)))
      <$> scratchedCircles places
    = (λ entry, (entry.1, Geocoder.lat entry.2, Geocoder.lng entry.2))
        <$> shown
  ∧ circle_geom <$> scratchedCircles places
    = RadiusQueries.feature_geom
        <$> RadiusQueries.createCirclesForPlaces places
  ∧ scratchedCircles (geocodedPlaces None) = [].
Proof.
  intros places shown. subst places shown.
  unfold scratchedCircles, pointsData, centerPoints,
    RadiusQueries.createCirclesForPlaces.
  rewrite usable_geocodedPlaces. unfold geocodedPlaces.
  split_and!.
  - rewrite <- !list_fmap_compose. apply list_fmap_ext. by intros i [? ?].
  - rewrite <- !list_fmap_compose. apply list_fmap_ext. by intros i [? ?].
  - rewrite <- !list_fmap_compose. by apply list_fmap_ext.
  - done.
Qed.

Lemma scanVerdict_app_covered country disks more :
  scanVerdict country disks = Covered →
  scanVerdict country (disks ++ more) = Covered.
Proof.
  induction disks as [|d disks IH]; simpl; [done|].
  destruct (diskVerdict country d); auto.
Qed.

(** X29: a revealed country stays revealed when places are appended.
    If the matcher built for a list of places answers [true] for a
    country, the matcher built for the list with more places at its end
    answers [true] as well, and the country is drawn transparent. *)
Theorem appended_places_keep_revealed (places more : list Place)
    (f g : Country → Exc bool) (country : Country) :
  isCountryScratched (scratchedCircles places) = Ok f →
  isCountryScratched (scratchedCircles (places ++ more)) = Ok g →
  f country = Ok true →
  g country = Ok true
  ∧ getPolygonColor g country = Ok transparent.
Proof.
  intros Hf Hg Htrue.
  rewrite (isCountryScratched_scan places f country Hf) in Htrue.
  injection Htrue as Htrue. apply bool_decide_eq_true in Htrue.
  assert (Hg' : g country = Ok true).
  { rewrite (isCountryScratched_scan (places ++ more) g country Hg).
    f_equal. apply bool_decide_eq_true.
    unfold coverageDisks in *. rewrite filter_app, map_app.
    by apply scanVerdict_app_covered. }
  split; [done|]. unfold getPolygonColor. by rewrite Hg'.
Qed.

End CirclesView.

Section CirclesViewExamples.
Import GlobeCircles GlobeCirclesView Samples.

(** A place on the equator. *)
Lemma unusable_place_ignored_witness :
  @scratchedCircles toy ([west] ++ placeAt "Quito" (-78) 0 :: [east])
  = @scratchedCircles toy ([west] ++ [east]).
Proof.
  apply (@unusable_place_ignored toy [] [west] [east]
           (placeAt "Quito" (-78) 0)).
  right; left. apply Qc_is_canon. reflexivity.
Defined.

Lemma matcher_west :
  @isCountryScratched toy (scratchedCircles [west])
  = Ok (matchCountry [(@circleOfPlace toy west, westBox)]).
Proof.
  apply matcher_built; [done | | by vm_compute].
  repeat (apply (@circleBounds_cons toy); [by vm_compute|]).
  apply (@circleBounds_nil toy).
Qed.

Lemma appended_places_keep_revealed_witness :
  matchCountry westEast aland = Ok true
  ∧ @getPolygonColor toy (matchCountry westEast) aland = Ok transparent.
Proof.
  apply (@appended_places_keep_revealed toy [west] [east]
           (matchCountry [(@circleOfPlace toy west, westBox)])
           (matchCountry westEast) aland).
  - exact matcher_west.
  - exact matcher_westEast.
  - by vm_compute.
Defined.

End CirclesViewExamples.
